(** * disgo: grouped entity cache, ban-remove gateway handler, mention formats,
    voice connection options

    A shallow embedding of
      - [cache.DefaultGroupedCache]  (src/cache/grouped_cache.go),
      - [core.DefaultGroupedCache]   (package core, the older grouped cache),
      - [gatewayHandlerGuildBanRemove] (src/core/handlers),
      - the mention formatters and mention patterns of package discord, and
      - [voice.ConnectionConfig] with its options.

    Go maps and slices are reference values.  The caches below therefore live
    in an explicit store of map and slice objects, and every method is a
    function on a receiver value paired with that store.  The mutex of the
    caches is not modelled: every method is one atomic step.  The callback of
    [ForEach] and [ForEachGroup] is a step on the state of the caller. *)

From Stdlib Require Import ZArith Lia String Ascii DecimalString DecimalFacts DecimalPos DecimalN.
From stdpp Require Import base option list gmap fin_maps.

(** ** Go reference values: a typed store of maps and slices *)
Module Go.

(** A reference to a map or to the backing array of a slice. *)
Abbreviation loc := positive (only parsing).

(** The zero value of a Go type ([var entity T]). *)
Class Zero (T : Type) := zero : T.

(** [for k, v := range m]: Go leaves the order unspecified, so the order is
    a parameter; it enumerates each entry of the map once. *)
Class RangeOrder (K : Type) `{Countable K} := {
  range : forall {V : Type}, gmap K V -> list (K * V);
  range_perm : forall (V : Type) (m : gmap K V), range m ≡ₚ map_to_list m
}.

Section Heap.
Context {K : Type} `{Countable K} {T : Type}.

(** One store per static type that the caches allocate:
    [map[ID]map[ID]T], [map[ID]T], [map[ID][]T] and [[]T]. *)
Record heap := Heap {
  group_maps : gmap loc (gmap K loc);
  entity_maps : gmap loc (gmap K T);
  slice_maps : gmap loc (gmap K loc);
  slices : gmap loc (list T);
  next : loc
}.

Definition empty_heap : heap := Heap ∅ ∅ ∅ ∅ 1%positive.

(** Dereferencing; a reference without an object reads as an empty map,
    just as a nil map does. *)
Definition groups_at (h : heap) (r : loc) : gmap K loc :=
  default ∅ (group_maps h !! r).
Definition entities_at (h : heap) (r : loc) : gmap K T :=
  default ∅ (entity_maps h !! r).
Definition slice_map_at (h : heap) (r : loc) : gmap K loc :=
  default ∅ (slice_maps h !! r).
Definition slice_at (h : heap) (r : loc) : list T :=
  default [] (slices h !! r).

(** [make(map[ID]map[ID]T)] *)
Definition make_group_map (h : heap) : loc * heap :=
  (next h,
   Heap (<[next h := ∅]> (group_maps h)) (entity_maps h)
        (slice_maps h) (slices h) (Pos.succ (next h))).

(** [make(map[ID]T)] *)
Definition make_entity_map (h : heap) : loc * heap :=
  (next h,
   Heap (group_maps h) (<[next h := ∅]> (entity_maps h))
        (slice_maps h) (slices h) (Pos.succ (next h))).

(** [make(map[ID][]T)] *)
Definition make_slice_map (h : heap) : loc * heap :=
  (next h,
   Heap (group_maps h) (entity_maps h)
        (<[next h := ∅]> (slice_maps h)) (slices h) (Pos.succ (next h))).

(** [make([]T, 0, n)] *)
Definition make_slice (h : heap) : loc * heap :=
  (next h,
   Heap (group_maps h) (entity_maps h)
        (slice_maps h) (<[next h := []]> (slices h)) (Pos.succ (next h))).

(** [m[k] = v] for [m : map[ID]map[ID]T] *)
Definition group_store (h : heap) (m : loc) (k : K) (v : loc) : heap :=
  Heap (<[m := <[k := v]> (groups_at h m)]> (group_maps h)) (entity_maps h)
       (slice_maps h) (slices h) (next h).

(** [delete(m, k)] for [m : map[ID]map[ID]T] *)
Definition group_delete (h : heap) (m : loc) (k : K) : heap :=
  Heap (alter (delete k) m (group_maps h)) (entity_maps h)
       (slice_maps h) (slices h) (next h).

(** [m[k] = v] for [m : map[ID]T] *)
Definition entity_store (h : heap) (m : loc) (k : K) (v : T) : heap :=
  Heap (group_maps h) (<[m := <[k := v]> (entities_at h m)]> (entity_maps h))
       (slice_maps h) (slices h) (next h).

(** [delete(m, k)] for [m : map[ID]T] *)
Definition entity_delete (h : heap) (m : loc) (k : K) : heap :=
  Heap (group_maps h) (alter (delete k) m (entity_maps h))
       (slice_maps h) (slices h) (next h).

(** [m[k] = v] for [m : map[ID][]T] *)
Definition slice_map_store (h : heap) (m : loc) (k : K) (v : loc) : heap :=
  Heap (group_maps h) (entity_maps h)
       (<[m := <[k := v]> (slice_map_at h m)]> (slice_maps h)) (slices h) (next h).

(** [delete(m, k)] for [m : map[ID][]T] *)
Definition slice_map_delete (h : heap) (m : loc) (k : K) : heap :=
  Heap (group_maps h) (entity_maps h)
       (alter (delete k) m (slice_maps h)) (slices h) (next h).

(** [s = append(s, v)] within the capacity of [s] *)
Definition slice_append (h : heap) (s : loc) (v : T) : heap :=
  Heap (group_maps h) (entity_maps h)
       (slice_maps h) (<[s := slice_at h s ++ [v]]> (slices h)) (next h).

(** [s[i] = v]; out of range Go panics, the model leaves the slice alone *)
Definition slice_set (h : heap) (s : loc) (i : nat) (v : T) : heap :=
  Heap (group_maps h) (entity_maps h)
       (slice_maps h) (alter (fun l => <[i := v]> l) s (slices h)) (next h).

(** [m[k]] with the comma-ok form, for a possibly nil [m : map[ID]map[ID]T] *)
Definition index_group (h : heap) (m : option loc) (k : K) : option loc :=
  match m with
  | Some r => groups_at h r !! k
  | None => None
  end.

(** [m[k]] with the comma-ok form, for a possibly nil [m : map[ID]T] *)
Definition index_entity (h : heap) (m : option loc) (k : K) : option T :=
  match m with
  | Some r => entities_at h r !! k
  | None => None
  end.

(** [range m] over a possibly nil map *)
Definition range_groups `{!RangeOrder K} (h : heap) (m : option loc) : list (K * loc) :=
  match m with
  | Some r => range (groups_at h r)
  | None => []
  end.

Definition range_entities `{!RangeOrder K} (h : heap) (m : option loc) : list (K * T) :=
  match m with
  | Some r => range (entities_at h r)
  | None => []
  end.

(** *** What a caller can do with a returned map or slice *)
Inductive kind := KGroupMap | KEntityMap | KSliceMap | KSlice.

Inductive mutation :=
| MutGroupStore (m : loc) (k : K) (v : loc)
| MutGroupDelete (m : loc) (k : K)
| MutEntityStore (m : loc) (k : K) (v : T)
| MutEntityDelete (m : loc) (k : K)
| MutSliceMapStore (m : loc) (k : K) (v : loc)
| MutSliceMapDelete (m : loc) (k : K)
| MutSliceSet (s : loc) (i : nat) (v : T).

Definition target (mu : mutation) : kind * loc :=
  match mu with
  | MutGroupStore m _ _ | MutGroupDelete m _ => (KGroupMap, m)
  | MutEntityStore m _ _ | MutEntityDelete m _ => (KEntityMap, m)
  | MutSliceMapStore m _ _ | MutSliceMapDelete m _ => (KSliceMap, m)
  | MutSliceSet s _ _ => (KSlice, s)
  end.

Definition mutate1 (h : heap) (mu : mutation) : heap :=
  match mu with
  | MutGroupStore m k v => group_store h m k v
  | MutGroupDelete m k => group_delete h m k
  | MutEntityStore m k v => entity_store h m k v
  | MutEntityDelete m k => entity_delete h m k
  | MutSliceMapStore m k v => slice_map_store h m k v
  | MutSliceMapDelete m k => slice_map_delete h m k
  | MutSliceSet s i v => slice_set h s i v
  end.

Definition mutate (h : heap) (ms : list mutation) : heap := foldl mutate1 h ms.

(** A value handed to a caller. *)
Inductive value :=
| VNil
| VGroupMap (r : loc)
| VEntityMap (r : loc)
| VSliceMap (r : loc)
| VSlice (r : loc).

(** The objects a caller reaches through a returned value: the object
    itself and, for a map of references, the objects it refers to. *)
Definition reach (h : heap) (v : value) : list (kind * loc) :=
  match v with
  | VNil => []
  | VGroupMap r => (KGroupMap, r) :: ((fun kv => (KEntityMap, kv.2)) <$> map_to_list (groups_at h r))
  | VEntityMap r => [(KEntityMap, r)]
  | VSliceMap r => (KSliceMap, r) :: ((fun kv => (KSlice, kv.2)) <$> map_to_list (slice_map_at h r))
  | VSlice r => [(KSlice, r)]
  end.

(** [ms] writes only through the objects in [fp]. *)
Definition mutates_only (fp : list (kind * loc)) (ms : list mutation) : Prop :=
  Forall (fun mu => target mu ∈ fp) ms.
End Heap.

Global Arguments heap K {_ _} T.
Global Arguments mutation K T : clear implicits.

(** The enumeration order of the model's maps, as one admissible order. *)
#[global, refine] Instance map_to_list_order {K : Type} `{Countable K} : RangeOrder K :=
  {| range := fun V m => map_to_list m |}.
Proof. reflexivity. Defined.
End Go.

(** ** Package cache: [DefaultGroupedCache] (src/cache/grouped_cache.go) *)
Module Cache.
Import Go.

(** [type Flags int], a bit set of the entity kinds that are mirrored. *)
Abbreviation Flags := Z (only parsing).

(** Modelled from the spec: the constant [FlagsNone] and the method
    [Flags.Missing] are declared outside src/.  The spec calls the flags a
    bit set and rejects a [Put] when the required flags are not enabled:
    [Missing] is true when some bit of [bits] is not set in [f]. *)
Definition FlagsNone : Flags := 0%Z.
Definition Missing (f bits : Flags) : bool := negb (Z.land f bits =? bits)%Z.

Section GroupedCache.
Context {K : Type} `{Countable K} {T : Type} `{!Zero T} `{!RangeOrder K}.

(** [type Policy[T any] func(entity T) bool]; a nil policy is [None]. *)
Definition Policy := option (T -> bool).

(** [type GroupedCacheFilterFunc[T any] func(groupID snowflake.ID, entity T) bool] *)
Definition GroupedCacheFilterFunc := K -> T -> bool.

(** The struct, without its mutex; [cache] is a reference or nil. *)
Record DefaultGroupedCache := {
  flags : Flags;
  neededFlags : Flags;
  policy : Policy;
  cache : option loc
}.

(** [c.cache = m] *)
Definition set_cache (c : DefaultGroupedCache) (m : option loc) : DefaultGroupedCache :=
  {| flags := flags c; neededFlags := neededFlags c; policy := policy c; cache := m |}.

(** A receiver together with the store it points into. *)
Definition state : Type := DefaultGroupedCache * heap K T.

Definition NewGroupedCache (fl needed : Flags) (p : Policy) (h : heap K T) : state :=
  let '(r, h) := make_group_map h in
  ({| flags := fl; neededFlags := needed; policy := p; cache := Some r |}, h).

Definition Get (s : state) (groupID id : K) : T * bool :=
  let '(c, h) := s in
  match index_group h (cache c) groupID with
  | Some groupEntities =>
      match entities_at h groupEntities !! id with
      | Some entity => (entity, true)
      | None => (zero, false)
      end
  | None => (zero, false)
  end.

(** The two early returns of [Put]. *)
Definition flags_reject (c : DefaultGroupedCache) : bool :=
  negb (neededFlags c =? FlagsNone)%Z && Missing (flags c) (neededFlags c).

Definition policy_rejects (c : DefaultGroupedCache) (entity : T) : bool :=
  match policy c with
  | Some p => negb (p entity)
  | None => false
  end.

Definition Put (s : state) (groupID id : K) (entity : T) : state :=
  let '(c, h) := s in
  if flags_reject c then s
  else if policy_rejects c entity then s
  else
    let '(r, c, h) := match cache c with
                      | Some r => (r, c, h)
                      | None => let '(r, h) := make_group_map h in
                                (r, set_cache c (Some r), h)
                      end in
    match groups_at h r !! groupID with
    | Some groupEntities => (c, entity_store h groupEntities id entity)
    | None =>
        let '(groupEntities, h) := make_entity_map h in
        let h := entity_store h groupEntities id entity in
        (c, group_store h r groupID groupEntities)
    end.

Definition Remove (s : state) (groupID id : K) : (T * bool) * state :=
  let '(c, h) := s in
  match index_group h (cache c) groupID with
  | Some groupEntities =>
      match entities_at h groupEntities !! id with
      | Some entity => ((entity, true), (c, entity_delete h groupEntities id))
      | None => ((zero, false), s)
      end
  | None => ((zero, false), s)
  end.

Definition RemoveAll (s : state) (groupID : K) : state :=
  let '(c, h) := s in
  match cache c with
  | Some r => (c, group_delete h r groupID)
  | None => s
  end.

(** [delete(c.cache[groupID], id)] *)
Definition delete_in_group (c : DefaultGroupedCache) (h : heap K T) (groupID id : K) : heap K T :=
  match index_group h (cache c) groupID with
  | Some groupEntities => entity_delete h groupEntities id
  | None => h
  end.

(** The inner loop of [RemoveIf] for one group.  It deletes the entry it is
    visiting and no other, so the entries still to come are those listed
    when the loop starts. *)
Definition RemoveIf_group (filterFunc : GroupedCacheFilterFunc)
    (c : DefaultGroupedCache) (h : heap K T) (groupID : K) : heap K T :=
  foldl (fun h '(id, entity) =>
           if filterFunc groupID entity then delete_in_group c h groupID id else h)
        h (range_entities h (index_group h (cache c) groupID)).

Definition RemoveIf (s : state) (filterFunc : GroupedCacheFilterFunc) : state :=
  let '(c, h) := s in
  (c, foldl (fun h '(groupID, _) => RemoveIf_group filterFunc c h groupID)
            h (range_groups h (cache c))).

(** [All]: a fresh [map[ID][]T] with one fresh slice per group. *)
Definition All (s : state) : value * state :=
  let '(c, h) := s in
  let '(all, h) := make_slice_map h in
  let h :=
    foldl (fun h '(groupID, groupEntities) =>
             let '(sl, h) := make_slice h in
             let h := slice_map_store h all groupID sl in
             foldl (fun h '(_, entity) => slice_append h sl entity)
                   h (range (entities_at h groupEntities)))
          h (range_groups h (cache c)) in
  (VSliceMap all, (c, h)).

Definition GroupAll (s : state) (groupID : K) : value * state :=
  let '(c, h) := s in
  match index_group h (cache c) groupID with
  | None => (VNil, s)
  | Some groupEntities =>
      let '(all, h) := make_slice h in
      let h := foldl (fun h '(_, entity) => slice_append h all entity)
                     h (range (entities_at h groupEntities)) in
      (VSlice all, (c, h))
  end.

(** [MapAll]: a fresh [map[ID]map[ID]T] with one fresh map per group. *)
Definition MapAll (s : state) : value * state :=
  let '(c, h) := s in
  let '(all, h) := make_group_map h in
  let h :=
    foldl (fun h '(groupID, groupEntities) =>
             let '(m, h) := make_entity_map h in
             let h := group_store h all groupID m in
             foldl (fun h '(entityID, entity) => entity_store h m entityID entity)
                   h (range (entities_at h groupEntities)))
          h (range_groups h (cache c)) in
  (VGroupMap all, (c, h)).

Definition MapGroupAll (s : state) (groupID : K) : value * state :=
  let '(c, h) := s in
  match index_group h (cache c) groupID with
  | None => (VNil, s)
  | Some groupEntities =>
      let '(all, h) := make_entity_map h in
      let h := foldl (fun h '(entityID, entity) => entity_store h all entityID entity)
                     h (range (entities_at h groupEntities)) in
      (VEntityMap all, (c, h))
  end.

(** The first entity of [l] that satisfies [f]; [return entity, true] inside
    a loop over [l]. *)
Fixpoint first_match (f : T -> bool) (l : list (K * T)) : option T :=
  match l with
  | [] => None
  | (_, entity) :: l => if f entity then Some entity else first_match f l
  end.

Fixpoint FindFirst_groups (h : heap K T) (cacheFindFunc : GroupedCacheFilterFunc)
    (gs : list (K * loc)) : option T :=
  match gs with
  | [] => None
  | (groupID, groupEntities) :: gs =>
      match first_match (cacheFindFunc groupID) (range (entities_at h groupEntities)) with
      | Some entity => Some entity
      | None => FindFirst_groups h cacheFindFunc gs
      end
  end.

Definition found (o : option T) : T * bool :=
  match o with
  | Some entity => (entity, true)
  | None => (zero, false)
  end.

Definition FindFirst (s : state) (cacheFindFunc : GroupedCacheFilterFunc) : T * bool :=
  let '(c, h) := s in
  found (FindFirst_groups h cacheFindFunc (range_groups h (cache c))).

Definition GroupFindFirst (s : state) (groupID : K) (cacheFindFunc : GroupedCacheFilterFunc)
    : T * bool :=
  let '(c, h) := s in
  found (first_match (cacheFindFunc groupID)
           (range_entities h (index_group h (cache c) groupID))).

(** [FindAll] and [GroupFindAll] return a fresh slice. *)
Definition FindAll (s : state) (cacheFindFunc : GroupedCacheFilterFunc) : value * state :=
  let '(c, h) := s in
  let '(all, h) := make_slice h in
  let h :=
    foldl (fun h '(groupID, groupEntities) =>
             foldl (fun h '(_, entity) =>
                      if cacheFindFunc groupID entity then slice_append h all entity else h)
                   h (range (entities_at h groupEntities)))
          h (range_groups h (cache c)) in
  (VSlice all, (c, h)).

Definition GroupFindAll (s : state) (groupID : K) (cacheFindFunc : GroupedCacheFilterFunc)
    : value * state :=
  let '(c, h) := s in
  let '(all, h) := make_slice h in
  let h :=
    foldl (fun h '(_, entity) =>
             if cacheFindFunc groupID entity then slice_append h all entity else h)
          h (range_entities h (index_group h (cache c) groupID)) in
  (VSlice all, (c, h)).

(** [ForEach] and [ForEachGroup] call back into the caller once per entity.
    The callback is a step on whatever the caller's closure holds, [a]. *)
Definition ForEach {A : Type} (s : state) (forEachFunc : K -> T -> A -> A) (a : A) : A :=
  let '(c, h) := s in
  foldl (fun a '(groupID, groupEntities) =>
           foldl (fun a '(_, entity) => forEachFunc groupID entity a)
                 a (range (entities_at h groupEntities)))
        a (range_groups h (cache c)).

Definition ForEachGroup {A : Type} (s : state) (groupID : K) (forEachFunc : T -> A -> A)
    (a : A) : A :=
  let '(c, h) := s in
  foldl (fun a '(_, entity) => forEachFunc entity a)
        a (range_entities h (index_group h (cache c) groupID)).

End GroupedCache.

Global Arguments DefaultGroupedCache T : clear implicits.
Global Arguments Policy T : clear implicits.
Global Arguments state K {_ _} T.
End Cache.

(** ** Package core: the older [DefaultGroupedCache], keyed by
    [snowflake.Snowflake] *)
Module Core.
Import Go.

(** [type CacheFlags int] *)
Abbreviation CacheFlags := Z (only parsing).

(** Modelled from the spec: [CacheFlagsNone] and [CacheFlags.Missing] are
    declared outside src/; as for package cache, [Missing] is true when some
    bit of [bits] is not set in [f]. *)
Definition CacheFlagsNone : CacheFlags := 0%Z.
Definition Missing (f bits : CacheFlags) : bool := negb (Z.land f bits =? bits)%Z.

Section GroupedCache.
Context {K : Type} `{Countable K} {T : Type} `{!Zero T} `{!RangeOrder K}.

(** [type CachePolicy[T any] func(entity T) bool]; a nil policy is [None]. *)
Definition CachePolicy := option (T -> bool).

(** [type GroupedCacheFindFunc[T any] func(groupID snowflake.Snowflake, entity T) bool] *)
Definition GroupedCacheFindFunc := K -> T -> bool.

Record DefaultGroupedCache := {
  flags : CacheFlags;
  neededFlags : CacheFlags;
  policy : CachePolicy;
  cache : option loc
}.

(** [c.cache = m] *)
Definition set_cache (c : DefaultGroupedCache) (m : option loc) : DefaultGroupedCache :=
  {| flags := flags c; neededFlags := neededFlags c; policy := policy c; cache := m |}.

Definition state : Type := DefaultGroupedCache * heap K T.

Definition NewGroupedCache (fl needed : CacheFlags) (p : CachePolicy) (h : heap K T) : state :=
  let '(r, h) := make_group_map h in
  ({| flags := fl; neededFlags := needed; policy := p; cache := Some r |}, h).

Definition Get (s : state) (groupID id : K) : T * bool :=
  let '(c, h) := s in
  match index_group h (cache c) groupID with
  | Some groupEntities =>
      match entities_at h groupEntities !! id with
      | Some entity => (entity, true)
      | None => (zero, false)
      end
  | None => (zero, false)
  end.

Definition flags_reject (c : DefaultGroupedCache) : bool :=
  negb (neededFlags c =? CacheFlagsNone)%Z && Missing (flags c) (neededFlags c).

Definition policy_rejects (c : DefaultGroupedCache) (entity : T) : bool :=
  match policy c with
  | Some p => negb (p entity)
  | None => false
  end.

Definition Put (s : state) (groupID id : K) (entity : T) : state :=
  let '(c, h) := s in
  if flags_reject c then s
  else if policy_rejects c entity then s
  else
    let '(r, c, h) := match cache c with
                      | Some r => (r, c, h)
                      | None => let '(r, h) := make_group_map h in
                                (r, set_cache c (Some r), h)
                      end in
    match groups_at h r !! groupID with
    | Some groupEntities => (c, entity_store h groupEntities id entity)
    | None =>
        let '(groupEntities, h) := make_entity_map h in
        let h := entity_store h groupEntities id entity in
        (c, group_store h r groupID groupEntities)
    end.

Definition Remove (s : state) (groupID id : K) : (T * bool) * state :=
  let '(c, h) := s in
  match index_group h (cache c) groupID with
  | Some groupEntities =>
      match entities_at h groupEntities !! id with
      | Some entity => ((entity, true), (c, entity_delete h groupEntities id))
      | None => ((zero, false), s)
      end
  | None => ((zero, false), s)
  end.

Definition RemoveAll (s : state) (groupID : K) : state :=
  let '(c, h) := s in
  match cache c with
  | Some r => (c, group_delete h r groupID)
  | None => s
  end.

(** [Cache] returns the field itself: the reference the cache works on. *)
Definition Cache (s : state) : value * state :=
  let '(c, h) := s in
  (match cache c with Some r => VGroupMap r | None => VNil end, s).

Definition All (s : state) : value * state :=
  let '(c, h) := s in
  let '(all, h) := make_slice_map h in
  let h :=
    foldl (fun h '(groupID, groupEntities) =>
             let '(sl, h) := make_slice h in
             let h := slice_map_store h all groupID sl in
             foldl (fun h '(_, entity) => slice_append h sl entity)
                   h (range (entities_at h groupEntities)))
          h (range_groups h (cache c)) in
  (VSliceMap all, (c, h)).

(** [GroupCache] returns the group's own map, or nil. *)
Definition GroupCache (s : state) (groupID : K) : value * state :=
  let '(c, h) := s in
  match index_group h (cache c) groupID with
  | Some groupEntities => (VEntityMap groupEntities, s)
  | None => (VNil, s)
  end.

Definition GroupAll (s : state) (groupID : K) : value * state :=
  let '(c, h) := s in
  match index_group h (cache c) groupID with
  | Some groupEntities =>
      let '(all, h) := make_slice h in
      let h := foldl (fun h '(_, entity) => slice_append h all entity)
                     h (range (entities_at h groupEntities)) in
      (VSlice all, (c, h))
  | None => (VNil, s)
  end.

Fixpoint first_match (f : T -> bool) (l : list (K * T)) : option T :=
  match l with
  | [] => None
  | (_, entity) :: l => if f entity then Some entity else first_match f l
  end.

Fixpoint FindFirst_groups (h : heap K T) (cacheFindFunc : GroupedCacheFindFunc)
    (gs : list (K * loc)) : option T :=
  match gs with
  | [] => None
  | (groupID, groupEntities) :: gs =>
      match first_match (cacheFindFunc groupID) (range (entities_at h groupEntities)) with
      | Some entity => Some entity
      | None => FindFirst_groups h cacheFindFunc gs
      end
  end.

Definition found (o : option T) : T * bool :=
  match o with
  | Some entity => (entity, true)
  | None => (zero, false)
  end.

Definition FindFirst (s : state) (cacheFindFunc : GroupedCacheFindFunc) : T * bool :=
  let '(c, h) := s in
  found (FindFirst_groups h cacheFindFunc (range_groups h (cache c))).

Definition GroupFindFirst (s : state) (groupID : K) (cacheFindFunc : GroupedCacheFindFunc)
    : T * bool :=
  let '(c, h) := s in
  found (first_match (cacheFindFunc groupID)
           (range_entities h (index_group h (cache c) groupID))).

Definition FindAll (s : state) (cacheFindFunc : GroupedCacheFindFunc) : value * state :=
  let '(c, h) := s in
  let '(all, h) := make_slice h in
  let h :=
    foldl (fun h '(groupID, groupEntities) =>
             foldl (fun h '(_, entity) =>
                      if cacheFindFunc groupID entity then slice_append h all entity else h)
                   h (range (entities_at h groupEntities)))
          h (range_groups h (cache c)) in
  (VSlice all, (c, h)).

Definition GroupFindAll (s : state) (groupID : K) (cacheFindFunc : GroupedCacheFindFunc)
    : value * state :=
  let '(c, h) := s in
  let '(all, h) := make_slice h in
  let h :=
    foldl (fun h '(_, entity) =>
             if cacheFindFunc groupID entity then slice_append h all entity else h)
          h (range_entities h (index_group h (cache c) groupID)) in
  (VSlice all, (c, h)).

(** [ForEach] and [ForEachGroup] call back into the caller once per entity.
    The callback is a step on whatever the caller's closure holds, [a]. *)
Definition ForEach {A : Type} (s : state) (forEachFunc : K -> T -> A -> A) (a : A) : A :=
  let '(c, h) := s in
  foldl (fun a '(groupID, groupEntities) =>
           foldl (fun a '(_, entity) => forEachFunc groupID entity a)
                 a (range (entities_at h groupEntities)))
        a (range_groups h (cache c)).

Definition ForEachGroup {A : Type} (s : state) (groupID : K) (forEachFunc : T -> A -> A)
    (a : A) : A :=
  let '(c, h) := s in
  foldl (fun a '(_, entity) => forEachFunc entity a)
        a (range_entities h (index_group h (cache c) groupID)).

End GroupedCache.

Global Arguments DefaultGroupedCache T : clear implicits.
Global Arguments CachePolicy T : clear implicits.
Global Arguments state K {_ _} T.
End Core.

(** ** Package discord (older tree): [User] (src/discord/user.go) *)
Module DiscordUser.

(** [type Snowflake string] in this tree. *)
Abbreviation Snowflake := string (only parsing).

(** [type UserFlags int] *)
Abbreviation UserFlags := Z (only parsing).

Record User := {
  ID : Snowflake;
  Username : string;
  Discriminator : string;
  Avatar : option string;
  Banner : option string;
  AccentColor : option Z;
  IsBot : bool;
  IsSystem : bool;
  PublicFlags : UserFlags
}.

End DiscordUser.

(** ** Package handlers: [gatewayHandlerGuildBanRemove]
    (src/core/handlers/gateway_handler_guild_ban_remove.go) *)
Module Handlers.
Import DiscordUser.

(** [discord.GatewayEventType]: the type and its constants are declared
    outside src/; the handlers name these two ban tags, any other tag is
    kept by its name. *)
Inductive GatewayEventType :=
| GatewayEventTypeGuildBanAdd
| GatewayEventTypeGuildBanRemove
| GatewayEventTypeOther (name : string).

(** [type GatewaySequence int] *)
Abbreviation GatewaySequence := Z (only parsing).

(** [discord.GuildBanRemoveGatewayEvent], with the two fields the handler
    reads. *)
Record GuildBanRemoveGatewayEvent := {
  payload_GuildID : Snowflake;
  payload_User : User
}.

(** A [core.Bot] is an interface value; the handler only passes it on, so a
    handle stands for it. *)
Abbreviation Bot := positive (only parsing).

(** Modelled from the spec: [events.NewGenericEvent] is declared outside
    src/.  A domain event carries a back-reference to the client facade and
    a copy of the originating sequence number. *)
Record GenericEvent := {
  event_bot : Bot;
  event_sequenceNumber : GatewaySequence
}.

Definition NewGenericEvent (bot : Bot) (sequenceNumber : GatewaySequence) : GenericEvent :=
  {| event_bot := bot; event_sequenceNumber := sequenceNumber |}.

(** [events.GuildUnbanEvent], as the handler fills it in. *)
Record GuildUnbanEvent := {
  GenericEvent_of : GenericEvent;
  GuildID : Snowflake;
  User_of : User
}.

(** The dynamic type of the [interface{}] argument: a pointer to the payload
    of this handler, or something else. *)
Inductive any :=
| AnyGuildBanRemove (p : GuildBanRemoveGatewayEvent)
| AnyOther.

(** The handler talks to the bot through two calls whose code is outside
    src/: they are recorded in the order they are made. *)
Inductive call :=
| Caches_Users_Put (bot : Bot) (id : Snowflake) (user : User)
| EventManager_Dispatch (bot : Bot) (event : GuildUnbanEvent).

(** A computation that may panic and otherwise returns a value and the
    calls it made. *)
Definition M (A : Type) : Type := option (A * list call).

Definition ret {A : Type} (a : A) : M A := Some (a, nil).

Definition bind {A B : Type} (m : M A) (f : A -> M B) : M B :=
  match m with
  | None => None
  | Some (a, cs) =>
      match f a with
      | None => None
      | Some (b, cs') => Some (b, app cs cs')
      end
  end.

Definition do (c : call) : M unit := Some (tt, cons c nil).

Definition panic {A : Type} : M A := None.

Notation "x <- m ;; k" := (bind m (fun x => k))
  (at level 100, m at next level, right associativity).
Notation "m >> k" := (bind m (fun _ => k))
  (at level 100, right associativity).

(** The type assertion on [v] to a pointer to the payload, dereferenced;
    it panics on any other dynamic type. *)
Definition assert_GuildBanRemove (v : any) : M GuildBanRemoveGatewayEvent :=
  match v with
  | AnyGuildBanRemove p => ret p
  | AnyOther => panic
  end.

Definition EventType : GatewayEventType := GatewayEventTypeGuildBanRemove.

(** [New] hands the decoder an empty payload of this handler's type. *)
Definition empty_User : User :=
  {| ID := EmptyString; Username := EmptyString; Discriminator := EmptyString; Avatar := None; Banner := None;
     AccentColor := None; IsBot := false; IsSystem := false; PublicFlags := 0%Z |}.

Definition New : any :=
  AnyGuildBanRemove {| payload_GuildID := EmptyString; payload_User := empty_User |}.

Definition HandleGatewayEvent (bot : Bot) (sequenceNumber : GatewaySequence) (v : any)
    : M unit :=
  payload <- assert_GuildBanRemove v ;;
  do (Caches_Users_Put bot (ID (payload_User payload)) (payload_User payload)) >>
  do (EventManager_Dispatch bot
        {| GenericEvent_of := NewGenericEvent bot sequenceNumber;
           GuildID := payload_GuildID payload;
           User_of := payload_User payload |}).

(** The tags a handler is registered under: its own [EventType]. *)
Definition serves (t : GatewayEventType) : Prop := t = EventType.

(** The calls of a trace, by kind. *)
Definition puts (cs : list call) : list (Bot * Snowflake * User) :=
  flat_map (fun c => match c with
                     | Caches_Users_Put b id u => cons (b, id, u) nil
                     | EventManager_Dispatch _ _ => nil
                     end) cs.

Definition dispatched (cs : list call) : list (Bot * GuildUnbanEvent) :=
  flat_map (fun c => match c with
                     | Caches_Users_Put _ _ _ => nil
                     | EventManager_Dispatch b e => cons (b, e) nil
                     end) cs.

End Handlers.

(** ** Package discord: mention patterns and mention formatters *)
Module Mentions.

(** [snowflake.ID] is a [uint64]. *)
Abbreviation ID := N (only parsing).

(** [ID.String] belongs to the snowflake library: the identifier in base
    ten, as [strconv.FormatUint(uint64(id), 10)] writes it. *)
Definition ID_String (id : ID) : string := NilZero.string_of_uint (N.to_uint id).

(** *** The part of Go's regexp syntax that the three patterns use *)
Inductive regex :=
| Lit (c : ascii)                 (* a literal character *)
| Digit                           (* \d, an ASCII digit *)
| Seq (r1 r2 : regex)             (* r1 r2 *)
| Opt (r : regex)                 (* r?, preferring one match *)
| Plus (r : regex)                (* r+, preferring more *)
| Group (n : nat) (r : regex).    (* the n-th capturing group *)

Definition is_digit (c : ascii) : bool :=
  (48 <=? N_of_ascii c)%N && (N_of_ascii c <=? 57)%N.

(** The part of [s] in front of its suffix [s']. *)
Definition consumed (s s' : string) : string :=
  substring 0 (String.length s - String.length s') s.

Definition or_else {A : Type} (a b : option A) : option A :=
  match a with
  | Some x => Some x
  | None => b
  end.

(** A backtracking matcher: [match_at r s caps k] matches [r] at the front
    of [s] and hands the rest of [s] and the captures to [k]; when [k]
    fails, the next alternative of [r] is tried, in the order in which
    Go's leftmost-first matching prefers them. *)
Section Matcher.
Context {A : Type}.

Fixpoint match_at (r : regex) (s : string) (caps : list (option string))
    (k : string -> list (option string) -> option A) {struct r} : option A :=
  match r with
  | Lit c =>
      match s with
      | String c' s' => if Ascii.eqb c c' then k s' caps else None
      | EmptyString => None
      end
  | Digit =>
      match s with
      | String c' s' => if is_digit c' then k s' caps else None
      | EmptyString => None
      end
  | Seq r1 r2 => match_at r1 s caps (fun s' caps' => match_at r2 s' caps' k)
  | Opt r1 => or_else (match_at r1 s caps k) (k s caps)
  | Plus r1 =>
      (fix loop (fuel : nat) (s : string) (caps : list (option string)) : option A :=
         match fuel with
         | O => None
         | S fuel =>
             match_at r1 s caps (fun s' caps' =>
               if (String.length s' <? String.length s)%nat
               then or_else (loop fuel s' caps') (k s' caps')
               else k s' caps')
         end) (S (String.length s)) s caps
  | Group n r1 =>
      match_at r1 s caps (fun s' caps' => k s' (<[n := Some (consumed s s')]> caps'))
  end.

End Matcher.

(** A compiled pattern and the number of its capturing groups. *)
Record MentionType := {
  Regexp : regex;
  NumSubexp : nat
}.

(** An unmatched group reads as the empty string. *)
Definition group_text (o : option string) : string :=
  match o with
  | Some t => t
  | None => EmptyString
  end.

(** A match of the pattern at the front of [s]: the matched text, then the
    text of each group. *)
Definition match_prefix (m : MentionType) (s : string) : option (list string) :=
  match_at (Regexp m) s (replicate (S (NumSubexp m)) None)
    (fun s' caps => Some (consumed s s' :: (group_text <$> drop 1 caps))).

(** [FindStringSubmatch]: the leftmost match, [None] for Go's nil. *)
Fixpoint FindStringSubmatch (m : MentionType) (s : string) : option (list string) :=
  match match_prefix m s with
  | Some r => Some r
  | None =>
      match s with
      | String _ s' => FindStringSubmatch m s'
      | EmptyString => None
      end
  end.

Definition MatchString (m : MentionType) (s : string) : bool :=
  match FindStringSubmatch m s with
  | Some _ => true
  | None => false
  end.

(** [<@!?(\d+)>] *)
Definition MentionTypeUser : MentionType :=
  {| Regexp := Seq (Lit "<") (Seq (Lit "@") (Seq (Opt (Lit "!"))
                 (Seq (Group 1 (Plus Digit)) (Lit ">"))));
     NumSubexp := 1 |}.

(** [<@&(\d+)>] *)
Definition MentionTypeRole : MentionType :=
  {| Regexp := Seq (Lit "<") (Seq (Lit "@") (Seq (Lit "&")
                 (Seq (Group 1 (Plus Digit)) (Lit ">"))));
     NumSubexp := 1 |}.

(** [<#(\d+)>] *)
Definition MentionTypeChannel : MentionType :=
  {| Regexp := Seq (Lit "<") (Seq (Lit "#") (Seq (Group 1 (Plus Digit)) (Lit ">")));
     NumSubexp := 1 |}.

(** [fmt.Sprintf] with one [%s] verb between two literal parts; the verb
    prints an [ID] through its [String] method. *)
Definition Sprintf_s (before : string) (id : ID) (after : string) : string :=
  String.append before (String.append (ID_String id) after).

Definition ChannelMention (id : ID) : string := Sprintf_s "<#" id ">".

Definition UserMention (id : ID) : string := Sprintf_s "<@" id ">".

Definition RoleMention (id : ID) : string := Sprintf_s "<@&" id ">".

(** *** Vocabulary for the proofs about the patterns *)

Fixpoint all_digits (s : string) : bool :=
  match s with
  | EmptyString => true
  | String c s' => is_digit c && all_digits s'
  end.

(** [s] is empty or starts with something that is not a digit. *)
Definition no_digit_ahead (s : string) : bool :=
  match s with
  | EmptyString => true
  | String c _ => negb (is_digit c)
  end.

(** The loop that [match_at] runs for [\d+], by name. *)
Section DigitsLoop.
Context {A : Type} (k : string -> list (option string) -> option A).

Fixpoint digits_loop (fuel : nat) (s : string) (caps : list (option string)) : option A :=
  match fuel with
  | O => None
  | S fuel =>
      match_at Digit s caps (fun s' caps' =>
        if (String.length s' <? String.length s)%nat
        then or_else (digits_loop fuel s' caps') (k s' caps')
        else k s' caps')
  end.

End DigitsLoop.

End Mentions.

(** ** Package discord: the emoji and timestamp mentions, [UserTag], and
    the patterns with character classes and bounded repetition *)
Module Patterns.
Import Mentions.

(** One character of input, as the patterns of the package test it. *)
Inductive atom :=
| ALit (c : ascii)                (* a literal character *)
| ADigit                          (* \d *)
| AWord                           (* \w: a digit, an ASCII letter or _ *)
| AOneOf (cs : list ascii).       (* [...] of single characters *)

Definition is_upper (c : ascii) : bool := (65 <=? N_of_ascii c)%N && (N_of_ascii c <=? 90)%N.
Definition is_lower (c : ascii) : bool := (97 <=? N_of_ascii c)%N && (N_of_ascii c <=? 122)%N.
Definition is_word (c : ascii) : bool :=
  is_digit c || is_upper c || is_lower c || Ascii.eqb c "_".

Definition atom_matches (a : atom) (c : ascii) : bool :=
  match a with
  | ALit c' => Ascii.eqb c' c
  | ADigit => is_digit c
  | AWord => is_word c
  | AOneOf cs => existsb (Ascii.eqb c) cs
  end.

Inductive pattern :=
| PAtom (a : atom)
| PSeq (p1 p2 : pattern)               (* p1 p2 *)
| POpt (p : pattern)                   (* p?, also (?:p)? *)
| PPlus (p : pattern)                  (* p+ *)
| PRepeat (lo hi : nat) (p : pattern)  (* p{lo,hi}, preferring more *)
| PGroup (n : nat) (p : pattern).      (* the n-th capturing group, named or not *)

Section Matcher.
Context {A : Type}.

(** As [Mentions.match_at], with the two further forms. *)
Fixpoint pmatch (p : pattern) (s : string) (caps : list (option string))
    (k : string -> list (option string) -> option A) {struct p} : option A :=
  match p with
  | PAtom a =>
      match s with
      | String c s' => if atom_matches a c then k s' caps else None
      | EmptyString => None
      end
  | PSeq p1 p2 => pmatch p1 s caps (fun s' caps' => pmatch p2 s' caps' k)
  | POpt p1 => or_else (pmatch p1 s caps k) (k s caps)
  | PPlus p1 =>
      (fix loop (fuel : nat) (s : string) (caps : list (option string)) : option A :=
         match fuel with
         | O => None
         | S fuel =>
             pmatch p1 s caps (fun s' caps' =>
               if (String.length s' <? String.length s)%nat
               then or_else (loop fuel s' caps') (k s' caps')
               else k s' caps')
         end) (S (String.length s)) s caps
  | PRepeat lo hi p1 =>
      (fix rep (hi lo : nat) (s : string) (caps : list (option string)) : option A :=
         match hi with
         | O => match lo with O => k s caps | S _ => None end
         | S hi =>
             or_else (pmatch p1 s caps (fun s' caps' => rep hi (Nat.pred lo) s' caps'))
                     (match lo with O => k s caps | S _ => None end)
         end) hi lo s caps
  | PGroup n p1 =>
      pmatch p1 s caps (fun s' caps' => k s' (<[n := Some (consumed s s')]> caps'))
  end.

End Matcher.

Record MentionPattern := {
  Pattern : pattern;
  Groups : nat
}.

Definition pmatch_prefix (m : MentionPattern) (s : string) : option (list string) :=
  pmatch (Pattern m) s (replicate (S (Groups m)) None)
    (fun s' caps => Some (consumed s s' :: (group_text <$> drop 1 caps))).

(** [FindStringSubmatch]: the leftmost match, [None] for Go's nil. *)
Fixpoint FindStringSubmatch (m : MentionPattern) (s : string) : option (list string) :=
  match pmatch_prefix m s with
  | Some r => Some r
  | None =>
      match s with
      | String _ s' => FindStringSubmatch m s'
      | EmptyString => None
      end
  end.

Definition MatchString (m : MentionPattern) (s : string) : bool :=
  match FindStringSubmatch m s with
  | Some _ => true
  | None => false
  end.

Definition lit (c : ascii) : pattern := PAtom (ALit c).

(** A literal word, character by character; the empty word is not used. *)
Fixpoint lits (c : ascii) (s : string) : pattern :=
  match s with
  | EmptyString => lit c
  | String c' s' => PSeq (lit c) (lits c' s')
  end.

(** [<a?:(\w+):(\d+)>] *)
Definition MentionTypeEmoji : MentionPattern :=
  {| Pattern := PSeq (lit "<") (PSeq (POpt (lit "a")) (PSeq (lit ":")
                  (PSeq (PGroup 1 (PPlus (PAtom AWord))) (PSeq (lit ":")
                  (PSeq (PGroup 2 (PPlus (PAtom ADigit))) (lit ">"))))));
     Groups := 2 |}.

(** [<t:(?P<time>-?\d{1,17})(?::(?P<format>[tTdDfFR]))?>] *)
Definition MentionTypeTimestamp : MentionPattern :=
  {| Pattern := PSeq (lit "<") (PSeq (lit "t") (PSeq (lit ":")
                  (PSeq (PGroup 1 (PSeq (POpt (lit "-")) (PRepeat 1 17 (PAtom ADigit))))
                  (PSeq (POpt (PSeq (lit ":")
                                 (PGroup 2 (PAtom (AOneOf ["t"; "T"; "d"; "D"; "f"; "F"; "R"]%char)))))
                        (lit ">")))));
     Groups := 2 |}.

(** [@here] *)
Definition MentionTypeHere : MentionPattern :=
  {| Pattern := lits "@" "here"; Groups := 0 |}.

(** [@everyone] *)
Definition MentionTypeEveryone : MentionPattern :=
  {| Pattern := lits "@" "everyone"; Groups := 0 |}.

(** [%d] of an [int64]: a minus sign for a negative number, then the digits
    of its magnitude. *)
Definition Itoa (z : Z) : string := NilZero.string_of_int (Z.to_int z).

Definition UserTag (username discriminator : string) : string :=
  String.append username (String.append "#" discriminator).

Definition EmojiMention (id : ID) (name : string) : string :=
  String.append "<:" (String.append name (String.append ":" (String.append (ID_String id) ">"))).

Definition AnimatedEmojiMention (id : ID) (name : string) : string :=
  String.append "<a:" (String.append name (String.append ":" (String.append (ID_String id) ">"))).

Definition TimestampMention (timestamp : Z) : string :=
  String.append "<t:" (String.append (Itoa timestamp) ">").

(** [type TimestampStyle string], printed by [%s] as it is. *)
Definition FormattedTimestampMention (timestamp : Z) (style : string) : string :=
  String.append "<t:" (String.append (Itoa timestamp)
    (String.append ":" (String.append style ">"))).

(** *** Vocabulary for the proofs *)

Fixpoint all_atoms (a : atom) (s : string) : bool :=
  match s with
  | EmptyString => true
  | String c s' => atom_matches a c && all_atoms a s'
  end.

(** [s] is empty or starts with a character that [a] refuses. *)
Definition no_atom_ahead (a : atom) (s : string) : bool :=
  match s with
  | EmptyString => true
  | String c _ => negb (atom_matches a c)
  end.

(** [c] does not occur in [s]. *)
Fixpoint lacks (c : ascii) (s : string) : bool :=
  match s with
  | EmptyString => true
  | String c' s' => negb (Ascii.eqb c c') && lacks c s'
  end.

Section Loops.
Context {A : Type} (a : atom) (k : string -> list (option string) -> option A).

(** The loop that [pmatch] runs for [a+], by name. *)
Fixpoint plus_loop (fuel : nat) (s : string) (caps : list (option string)) : option A :=
  match fuel with
  | O => None
  | S fuel =>
      pmatch (PAtom a) s caps (fun s' caps' =>
        if (String.length s' <? String.length s)%nat
        then or_else (plus_loop fuel s' caps') (k s' caps')
        else k s' caps')
  end.

(** The loop that [pmatch] runs for [a{lo,hi}], by name. *)
Fixpoint repeat_loop (hi lo : nat) (s : string) (caps : list (option string)) : option A :=
  match hi with
  | O => match lo with O => k s caps | S _ => None end
  | S hi =>
      or_else (pmatch (PAtom a) s caps (fun s' caps' => repeat_loop hi (Nat.pred lo) s' caps'))
              (match lo with O => k s caps | S _ => None end)
  end.

End Loops.

(** [k] fails on every input that starts with a character [a] accepts. *)
Definition refuses {A : Type} (a : atom)
    (k : string -> list (option string) -> option A) : Prop :=
  forall c s caps, atom_matches a c = true -> k (String c s) caps = None.

(** The two halves of the timestamp pattern: the time, and what follows it
    (an optional style and the closing bracket). *)
Definition timestamp_time : pattern :=
  PGroup 1 (PSeq (POpt (lit "-")) (PRepeat 1 17 (PAtom ADigit))).

Definition timestamp_rest : pattern :=
  PSeq (POpt (PSeq (lit ":")
                (PGroup 2 (PAtom (AOneOf ["t"; "T"; "d"; "D"; "f"; "F"; "R"]%char)))))
       (lit ">").

(** The patterns of the first three mention types, in this syntax. *)
Fixpoint of_regex (r : regex) : pattern :=
  match r with
  | Lit c => PAtom (ALit c)
  | Digit => PAtom ADigit
  | Seq r1 r2 => PSeq (of_regex r1) (of_regex r2)
  | Opt r1 => POpt (of_regex r1)
  | Plus r1 => PPlus (of_regex r1)
  | Group n r1 => PGroup n (of_regex r1)
  end.

End Patterns.

(** ** Package voice: the connection configuration (src/unnamed/part_000) *)
Module Voice.

Section Config.
(** Types of other packages: [log.Logger], [GatewayCreateFunc],
    [GatewayConfigOpt], [UDPConnCreateFunc], [UDPConnConfigOpt]. *)
Context {log_Logger GatewayCreateFunc_type GatewayConfigOpt UDPConnCreateFunc_type
         UDPConnConfigOpt : Type}.

Record ConnectionConfig := {
  Logger : log_Logger;
  GatewayCreateFunc : GatewayCreateFunc_type;
  GatewayConfigOpts : list GatewayConfigOpt;
  UDPConnCreateFunc : UDPConnCreateFunc_type;
  UDPConnConfigOpts : list UDPConnConfigOpt
}.

(** [DefaultConnectionConfig], given what [log.Default()], [NewGateway] and
    [NewUDPConn] are; the two slices are left nil. *)
Definition DefaultConnectionConfig (log_Default : log_Logger)
    (NewGateway : GatewayCreateFunc_type) (NewUDPConn : UDPConnCreateFunc_type)
    : ConnectionConfig :=
  {| Logger := log_Default;
     GatewayCreateFunc := NewGateway;
     GatewayConfigOpts := [];
     UDPConnCreateFunc := NewUDPConn;
     UDPConnConfigOpts := [] |}.

(** [type ConnectionConfigOpt func(ConnectionConfig *ConnectionConfig)]: a
    function that writes to the configuration it is given. *)
Definition ConnectionConfigOpt : Type := ConnectionConfig -> ConnectionConfig.

(** [Apply]: the options in order, each on what the ones before left. *)
Definition Apply (c : ConnectionConfig) (opts : list ConnectionConfigOpt)
    : ConnectionConfig :=
  foldl (fun c opt => opt c) c opts.

Definition WithConnectionLogger (logger : log_Logger) : ConnectionConfigOpt :=
  fun c =>
    {| Logger := logger;
       GatewayCreateFunc := GatewayCreateFunc c;
       GatewayConfigOpts := GatewayConfigOpts c;
       UDPConnCreateFunc := UDPConnCreateFunc c;
       UDPConnConfigOpts := UDPConnConfigOpts c |}.

End Config.

Global Arguments ConnectionConfig : clear implicits.
Global Arguments ConnectionConfigOpt : clear implicits.
End Voice.

(** ** The operations the two packages share, as a small command language *)
Module Ops.
Import Go.

Section Ops.
Context {K : Type} `{Countable K} {T : Type} `{!Zero T} `{!RangeOrder K}.

Inductive op :=
| OpGet (groupID id : K)
| OpPut (groupID id : K) (entity : T)
| OpRemove (groupID id : K)
| OpRemoveAll (groupID : K)
| OpAll
| OpGroupAll (groupID : K)
| OpFindFirst (f : K -> T -> bool)
| OpGroupFindFirst (groupID : K) (f : K -> T -> bool)
| OpFindAll (f : K -> T -> bool)
| OpGroupFindAll (groupID : K) (f : K -> T -> bool).

(** What a call hands back: nothing, an entity with its found flag, or a
    map or slice. *)
Inductive result :=
| RDone
| RFound (r : T * bool)
| RValue (v : value).

Definition cache_step (s : Cache.state K T) (o : op) : result * Cache.state K T :=
  match o with
  | OpGet g id => (RFound (Cache.Get s g id), s)
  | OpPut g id e => (RDone, Cache.Put s g id e)
  | OpRemove g id => let '(r, s) := Cache.Remove s g id in (RFound r, s)
  | OpRemoveAll g => (RDone, Cache.RemoveAll s g)
  | OpAll => let '(v, s) := Cache.All s in (RValue v, s)
  | OpGroupAll g => let '(v, s) := Cache.GroupAll s g in (RValue v, s)
  | OpFindFirst f => (RFound (Cache.FindFirst s f), s)
  | OpGroupFindFirst g f => (RFound (Cache.GroupFindFirst s g f), s)
  | OpFindAll f => let '(v, s) := Cache.FindAll s f in (RValue v, s)
  | OpGroupFindAll g f => let '(v, s) := Cache.GroupFindAll s g f in (RValue v, s)
  end.

Definition core_step (s : Core.state K T) (o : op) : result * Core.state K T :=
  match o with
  | OpGet g id => (RFound (Core.Get s g id), s)
  | OpPut g id e => (RDone, Core.Put s g id e)
  | OpRemove g id => let '(r, s) := Core.Remove s g id in (RFound r, s)
  | OpRemoveAll g => (RDone, Core.RemoveAll s g)
  | OpAll => let '(v, s) := Core.All s in (RValue v, s)
  | OpGroupAll g => let '(v, s) := Core.GroupAll s g in (RValue v, s)
  | OpFindFirst f => (RFound (Core.FindFirst s f), s)
  | OpGroupFindFirst g f => (RFound (Core.GroupFindFirst s g f), s)
  | OpFindAll f => let '(v, s) := Core.FindAll s f in (RValue v, s)
  | OpGroupFindAll g f => let '(v, s) := Core.GroupFindAll s g f in (RValue v, s)
  end.

(** Run a sequence of calls, collecting what each hands back. *)
Fixpoint run {S : Type} (step : S -> op -> result * S) (s : S) (os : list op)
    : list result * S :=
  match os with
  | [] => ([], s)
  | o :: os =>
      let '(r, s) := step s o in
      let '(rs, s) := run step s os in
      (r :: rs, s)
  end.

(** The receiver of package cache, read as a receiver of package core. *)
Definition to_core (c : Cache.DefaultGroupedCache T) : Core.DefaultGroupedCache T :=
  {| Core.flags := Cache.flags c;
     Core.neededFlags := Cache.neededFlags c;
     Core.policy := Cache.policy c;
     Core.cache := Cache.cache c |}.

Definition of_core (c : Core.DefaultGroupedCache T) : Cache.DefaultGroupedCache T :=
  {| Cache.flags := Core.flags c;
     Cache.neededFlags := Core.neededFlags c;
     Cache.policy := Core.policy c;
     Cache.cache := Core.cache c |}.

Definition to_core_state (s : Cache.state K T) : Core.state K T := (to_core s.1, s.2).
Definition of_core_state (s : Core.state K T) : Cache.state K T := (of_core s.1, s.2).

End Ops.

Global Arguments op K T : clear implicits.
End Ops.

(** ** Representation invariant and admission, as predicates *)
Module Inv.
Import Go.

Section Inv.
Context {K : Type} `{Countable K} {T : Type}.

(** What the methods keep true of the maps of a cache: the references it
    holds are allocated, and no two groups share one entity map. *)
Definition wf_maps (h : heap K T) (m : option positive) : Prop :=
  forall r, m = Some r ->
    (r < next h)%positive /\
    (forall g r', groups_at h r !! g = Some r' -> (r' < next h)%positive) /\
    (forall g1 g2 r', groups_at h r !! g1 = Some r' ->
                      groups_at h r !! g2 = Some r' -> g1 = g2).

Definition wf (s : Cache.state K T) : Prop := wf_maps s.2 (Cache.cache s.1).

Definition core_wf (s : Core.state K T) : Prop := wf_maps s.2 (Core.cache s.1).

(** [Put] is turned away: a needed flag is missing, or there is a policy and
    it says no. *)
Definition rejected (c : Cache.DefaultGroupedCache T) (entity : T) : Prop :=
  Cache.Missing (Cache.flags c) (Cache.neededFlags c) = true \/
  exists p, Cache.policy c = Some p /\ p entity = false.

(** The needed flags are enabled and the policy, if any, says yes. *)
Definition accepted (c : Cache.DefaultGroupedCache T) (entity : T) : Prop :=
  Cache.Missing (Cache.flags c) (Cache.neededFlags c) = false /\
  forall p, Cache.policy c = Some p -> p entity = true.

Definition core_rejected (c : Core.DefaultGroupedCache T) (entity : T) : Prop :=
  Core.Missing (Core.flags c) (Core.neededFlags c) = true \/
  exists p, Core.policy c = Some p /\ p entity = false.

Definition core_accepted (c : Core.DefaultGroupedCache T) (entity : T) : Prop :=
  Core.Missing (Core.flags c) (Core.neededFlags c) = false /\
  forall p, Core.policy c = Some p -> p entity = true.

(** The entity stored under (group, id), read through the maps of the
    cache. *)
Definition stored_in (h : heap K T) (m : option positive) (g id : K) : option T :=
  match index_group h m g with
  | Some b => entities_at h b !! id
  | None => None
  end.

Definition stored (s : Cache.state K T) : K -> K -> option T :=
  stored_in s.2 (Cache.cache s.1).

Definition core_stored (s : Core.state K T) : K -> K -> option T :=
  stored_in s.2 (Core.cache s.1).

(** [h'] has every map object that [h] had below its allocation mark, with
    the same contents: whatever led from [h] to [h'] wrote into objects
    allocated later, or into slices. *)
Definition extends (h h' : heap K T) : Prop :=
  (next h <= next h')%positive /\
  (forall r, (r < next h)%positive -> group_maps h' !! r = group_maps h !! r) /\
  (forall r, (r < next h)%positive -> entity_maps h' !! r = entity_maps h !! r).

(** An object that was not a map of [h]: a slice, a map of slices, or a map
    allocated at or after the allocation mark of [h]. *)
Definition outside (h : heap K T) (t : kind * positive) : Prop :=
  match t.1 with
  | KGroupMap | KEntityMap => (next h <= t.2)%positive
  | KSliceMap | KSlice => True
  end.

(** An accessor result [(v, h')] computed from the store [h] is a copy when
    it left the maps of [h] alone and everything a caller reaches through
    [v] lies outside [h]. *)
Definition is_copy (h : heap K T) (v : value) (h' : heap K T) : Prop :=
  extends h h' /\ Forall (outside h) (reach h' v).

(** What the inner loop of [RemoveIf] does to the entity map of a group:
    it walks the listed entries and deletes those the filter picks. *)
Definition sweep (f : T -> bool) (l : list (K * T)) (m : gmap K T) : gmap K T :=
  foldl (fun m '(id, entity) => if f entity then delete id m else m) m l.

(** [delete]s composed on one entity map. *)
Definition entity_alter (h : heap K T) (b : positive) (F : gmap K T -> gmap K T) : heap K T :=
  Heap (group_maps h) (alter F b (entity_maps h)) (slice_maps h) (slices h) (next h).

(** An entry survives a sweep when the filter does not pick it. *)
Definition keep (f : T -> bool) (o : option T) : option T :=
  match o with
  | Some entity => if f entity then None else Some entity
  | None => None
  end.

(** An accessor hands back a copy when no write through what it returned
    changes what [Get] finds afterwards. *)
Definition cache_copy `{!Zero T}
    (acc : Cache.state K T -> value * Cache.state K T) : Prop :=
  forall s ms g id,
    wf s -> mutates_only (reach (acc s).2.2 (acc s).1) ms ->
    Cache.Get ((acc s).2.1, mutate (acc s).2.2 ms) g id = Cache.Get s g id.

Definition core_copy `{!Zero T}
    (acc : Core.state K T -> value * Core.state K T) : Prop :=
  forall s ms g id,
    core_wf s -> mutates_only (reach (acc s).2.2 (acc s).1) ms ->
    Core.Get ((acc s).2.1, mutate (acc s).2.2 ms) g id = Core.Get s g id.

(** The states of a cache of package cache that its constructor and its
    methods produce. *)
Inductive reachable `{!Zero T} `{!RangeOrder K} : Cache.state K T -> Prop :=
| reachable_New fl needed p h : reachable (Cache.NewGroupedCache fl needed p h)
| reachable_Put s g id e : reachable s -> reachable (Cache.Put s g id e)
| reachable_Remove s g id : reachable s -> reachable (Cache.Remove s g id).2
| reachable_RemoveAll s g : reachable s -> reachable (Cache.RemoveAll s g)
| reachable_RemoveIf s f : reachable s -> reachable (Cache.RemoveIf s f)
| reachable_All s : reachable s -> reachable (Cache.All s).2
| reachable_GroupAll s g : reachable s -> reachable (Cache.GroupAll s g).2
| reachable_MapAll s : reachable s -> reachable (Cache.MapAll s).2
| reachable_MapGroupAll s g : reachable s -> reachable (Cache.MapGroupAll s g).2
| reachable_FindAll s f : reachable s -> reachable (Cache.FindAll s f).2
| reachable_GroupFindAll s g f : reachable s -> reachable (Cache.GroupFindAll s g f).2.

End Inv.
End Inv.

(** ** Small caches to run the methods on *)
Module Examples.
Import Go.

#[global] Instance Z_zero : Zero Z := 0%Z.

(** Flag 1 needed and not enabled. *)
Definition cache_off : Cache.state Z Z :=
  Cache.NewGroupedCache 0 1 None empty_heap.

(** Flag 1 needed and enabled; the policy accepts positive entities. *)
Definition cache_on : Cache.state Z Z :=
  Cache.NewGroupedCache 1 1 (Some (fun e => (0 <? e)%Z)) empty_heap.

(** Two groups: 100 under (1, 10), 200 under (2, 20). *)
Definition cache_two : Cache.state Z Z :=
  Cache.Put (Cache.Put cache_on 1%Z 10%Z 100%Z) 2%Z 20%Z 200%Z.

Definition core_off : Core.state Z Z :=
  Core.NewGroupedCache 0 1 None empty_heap.

Definition core_on : Core.state Z Z :=
  Core.NewGroupedCache 1 1 (Some (fun e => (0 <? e)%Z)) empty_heap.

Definition core_two : Core.state Z Z :=
  Core.Put (Core.Put core_on 1%Z 10%Z 100%Z) 2%Z 20%Z 200%Z.

End Examples.

(** ** Reading what the enumerations return *)
Module Enum.
Import Go.

Section Enum.
Context {K : Type} `{Countable K} {T : Type}.

(** The entities of a map, in the order of the model's enumeration. *)
Definition values (m : gmap K T) : list T := (map_to_list m).*2.

(** What a cache holds: for each group with a bucket, its entity map. *)
Definition contents_in (h : heap K T) (m : option positive) : gmap K (gmap K T) :=
  match m with
  | Some r => entities_at h <$> groups_at h r
  | None => ∅
  end.

Definition contents (s : Cache.state K T) : gmap K (gmap K T) :=
  contents_in s.2 (Cache.cache s.1).

Definition core_contents (s : Core.state K T) : gmap K (gmap K T) :=
  contents_in s.2 (Core.cache s.1).

(** A returned [[]T]: its elements, or [None] for nil. *)
Definition read_slice (h : heap K T) (v : value) : option (list T) :=
  match v with
  | VSlice r => Some (slice_at h r)
  | _ => None
  end.

(** A returned [map[ID]T]: its entries, or [None] for nil. *)
Definition read_entity_map (h : heap K T) (v : value) : option (gmap K T) :=
  match v with
  | VEntityMap r => Some (entities_at h r)
  | _ => None
  end.

(** A returned [map[ID][]T], read through to the slices. *)
Definition read_slice_map (h : heap K T) (v : value) : option (gmap K (list T)) :=
  match v with
  | VSliceMap r => Some (slice_at h <$> slice_map_at h r)
  | _ => None
  end.

(** A returned [map[ID]map[ID]T], read through to the entity maps. *)
Definition read_group_map (h : heap K T) (v : value) : option (gmap K (gmap K T)) :=
  match v with
  | VGroupMap r => Some (entities_at h <$> groups_at h r)
  | _ => None
  end.

(** [h'] differs from [h] in the slice at [sl] at most. *)
Definition slice_frame (sl : positive) (h h' : heap K T) : Prop :=
  group_maps h' = group_maps h /\
  entity_maps h' = entity_maps h /\
  slice_maps h' = slice_maps h /\
  next h' = next h /\
  forall sl', sl' <> sl -> slices h' !! sl' = slices h !! sl'.

(** The callback that notes every call it gets. *)
Definition note_group (g : K) (e : T) (seen : list (K * T)) : list (K * T) :=
  seen ++ [(g, e)].

Definition note (e : T) (seen : list T) : list T := seen ++ [e].

(** The (group, entity) pairs of a cache, one per stored id. *)
Definition entries_in (h : heap K T) (m : option positive) : list (K * T) :=
  '(g, b) ← map_to_list (contents_in h m); (fun e => (g, e)) <$> values b.

(** The same pairs in the order in which the loops of the cache meet
    them. *)
Definition visits `{!RangeOrder K} (h : heap K T) (m : option positive) : list (K * T) :=
  '(g, b) ← range_groups h m; (fun x => (g, x.2)) <$> range (entities_at h b).

(** The methods on what a cache holds. *)
Definition put_contents (g id : K) (e : T) (m : gmap K (gmap K T)) : gmap K (gmap K T) :=
  <[g := <[id := e]> (default ∅ (m !! g))]> m.

Definition remove_contents (g id : K) (m : gmap K (gmap K T)) : gmap K (gmap K T) :=
  alter (delete id) g m.

Definition sweep_contents (p : K -> T -> bool) (m : gmap K (gmap K T))
    : gmap K (gmap K T) :=
  map_imap (fun g b => Some (filter (fun kv => p g kv.2 = false) b)) m.

(** The settings of a cache, which no method writes. *)
Definition config (c : Cache.DefaultGroupedCache T) : Z * Z * option (T -> bool) :=
  (Cache.flags c, Cache.neededFlags c, Cache.policy c).

(** One round of the loop of [MapAll]: a fresh map for the group, filled
    from the group's bucket. *)
Definition MapAll_round `{!RangeOrder K} (all : positive) (h : heap K T)
    (gb : K * positive) : heap K T :=
  let '(groupID, groupEntities) := gb in
  let '(m, h) := make_entity_map h in
  let h := group_store h all groupID m in
  foldl (fun h '(entityID, entity) => entity_store h m entityID entity)
        h (range (entities_at h groupEntities)).

(** One round of the loop of [All]: a fresh slice for the group, filled
    from the group's bucket. *)
Definition All_round `{!RangeOrder K} (all : positive) (h : heap K T)
    (gb : K * positive) : heap K T :=
  let '(groupID, groupEntities) := gb in
  let '(sl, h) := make_slice h in
  let h := slice_map_store h all groupID sl in
  foldl (fun h '(_, entity) => slice_append h sl entity)
        h (range (entities_at h groupEntities)).

End Enum.
End Enum.

(** ** What a caller sees, whatever order the maps are ranged over *)
Module Order.
Import Go Ops Enum.

(** A second admissible order of enumeration: the model's order, backwards. *)
Definition reverse_order {K : Type} `{Countable K} : RangeOrder K :=
  {| range := fun V m => reverse (map_to_list m);
     range_perm := fun V m => reverse_Permutation (map_to_list m) |}.

Section Seen.
Context {K : Type} `{Countable K} {T : Type} `{!Zero T}.

(** A result as a caller sees it: a returned map or slice read through. *)
Inductive seen :=
| SDone
| SFound (r : T * bool)
| SNil
| SSlice (l : list T)
| SSliceMap (M : gmap K (list T))
| SEntityMap (m : gmap K T)
| SGroupMap (M : gmap K (gmap K T)).

Definition see (h : heap K T) (r : result) : seen :=
  match r with
  | RDone => SDone
  | RFound x => SFound x
  | RValue VNil => SNil
  | RValue (VSlice r) => SSlice (slice_at h r)
  | RValue (VSliceMap r) => SSliceMap (slice_at h <$> slice_map_at h r)
  | RValue (VEntityMap r) => SEntityMap (entities_at h r)
  | RValue (VGroupMap r) => SGroupMap (entities_at h <$> groups_at h r)
  end.

(** Run a sequence of calls, reading each result when it is returned. *)
Fixpoint run_seen {S : Type} (step : S -> op K T -> result * S) (store : S -> heap K T)
    (s : S) (os : list (op K T)) : list seen * S :=
  match os with
  | [] => ([], s)
  | o :: os =>
      let '(r, s) := step s o in
      let '(xs, s') := run_seen step store s os in
      (see (store s) r :: xs, s')
  end.

(** The entity held under (group, id). *)
Definition held (m : gmap K (gmap K T)) (g id : K) : option T := m !! g ≫= (.!! id).

(** The (group, entity) pairs held, one per id. *)
Definition entries (m : gmap K (gmap K T)) : list (K * T) :=
  '(g, b) ← map_to_list m; (fun e => (g, e)) <$> values b.

(** The entities of one group, none for a group without a bucket. *)
Definition group_values (m : gmap K (gmap K T)) (g : K) : list T :=
  match m !! g with
  | Some b => values b
  | None => []
  end.

(** What two runs of one call on caches that hold the same may differ in:
    nothing for the calls that range over no map; the order of the elements
    of a slice; and which of the matching entities a find returns. *)
Definition same_up_to_order (o : op K T) (x y : seen) : Prop :=
  match o with
  | OpGet _ _ | OpPut _ _ _ | OpRemove _ _ | OpRemoveAll _ => x = y
  | OpAll =>
      exists Mx My, x = SSliceMap Mx /\ y = SSliceMap My /\
        forall g, option_Forall2 Permutation (Mx !! g) (My !! g)
  | OpGroupAll _ =>
      (x = SNil /\ y = SNil) \/
      exists lx ly, x = SSlice lx /\ y = SSlice ly /\ lx ≡ₚ ly
  | OpFindAll _ | OpGroupFindAll _ _ =>
      exists lx ly, x = SSlice lx /\ y = SSlice ly /\ lx ≡ₚ ly
  | OpFindFirst f =>
      exists ex ey fnd, x = SFound (ex, fnd) /\ y = SFound (ey, fnd) /\
        (fnd = false -> ex = ey) /\
        (fnd = true -> (exists g, f g ex = true) /\ (exists g, f g ey = true))
  | OpGroupFindFirst g f =>
      exists ex ey fnd, x = SFound (ex, fnd) /\ y = SFound (ey, fnd) /\
        (fnd = false -> ex = ey) /\
        (fnd = true -> f g ex = true /\ f g ey = true)
  end.

(** What a call shows of a cache that holds [m], in any order. *)
Definition shows (o : op K T) (m : gmap K (gmap K T)) (x : seen) : Prop :=
  match o with
  | OpGet g id | OpRemove g id => x = SFound (Cache.found (held m g id))
  | OpPut _ _ _ | OpRemoveAll _ => x = SDone
  | OpAll =>
      exists M, x = SSliceMap M /\
        forall g, match m !! g with
                  | Some b => exists l, M !! g = Some l /\ l ≡ₚ values b
                  | None => M !! g = None
                  end
  | OpGroupAll g =>
      match m !! g with
      | Some b => exists l, x = SSlice l /\ l ≡ₚ values b
      | None => x = SNil
      end
  | OpFindAll f =>
      exists l, x = SSlice l /\ l ≡ₚ (filter (fun ge => f ge.1 ge.2) (entries m)).*2
  | OpGroupFindAll g f =>
      exists l, x = SSlice l /\ l ≡ₚ filter (fun e => f g e) (group_values m g)
  | OpFindFirst f =>
      exists e fnd, x = SFound (e, fnd) /\
        (fnd = true -> exists g id, held m g id = Some e /\ f g e = true) /\
        (fnd = false -> e = zero /\ forall g id e', held m g id = Some e' -> f g e' = false)
  | OpGroupFindFirst g f =>
      exists e fnd, x = SFound (e, fnd) /\
        (fnd = true -> exists id, held m g id = Some e /\ f g e = true) /\
        (fnd = false -> e = zero /\ forall id e', held m g id = Some e' -> f g e' = false)
  end.

(** What a cache holds after a call, from what it held and its settings. *)
Definition holds_after (c : Cache.DefaultGroupedCache T) (o : op K T)
    (m : gmap K (gmap K T)) : gmap K (gmap K T) :=
  match o with
  | OpPut g id e =>
      if Cache.flags_reject c || Cache.policy_rejects c e then m else put_contents g id e m
  | OpRemove g id => remove_contents g id m
  | OpRemoveAll g => delete g m
  | _ => m
  end.

End Seen.

Global Arguments seen K {_ _} T.
End Order.

(** ** Facts about the store *)
Module GoFacts.
Import Go.

#[global] Arguments groups_at : simpl never.
#[global] Arguments entities_at : simpl never.
#[global] Arguments make_group_map : simpl never.
#[global] Arguments make_entity_map : simpl never.
#[global] Arguments make_slice_map : simpl never.
#[global] Arguments make_slice : simpl never.
#[global] Arguments group_store : simpl never.
#[global] Arguments group_delete : simpl never.
#[global] Arguments entity_store : simpl never.
#[global] Arguments entity_delete : simpl never.
#[global] Arguments slice_map_store : simpl never.
#[global] Arguments slice_map_delete : simpl never.
#[global] Arguments slice_append : simpl never.
#[global] Arguments slice_set : simpl never.

Section Facts.
Context {K : Type} `{Countable K} {T : Type}.
Implicit Types (h : heap K T) (m r : positive) (k : K).

Lemma groups_at_entity_store h m k v r :
  groups_at (entity_store h m k v) r = groups_at h r.
Proof. reflexivity. Qed.

Lemma groups_at_entity_delete h m k r :
  groups_at (entity_delete h m k) r = groups_at h r.
Proof. reflexivity. Qed.

Lemma entities_at_group_store h m k v r :
  entities_at (group_store h m k v) r = entities_at h r.
Proof. reflexivity. Qed.

Lemma entities_at_group_delete h m k r :
  entities_at (group_delete h m k) r = entities_at h r.
Proof. reflexivity. Qed.

Lemma entities_at_entity_store h m k (v : T) r :
  entities_at (entity_store h m k v) r =
  if decide (m = r) then <[k := v]> (entities_at h m) else entities_at h r.
Proof.
  unfold entities_at at 1, entity_store; simpl.
  rewrite lookup_insert. by case_decide.
Qed.

Lemma entities_at_entity_delete h m k r :
  entities_at (entity_delete h m k) r =
  if decide (m = r) then delete k (entities_at h m) else entities_at h r.
Proof.
  unfold entities_at, entity_delete; simpl.
  rewrite lookup_alter. case_decide; subst; [|done].
  by destruct (entity_maps h !! r); simpl; rewrite ?delete_empty.
Qed.

Lemma groups_at_group_store h m k v r :
  groups_at (group_store h m k v) r =
  if decide (m = r) then <[k := v]> (groups_at h m) else groups_at h r.
Proof.
  unfold groups_at at 1, group_store; simpl.
  rewrite lookup_insert. by case_decide.
Qed.

Lemma groups_at_group_delete h m k r :
  groups_at (group_delete h m k) r =
  if decide (m = r) then delete k (groups_at h m) else groups_at h r.
Proof.
  unfold groups_at, group_delete; simpl.
  rewrite lookup_alter. case_decide; subst; [|done].
  by destruct (group_maps h !! r); simpl; rewrite ?delete_empty.
Qed.

Lemma groups_at_make_group_map h r :
  groups_at (make_group_map h).2 r =
  if decide (next h = r) then ∅ else groups_at h r.
Proof.
  unfold groups_at, make_group_map; simpl.
  rewrite lookup_insert. by case_decide.
Qed.

Lemma entities_at_make_group_map h r :
  entities_at (make_group_map h).2 r = entities_at h r.
Proof. reflexivity. Qed.

Lemma groups_at_make_entity_map h r :
  groups_at (make_entity_map h).2 r = groups_at h r.
Proof. reflexivity. Qed.

Lemma entities_at_make_entity_map h r :
  entities_at (make_entity_map h).2 r =
  if decide (next h = r) then ∅ else entities_at h r.
Proof.
  unfold entities_at, make_entity_map; simpl.
  rewrite lookup_insert. by case_decide.
Qed.

(** Deleting a key that is not there leaves the store as it is. *)
Lemma entity_delete_absent h m k :
  entities_at h m !! k = None -> entity_delete h m k = h.
Proof.
  intros Hk. destruct h as [gm em sm sl n]. unfold entity_delete, entities_at in *; simpl in *.
  f_equal. apply map_eq; intros r. rewrite lookup_alter. case_decide; subst; [|done].
  destruct (em !! r) as [b|] eqn:E; simpl in *; [|done].
  by rewrite delete_id.
Qed.

Lemma group_delete_absent h m k :
  groups_at h m !! k = None -> group_delete h m k = h.
Proof.
  intros Hk. destruct h as [gm em sm sl n]. unfold group_delete, groups_at in *; simpl in *.
  f_equal. apply map_eq; intros r. rewrite lookup_alter. case_decide; subst; [|done].
  destruct (gm !! r) as [b|] eqn:E; simpl in *; [|done].
  by rewrite delete_id.
Qed.

Lemma entity_store_twice h m k (v : T) :
  entity_store (entity_store h m k v) m k v = entity_store h m k v.
Proof.
  destruct h as [gm em sm sl n]. unfold entity_store, entities_at; simpl.
  rewrite lookup_insert_eq; simpl. by rewrite !insert_insert_eq.
Qed.

End Facts.
End GoFacts.

(** ** Package cache: [Get], [Put], [Remove], [RemoveAll] *)
Module CacheSpec.
Import Go GoFacts Inv Cache.

Section Spec.
Context {K : Type} `{Countable K} {T : Type} `{!Zero T} `{!RangeOrder K}.
Implicit Types (s : state K T) (c : DefaultGroupedCache T) (h : heap K T).
Implicit Types (g id : K) (e : T).

Lemma Missing_FlagsNone (f : Z) : Missing f FlagsNone = false.
Proof. unfold Missing, FlagsNone. by rewrite Z.land_0_r. Qed.

(** With [Missing] a test on bits, the guard [neededFlags != FlagsNone] of
    [Put] changes nothing. *)
Lemma flags_reject_Missing c :
  flags_reject c = Missing (flags c) (neededFlags c).
Proof.
  unfold flags_reject. destruct (Z.eqb_spec (neededFlags c) FlagsNone) as [->|]; simpl; [|done].
  by rewrite Missing_FlagsNone.
Qed.

Lemma rejected_Put s g id e : rejected s.1 e -> Put s g id e = s.
Proof.
  destruct s as [c h]. intros [Hm | (p & Hp & Hpe)]; unfold Put; simpl in *.
  - by rewrite flags_reject_Missing, Hm.
  - destruct (flags_reject c); [done|]. unfold policy_rejects. by rewrite Hp, Hpe.
Qed.

Lemma accepted_guards c e :
  accepted c e -> flags_reject c = false /\ policy_rejects c e = false.
Proof.
  intros [Hm Hp]. split; [by rewrite flags_reject_Missing|].
  unfold policy_rejects. destruct (policy c) as [p|]; [|done]. by rewrite Hp.
Qed.

(** [Get] reads the entity map that the group is bound to. *)
Lemma Get_lookup c h g id :
  Get (c, h) g id =
  found (match index_group h (cache c) g with
         | Some b => entities_at h b !! id
         | None => None
         end).
Proof.
  unfold Get, found. destruct (index_group h (cache c) g); [|done].
  by destruct (entities_at _ _ !! id).
Qed.

(** [Put], with its allocations spelled out. *)
Lemma Put_unfold c h g id e :
  Put (c, h) g id e =
  if flags_reject c then (c, h)
  else if policy_rejects c e then (c, h)
  else match cache c with
       | Some r =>
           match groups_at h r !! g with
           | Some b => (c, entity_store h b id e)
           | None =>
               (c, group_store (entity_store (make_entity_map h).2 (next h) id e) r g (next h))
           end
       | None =>
           (set_cache c (Some (next h)),
            group_store
              (entity_store (make_entity_map (make_group_map h).2).2 (Pos.succ (next h)) id e)
              (next h) g (Pos.succ (next h)))
       end.
Proof.
  unfold Put. destruct (flags_reject c); [done|]. destruct (policy_rejects c e); [done|].
  destruct (cache c) as [r|].
  - by destruct (groups_at h r !! g).
  - pose proof (groups_at_make_group_map h (next h)) as E.
    rewrite decide_True in E by done.
    unfold make_group_map at 1. cbv beta iota.
    change (Heap _ _ _ _ _) with (make_group_map h).2 at 1.
    by rewrite E, lookup_empty.
Qed.

Ltac heap_unfold :=
  unfold index_group, index_entity, make_group_map, make_entity_map,
    group_store, group_delete, entity_store, entity_delete, groups_at, entities_at in *;
  simpl in *.

Lemma Put_Get s g id e : accepted s.1 e -> Get (Put s g id e) g id = (e, true).
Proof.
  destruct s as [c h]. intros [Hf Hp]%accepted_guards. cbn [fst] in Hf, Hp.
  rewrite Put_unfold, Hf, Hp.
  destruct (cache c) as [r|] eqn:Hc; [destruct (groups_at h r !! g) as [b|] eqn:Hg|];
    rewrite Get_lookup; heap_unfold; by simplify_map_eq.
Qed.

(** After an accepted [Put] the group has a bucket. *)
Lemma Put_bucket s g id e :
  accepted s.1 e ->
  is_Some (index_group (Put s g id e).2 (cache (Put s g id e).1) g).
Proof.
  destruct s as [c h]. intros [Hf Hp]%accepted_guards. cbn [fst] in Hf, Hp.
  rewrite Put_unfold, Hf, Hp.
  destruct (cache c) as [r|] eqn:Hc; [destruct (groups_at h r !! g) as [b|] eqn:Hg|];
    heap_unfold; simplify_map_eq; eauto.
Qed.

(** A [Put] into a well-formed cache touches no other key. *)
Lemma Put_Get_other s g id e g' id' :
  wf s -> (g', id') <> (g, id) ->
  Get (Put s g id e) g' id' = Get s g' id'.
Proof.
  destruct s as [c h]. unfold wf, wf_maps; cbn [fst snd]. intros Hwf Hne.
  rewrite Put_unfold.
  destruct (flags_reject c); [done|]. destruct (policy_rejects c e); [done|].
  destruct (cache c) as [r|] eqn:Hc.
  - destruct (Hwf r eq_refl) as (Hr & Halloc & Hinj).
    destruct (groups_at h r !! g) as [b|] eqn:Hg;
      rewrite !Get_lookup; cbn [cache set_cache]; rewrite Hc; cbn [index_group].
    + rewrite groups_at_entity_store.
      destruct (groups_at h r !! g') as [b'|] eqn:Hg'; [|done].
      rewrite entities_at_entity_store. case_decide as Hb; [|done]. subst b'.
      assert (g' = g) as -> by eauto.
      rewrite lookup_insert_ne; [done|congruence].
    + rewrite groups_at_group_store, decide_True by done.
      rewrite groups_at_entity_store, groups_at_make_entity_map.
      destruct (decide (g = g')) as [->|Hgg].
      * rewrite lookup_insert_eq, Hg.
        rewrite entities_at_group_store, entities_at_entity_store, decide_True by done.
        rewrite entities_at_make_entity_map, decide_True by done.
        rewrite lookup_insert_ne; [|congruence]. by rewrite lookup_empty.
      * rewrite lookup_insert_ne by done.
        destruct (groups_at h r !! g') as [b'|] eqn:Hg'; [|done].
        apply Halloc in Hg'.
        rewrite entities_at_group_store, entities_at_entity_store, decide_False by lia.
        by rewrite entities_at_make_entity_map, decide_False by lia.
  - rewrite !Get_lookup; cbn [cache set_cache]; rewrite Hc; cbn [index_group].
    rewrite groups_at_group_store, decide_True by done.
    rewrite groups_at_entity_store, groups_at_make_entity_map.
    rewrite groups_at_make_group_map, decide_True by done.
    destruct (decide (g = g')) as [->|Hgg].
    + rewrite lookup_insert_eq, entities_at_group_store.
      rewrite entities_at_entity_store, decide_True by done.
      rewrite entities_at_make_entity_map, decide_True by done.
      rewrite lookup_insert_ne; [|congruence]. by rewrite lookup_empty.
    + by rewrite lookup_insert_ne, lookup_empty by done.
Qed.

(** The second of two equal [Put]s finds everything in place. *)
Lemma Put_Put s g id e : Put (Put s g id e) g id e = Put s g id e.
Proof.
  destruct s as [c h]. rewrite (Put_unfold c h).
  destruct (flags_reject c) eqn:Hf; [by rewrite Put_unfold, Hf|].
  destruct (policy_rejects c e) eqn:Hp; [by rewrite Put_unfold, Hf, Hp|].
  assert (forall r, flags_reject (set_cache c r) = false /\
                    policy_rejects (set_cache c r) e = false) as Hset by done.
  destruct (cache c) as [r|] eqn:Hc; [destruct (groups_at h r !! g) as [b|] eqn:Hg|];
    rewrite Put_unfold; simpl.
  - rewrite Hf, Hp, Hc.
    rewrite groups_at_entity_store, Hg. by rewrite entity_store_twice.
  - rewrite Hf, Hp, Hc.
    rewrite groups_at_group_store, decide_True, lookup_insert_eq by done.
    f_equal. destruct h as [gm em sm sl n].
    unfold group_store, entity_store, make_entity_map, groups_at, entities_at; simpl.
    f_equal. rewrite !lookup_insert_eq; simpl. by rewrite !insert_insert_eq.
  - destruct (Hset (Some (next h))) as [-> ->].
    rewrite groups_at_group_store, decide_True, lookup_insert_eq by done.
    f_equal. destruct h as [gm em sm sl n].
    unfold group_store, entity_store, make_entity_map, make_group_map,
      groups_at, entities_at; simpl.
    f_equal. rewrite !lookup_insert_eq; simpl. by rewrite !insert_insert_eq.
Qed.

(** [Remove], with its result and its effect apart. *)
Lemma Remove_unfold c h g id :
  Remove (c, h) g id =
  match index_group h (cache c) g with
  | Some b =>
      match entities_at h b !! id with
      | Some e => ((e, true), (c, entity_delete h b id))
      | None => ((zero, false), (c, h))
      end
  | None => ((zero, false), (c, h))
  end.
Proof. reflexivity. Qed.

Lemma Remove_present s g id e :
  Get s g id = (e, true) ->
  (Remove s g id).1 = (e, true) /\ Get (Remove s g id).2 g id = (zero, false).
Proof.
  destruct s as [c h]. rewrite Get_lookup, Remove_unfold.
  destruct (index_group h (cache c) g) as [b|] eqn:Hg; [|done].
  destruct (entities_at h b !! id) as [e'|] eqn:He; [|done].
  intros [= ->]. split; [done|]. cbn [snd].
  rewrite Get_lookup. unfold index_group in *. destruct (cache c) as [r|]; [|done].
  rewrite groups_at_entity_delete, Hg.
  by rewrite entities_at_entity_delete, decide_True, lookup_delete_eq.
Qed.

Lemma Remove_absent s g id :
  (Get s g id).2 = false -> Remove s g id = ((zero, false), s).
Proof.
  destruct s as [c h]. rewrite Get_lookup, Remove_unfold.
  destruct (index_group h (cache c) g) as [b|]; [|done].
  by destruct (entities_at h b !! id).
Qed.

(** [Remove] leaves the other keys of a well-formed cache alone. *)
Lemma Remove_Get_other s g id g' id' :
  wf s -> (g', id') <> (g, id) ->
  Get (Remove s g id).2 g' id' = Get s g' id'.
Proof.
  destruct s as [c h]. unfold wf, wf_maps; cbn [fst snd]. intros Hwf Hne.
  rewrite Remove_unfold.
  destruct (index_group h (cache c) g) as [b|] eqn:Hg; [|done].
  destruct (entities_at h b !! id) as [e'|] eqn:He; [|done].
  cbn [snd]. rewrite !Get_lookup. unfold index_group in *.
  destruct (cache c) as [r|]; [|done].
  destruct (Hwf r eq_refl) as (_ & _ & Hinj).
  rewrite groups_at_entity_delete.
  destruct (groups_at h r !! g') as [b'|] eqn:Hg'; [|done].
  rewrite entities_at_entity_delete. case_decide as Hb; [|done]. subst b'.
  assert (g' = g) as -> by eauto.
  rewrite lookup_delete_ne; [done|congruence].
Qed.

Lemma RemoveAll_unfold c h g :
  RemoveAll (c, h) g =
  match cache c with
  | Some r => (c, group_delete h r g)
  | None => (c, h)
  end.
Proof. reflexivity. Qed.

Lemma RemoveAll_Get s g id : Get (RemoveAll s g) g id = (zero, false).
Proof.
  destruct s as [c h]. rewrite RemoveAll_unfold.
  destruct (cache c) as [r|] eqn:Hc; rewrite Get_lookup, Hc; [|done].
  cbn [index_group]. by rewrite groups_at_group_delete, decide_True, lookup_delete_eq.
Qed.

Lemma RemoveAll_Get_other s g g' id :
  g' <> g -> Get (RemoveAll s g) g' id = Get s g' id.
Proof.
  destruct s as [c h]. intros Hne. rewrite RemoveAll_unfold.
  destruct (cache c) as [r|] eqn:Hc; [|done].
  rewrite !Get_lookup, Hc. cbn [index_group].
  rewrite groups_at_group_delete, decide_True, lookup_delete_ne by done.
  destruct (groups_at h r !! g'); [|done]. by rewrite entities_at_group_delete.
Qed.

End Spec.
End CacheSpec.

(** ** Package cache: the methods keep the cache well-formed *)
Module CacheInv.
Import Go GoFacts Inv Cache CacheSpec.

Section Inv.
Context {K : Type} `{Countable K} {T : Type} `{!Zero T} `{!RangeOrder K}.
Implicit Types (s : state K T) (c : DefaultGroupedCache T) (h : heap K T).
Implicit Types (g id : K) (e : T).

(** Well-formedness looks at the group maps and at the allocation mark
    only. *)
Lemma wf_maps_ext h h' m :
  (forall r, groups_at h' r = groups_at h r) -> (next h <= next h')%positive ->
  wf_maps h m -> wf_maps h' m.
Proof.
  intros Hg Hn Hwf r Hr. destruct (Hwf r Hr) as (H1 & H2 & H3).
  rewrite Hg. split_and!; [lia| |done].
  intros g r' Hr'. apply H2 in Hr'. lia.
Qed.

Lemma New_unfold fl needed p h :
  NewGroupedCache fl needed p h =
  ({| flags := fl; neededFlags := needed; policy := p; cache := Some (next h) |},
   (make_group_map h).2).
Proof. reflexivity. Qed.

Lemma wf_New fl needed p h : wf (NewGroupedCache fl needed p h).
Proof.
  rewrite New_unfold. unfold wf, wf_maps; cbn [fst snd cache]. intros r [= <-].
  change (next (make_group_map h).2) with (Pos.succ (next h)).
  rewrite groups_at_make_group_map, decide_True by done.
  split_and!; [lia|intros g r'|intros g1 g2 r']; by rewrite lookup_empty.
Qed.

Lemma wf_Put s g id e : wf s -> wf (Put s g id e).
Proof.
  destruct s as [c h]. unfold wf; cbn [fst snd]. intros Hwf. rewrite Put_unfold.
  destruct (flags_reject c); [done|]. destruct (policy_rejects c e); [done|].
  destruct (cache c) as [r|] eqn:Hc.
  - destruct (Hwf r eq_refl) as (Hr & Halloc & Hinj).
    destruct (groups_at h r !! g) as [b|] eqn:Hg; cbn [fst snd]; rewrite Hc.
    + by apply (wf_maps_ext h).
    + intros ? [= <-].
      rewrite groups_at_group_store, decide_True by done.
      rewrite groups_at_entity_store, groups_at_make_entity_map.
      change (next (group_store _ _ _ _)) with (Pos.succ (next h)).
      split_and!; [lia| |].
      * intros g' r'. rewrite lookup_insert. case_decide; [intros [= <-]; lia|].
        intros Hr'%Halloc. lia.
      * intros g1 g2 r'. rewrite !lookup_insert.
        repeat case_decide; subst; try done.
        -- intros [= <-] Hr'%Halloc. lia.
        -- intros Hr'%Halloc [= <-]. lia.
        -- eauto.
  - cbn [fst snd cache set_cache]. intros ? [= <-].
    rewrite groups_at_group_store, decide_True by done.
    rewrite groups_at_entity_store, groups_at_make_entity_map.
    rewrite groups_at_make_group_map, decide_True by done.
    change (next (group_store _ _ _ _)) with (Pos.succ (Pos.succ (next h))).
    split_and!; [lia| |].
    + intros g' r'. rewrite lookup_insert. case_decide; [intros [= <-]; lia|].
      by rewrite lookup_empty.
    + intros g1 g2 r'. rewrite !lookup_insert.
      repeat case_decide; subst; try done; by rewrite lookup_empty.
Qed.

Lemma wf_Remove s g id : wf s -> wf (Remove s g id).2.
Proof.
  destruct s as [c h]. unfold wf; cbn [fst snd]. intros Hwf. rewrite Remove_unfold.
  destruct (index_group h (cache c) g) as [b|]; cbn [fst snd]; [|done].
  destruct (entities_at h b !! id); cbn [fst snd]; [|done].
  by apply (wf_maps_ext h).
Qed.

Lemma wf_RemoveAll s g : wf s -> wf (RemoveAll s g).
Proof.
  destruct s as [c h]. unfold wf; cbn [fst snd]. intros Hwf. rewrite RemoveAll_unfold.
  destruct (cache c) as [r|] eqn:Hc; cbn [fst snd]; rewrite Hc; [|done].
  intros ? [= <-]. destruct (Hwf r eq_refl) as (Hr & Halloc & Hinj).
  rewrite groups_at_group_delete, decide_True by done.
  change (next (group_delete _ _ _)) with (next h).
  split_and!; [done| |].
  - intros g' r' [_ Hr']%lookup_delete_Some. eauto.
  - intros g1 g2 r' [_ H1]%lookup_delete_Some [_ H2]%lookup_delete_Some. eauto.
Qed.

End Inv.
End CacheInv.

(** ** Package cache: [RemoveIf] *)
Module CacheSweep.
Import Go GoFacts Inv Cache CacheSpec CacheInv.

Section Sweep.
Context {K : Type} `{Countable K} {T : Type} `{!Zero T} `{!RangeOrder K}.
Implicit Types (s : state K T) (c : DefaultGroupedCache T) (h : heap K T).
Implicit Types (g id : K) (e : T) (f : T -> bool).

Lemma sweep_cons f id e l (m : gmap K T) :
  sweep f ((id, e) :: l) m = sweep f l (if f e then delete id m else m).
Proof. reflexivity. Qed.

Lemma sweep_absent f l (m : gmap K T) id : m !! id = None -> sweep f l m !! id = None.
Proof.
  revert m. induction l as [|[id' e'] l IH]; intros m Hm; [done|].
  rewrite sweep_cons. apply IH. destruct (f e'); [|done].
  rewrite lookup_delete. by case_decide.
Qed.

Lemma sweep_hit f l (m : gmap K T) id e :
  (id, e) ∈ l -> f e = true -> sweep f l m !! id = None.
Proof.
  revert m. induction l as [|[id' e'] l IH]; intros m Hin Hf; [by apply elem_of_nil in Hin|].
  apply elem_of_cons in Hin as [[= <- <-]|Hin]; rewrite sweep_cons.
  - rewrite Hf. apply sweep_absent, lookup_delete_eq.
  - by apply IH.
Qed.

Lemma sweep_miss f l (m : gmap K T) id :
  (forall e, (id, e) ∈ l -> f e = false) -> sweep f l m !! id = m !! id.
Proof.
  revert m. induction l as [|[id' e'] l IH]; intros m Hall; [done|].
  rewrite sweep_cons, IH by (intros e He; apply Hall; by right).
  destruct (f e') eqn:Hf; [|done].
  rewrite lookup_delete_ne; [done|]. intros ->.
  rewrite (Hall e') in Hf; [done|by left].
Qed.

(** Sweeping a map along an enumeration of its own entries filters it. *)
Lemma sweep_range f (m : gmap K T) id : sweep f (range m) m !! id = keep f (m !! id).
Proof.
  assert (forall e, (id, e) ∈ range m <-> m !! id = Some e) as Hin.
  { intros e. rewrite (range_perm T m). apply elem_of_map_to_list. }
  destruct (m !! id) as [e|] eqn:Hm; cbn.
  - destruct (f e) eqn:Hf.
    + apply (sweep_hit f _ _ _ e); [by apply Hin|done].
    + rewrite sweep_miss; [done|]. by intros e' [= ->]%Hin.
  - by apply sweep_absent.
Qed.

Lemma groups_at_entity_alter h b F r : groups_at (entity_alter h b F) r = groups_at h r.
Proof. reflexivity. Qed.

Lemma entities_at_entity_alter_ne h b F b' :
  b <> b' -> entities_at (entity_alter h b F) b' = entities_at h b'.
Proof.
  intros Hne. unfold entities_at, entity_alter; cbn. by rewrite lookup_alter_ne.
Qed.

Lemma entities_at_sweep h b f l id :
  entities_at (entity_alter h b (sweep f l)) b !! id = sweep f l (entities_at h b) !! id.
Proof.
  unfold entities_at, entity_alter; cbn. rewrite lookup_alter_eq.
  destruct (entity_maps h !! b); cbn; [done|].
  by rewrite lookup_empty, sweep_absent.
Qed.

(** The inner loop, entry by entry, is a sweep of the group's map. *)
Lemma inner_loop_sweep (filterFunc : K -> T -> bool) c h g b l :
  index_group h (cache c) g = Some b ->
  foldl (fun h '(id, entity) =>
           if filterFunc g entity then delete_in_group c h g id else h) h l
  = entity_alter h b (sweep (filterFunc g) l).
Proof.
  revert h. induction l as [|[id e] l IH]; intros h Hb.
  - destruct h. unfold entity_alter; cbn. f_equal.
    apply map_eq; intros r. destruct (decide (b = r)) as [->|];
      rewrite ?lookup_alter_eq, ?lookup_alter_ne by done; [|done].
    by destruct (_ !! r).
  - cbn [foldl]. destruct (filterFunc g e) eqn:Hf.
    + unfold delete_in_group at 2. rewrite Hb. rewrite IH.
      * unfold entity_alter, entity_delete; cbn. f_equal.
        apply map_eq; intros r. destruct (decide (b = r)) as [->|];
          rewrite ?lookup_alter_eq, ?lookup_alter_ne by done; [|done].
        destruct (entity_maps h !! r); cbn; [|done]. by rewrite Hf.
      * destruct (cache c); [|done]. cbn in *. by rewrite groups_at_entity_delete.
    + rewrite IH by done. unfold entity_alter. f_equal.
      apply map_eq; intros r. destruct (decide (b = r)) as [->|];
        rewrite ?lookup_alter_eq, ?lookup_alter_ne by done; [|done].
      destruct (entity_maps h !! r); cbn; [|done]. by rewrite Hf.
Qed.

Lemma RemoveIf_group_unfold (filterFunc : K -> T -> bool) c h g :
  RemoveIf_group filterFunc c h g =
  match index_group h (cache c) g with
  | Some b => entity_alter h b (sweep (filterFunc g) (range (entities_at h b)))
  | None => h
  end.
Proof.
  unfold RemoveIf_group. destruct (index_group h (cache c) g) as [b|] eqn:Hb.
  - by apply inner_loop_sweep.
  - done.
Qed.

Lemma Get_stored s g id : Get s g id = found (stored s g id).
Proof. destruct s as [c h]. apply Get_lookup. Qed.

Lemma Get_found s g id e : Get s g id = (e, true) <-> stored s g id = Some e.
Proof.
  rewrite Get_stored. unfold found. destruct (stored s g id); split; congruence.
Qed.

Lemma Get_not_found s g id : (Get s g id).2 = false <-> stored s g id = None.
Proof.
  rewrite Get_stored. unfold found. by destruct (stored s g id).
Qed.

(** The outer loop of [RemoveIf] over a list of groups, each bound to a map
    of its own. *)
Lemma outer_loop_sweep (filterFunc : K -> T -> bool) c r gl : forall h,
  cache c = Some r ->
  (forall g b, (g, b) ∈ gl -> groups_at h r !! g = Some b) ->
  NoDup gl.*2 ->
  let h' := foldl (fun h '(g, _) => RemoveIf_group filterFunc c h g) h gl in
  (forall r', groups_at h' r' = groups_at h r') /\
  next h' = next h /\
  (forall b, b ∉ gl.*2 -> entities_at h' b = entities_at h b) /\
  (forall g b id, (g, b) ∈ gl ->
     entities_at h' b !! id = keep (filterFunc g) (entities_at h b !! id)).
Proof.
  induction gl as [|[g0 b0] gl IH]; intros h Hc Hgl Hnd; cbn [foldl].
  - split_and!; try done. intros g b id Hin. by apply elem_of_nil in Hin.
  - rewrite fmap_cons in Hnd. apply NoDup_cons in Hnd as [Hb0 Hnd]. cbn [snd] in Hb0.
    assert (RemoveIf_group filterFunc c h g0 =
            entity_alter h b0 (sweep (filterFunc g0) (range (entities_at h b0)))) as Hstep.
    { rewrite RemoveIf_group_unfold, Hc. cbn [index_group].
      by rewrite (Hgl g0 b0) by left. }
    rewrite Hstep.
    destruct (IH (entity_alter h b0 (sweep (filterFunc g0) (range (entities_at h b0)))))
      as (IHg & IHn & IHo & IHi); [done| |done|].
    { intros g b Hin. rewrite groups_at_entity_alter. apply Hgl. by right. }
    split_and!.
    + intros r'. by rewrite IHg.
    + by rewrite IHn.
    + intros b Hb. rewrite fmap_cons in Hb. apply not_elem_of_cons in Hb as [Hne Hb].
      rewrite IHo by done. by apply entities_at_entity_alter_ne.
    + intros g b id [[= -> ->]|Hin]%elem_of_cons.
      * rewrite IHo by done. by rewrite entities_at_sweep, sweep_range.
      * rewrite (IHi g b id Hin). f_equal.
        rewrite entities_at_entity_alter_ne; [done|].
        intros ->. apply Hb0. apply list_elem_of_fmap. by exists (g, b).
Qed.

Lemma RemoveIf_unfold (filterFunc : K -> T -> bool) c h :
  RemoveIf (c, h) filterFunc =
  (c, foldl (fun h '(g, _) => RemoveIf_group filterFunc c h g) h (range_groups h (cache c))).
Proof. reflexivity. Qed.

(** [RemoveIf] on a well-formed cache: what is stored afterwards is what was
    stored before and the filter did not pick. *)
Lemma RemoveIf_stored s (filterFunc : K -> T -> bool) g id :
  wf s -> stored (RemoveIf s filterFunc) g id = keep (filterFunc g) (stored s g id).
Proof.
  destruct s as [c h]. unfold wf, wf_maps; cbn [fst snd]. intros Hwf.
  rewrite RemoveIf_unfold. unfold stored, stored_in; cbn [fst snd].
  destruct (cache c) as [r|] eqn:Hc; [|done]. cbn [range_groups index_group].
  destruct (Hwf r eq_refl) as (_ & _ & Hinj).
  assert (forall g b, (g, b) ∈ range (groups_at h r) <-> groups_at h r !! g = Some b) as Hin.
  { intros g' b. rewrite (range_perm _ (groups_at h r)). apply elem_of_map_to_list. }
  destruct (outer_loop_sweep filterFunc c r (range (groups_at h r)) h Hc)
    as (Hg & _ & _ & Hi).
  { intros g' b. apply Hin. }
  { apply NoDup_fmap_2_strong.
    - intros [g1 b1] [g2 b2] H1%Hin H2%Hin. cbn. intros <-. f_equal. eauto.
    - rewrite (range_perm _ (groups_at h r)). apply NoDup_map_to_list. }
  rewrite Hg. destruct (groups_at h r !! g) as [b|] eqn:Hb; [|done].
  apply Hi. by apply Hin.
Qed.

Lemma wf_RemoveIf s (filterFunc : K -> T -> bool) : wf s -> wf (RemoveIf s filterFunc).
Proof.
  destruct s as [c h]. unfold wf; cbn [fst snd]. intros Hwf.
  rewrite RemoveIf_unfold; cbn [fst snd].
  destruct (cache c) as [r|] eqn:Hc; [|done]. cbn [range_groups].
  assert (forall g b, (g, b) ∈ range (groups_at h r) <-> groups_at h r !! g = Some b) as Hin.
  { intros g' b. rewrite (range_perm _ (groups_at h r)). apply elem_of_map_to_list. }
  destruct (Hwf r eq_refl) as (_ & _ & Hinj).
  destruct (outer_loop_sweep filterFunc c r (range (groups_at h r)) h Hc)
    as (Hg & Hn & _ & _).
  { intros g' b. apply Hin. }
  { apply NoDup_fmap_2_strong.
    - intros [g1 b1] [g2 b2] H1%Hin H2%Hin. cbn. intros <-. f_equal. eauto.
    - rewrite (range_perm _ (groups_at h r)). apply NoDup_map_to_list. }
  apply (wf_maps_ext h); [done|lia|done].
Qed.

End Sweep.
End CacheSweep.

(** ** Writes into fresh objects do not reach a cache *)
Module GoFrame.
Import Go GoFacts Inv.

Section Frame.
Context {K : Type} `{Countable K} {T : Type}.
Implicit Types (h : heap K T) (m r : positive) (k : K).

Lemma foldl_inv {A B : Type} (P : A -> Prop) (f : A -> B -> A) (l : list B) (a : A) :
  P a -> (forall a b, P a -> P (f a b)) -> P (foldl f a l).
Proof.
  intros Ha Hstep. revert a Ha. induction l as [|b l IH]; intros a Ha; [done|].
  cbn. apply IH, Hstep, Ha.
Qed.

Lemma extends_refl h : extends h h.
Proof. unfold extends. split_and!; [lia|done|done]. Qed.

Lemma extends_make_group_map h h' : extends h h' -> extends h (make_group_map h').2.
Proof.
  intros (Hn & Hg & He). unfold extends, make_group_map; cbn. split_and!; [lia| |done].
  intros r Hr. rewrite lookup_insert_ne by lia. by apply Hg.
Qed.

Lemma extends_make_entity_map h h' : extends h h' -> extends h (make_entity_map h').2.
Proof.
  intros (Hn & Hg & He). unfold extends, make_entity_map; cbn. split_and!; [lia|done|].
  intros r Hr. rewrite lookup_insert_ne by lia. by apply He.
Qed.

Lemma extends_make_slice_map h h' : extends h h' -> extends h (make_slice_map h').2.
Proof. intros (Hn & Hg & He). unfold extends, make_slice_map; cbn. split_and!; [lia|done|done]. Qed.

Lemma extends_make_slice h h' : extends h h' -> extends h (make_slice h').2.
Proof. intros (Hn & Hg & He). unfold extends, make_slice; cbn. split_and!; [lia|done|done]. Qed.

Lemma extends_group_store h h' m k v :
  (next h <= m)%positive -> extends h h' -> extends h (group_store h' m k v).
Proof.
  intros Hm (Hn & Hg & He). unfold extends, group_store; cbn. split_and!; [done| |done].
  intros r Hr. rewrite lookup_insert_ne by lia. by apply Hg.
Qed.

Lemma extends_group_delete h h' m k :
  (next h <= m)%positive -> extends h h' -> extends h (group_delete h' m k).
Proof.
  intros Hm (Hn & Hg & He). unfold extends, group_delete; cbn. split_and!; [done| |done].
  intros r Hr. rewrite lookup_alter_ne by lia. by apply Hg.
Qed.

Lemma extends_entity_store h h' m k (v : T) :
  (next h <= m)%positive -> extends h h' -> extends h (entity_store h' m k v).
Proof.
  intros Hm (Hn & Hg & He). unfold extends, entity_store; cbn. split_and!; [done|done|].
  intros r Hr. rewrite lookup_insert_ne by lia. by apply He.
Qed.

Lemma extends_entity_delete h h' m k :
  (next h <= m)%positive -> extends h h' -> extends h (entity_delete h' m k).
Proof.
  intros Hm (Hn & Hg & He). unfold extends, entity_delete; cbn. split_and!; [done|done|].
  intros r Hr. rewrite lookup_alter_ne by lia. by apply He.
Qed.

Lemma extends_slice_map_store h h' m k v : extends h h' -> extends h (slice_map_store h' m k v).
Proof. by intros (Hn & Hg & He). Qed.

Lemma extends_slice_map_delete h h' m k : extends h h' -> extends h (slice_map_delete h' m k).
Proof. by intros (Hn & Hg & He). Qed.

Lemma extends_slice_append h h' m (v : T) : extends h h' -> extends h (slice_append h' m v).
Proof. by intros (Hn & Hg & He). Qed.

Lemma extends_slice_set h h' m i (v : T) : extends h h' -> extends h (slice_set h' m i v).
Proof. by intros (Hn & Hg & He). Qed.

(** One write by a caller, into an object outside [h]. *)
Lemma extends_mutate1 h h' (mu : mutation K T) :
  outside h (target mu) -> extends h h' -> extends h (mutate1 h' mu).
Proof.
  destruct mu; cbn; unfold outside; cbn; intros Ho He;
    eauto using extends_group_store, extends_group_delete, extends_entity_store,
      extends_entity_delete, extends_slice_map_store, extends_slice_map_delete,
      extends_slice_set.
Qed.

Lemma extends_mutate h h' (fp : list (kind * positive)) (ms : list (mutation K T)) :
  Forall (outside h) fp -> mutates_only fp ms -> extends h h' -> extends h (mutate h' ms).
Proof.
  intros Hfp Hms. revert h'. unfold mutate.
  induction Hms as [|mu ms Hmu Hms IH]; intros h' He; [done|].
  cbn [foldl]. apply IH, extends_mutate1; [|done].
  rewrite Forall_forall in Hfp. by apply Hfp.
Qed.

(** A well-formed cache reads the same from an extension of its store. *)
Lemma stored_in_extends h h' (c : option positive) g id :
  wf_maps h c -> extends h h' -> stored_in h' c g id = stored_in h c g id.
Proof.
  intros Hwf (Hn & Hg & He). unfold stored_in, index_group.
  destruct c as [r|]; [|done]. destruct (Hwf r eq_refl) as (Hr & Halloc & _).
  unfold groups_at at 1. rewrite Hg by done. fold (groups_at h r).
  destruct (groups_at h r !! g) as [b|] eqn:Hb; [|done].
  unfold entities_at. by rewrite He by eauto.
Qed.

Lemma wf_maps_extends h h' (c : option positive) :
  wf_maps h c -> extends h h' -> wf_maps h' c.
Proof.
  intros Hwf (Hn & Hg & He) r ->. destruct (Hwf r eq_refl) as (Hr & Halloc & Hinj).
  assert (groups_at h' r = groups_at h r) as ->.
  { unfold groups_at. by rewrite Hg. }
  split_and!; [lia| |done]. intros g r' Hr'%Halloc. lia.
Qed.

End Frame.
End GoFrame.

(** ** The enumerations of both packages return copies *)
Module Copies.
Import Go GoFacts Inv GoFrame.

Section Copies.
Context {K : Type} `{Countable K} {T : Type} `{!Zero T} `{!RangeOrder K}.
Implicit Types (h : heap K T) (m r : positive) (k : K).

(** Name the two components of an allocation. *)
Ltac alloc mk h r h' :=
  let E := fresh "E" in
  destruct (mk h) as [r h'] eqn:E;
  assert (r = next h /\ h' = (mk h).2) as [-> ->] by (rewrite E; split; [by injection E|done]);
  clear E.

Lemma outside_slices h h' (l : list (K * positive)) :
  Forall (outside h) ((fun kv => (KSlice, kv.2)) <$> l).
Proof. apply Forall_fmap, Forall_forall. by intros. Qed.

(** The loop of [All]. *)
Lemma All_loop_extends h all (gs : list (K * positive)) h0 :
  extends h h0 ->
  extends h
    (foldl (fun h '(groupID, groupEntities) =>
              let '(sl, h) := make_slice h in
              let h := slice_map_store h all groupID sl in
              foldl (fun h '(_, entity) => slice_append h sl entity)
                    h (range (entities_at h groupEntities)))
           h0 gs).
Proof.
  intros He. apply foldl_inv; [done|]. clear. intros h1 [g b] He.
  alloc (@make_slice K _ _ T) h1 sl h2.
  apply foldl_inv; [by apply extends_slice_map_store, extends_make_slice|].
  intros h3 [id e]. apply extends_slice_append.
Qed.

(** The loop of [GroupAll]. *)
Lemma append_loop_extends h sl (es : list (K * T)) h0 :
  extends h h0 ->
  extends h (foldl (fun h '(_, entity) => slice_append h sl entity) h0 es).
Proof.
  intros He. apply foldl_inv; [done|]. intros h3 [id e]. apply extends_slice_append.
Qed.

(** The loops of [FindAll] and [GroupFindAll]. *)
Lemma filter_loop_extends h sl (f : T -> bool) (es : list (K * T)) h0 :
  extends h h0 ->
  extends h (foldl (fun h '(_, entity) =>
                      if f entity then slice_append h sl entity else h) h0 es).
Proof.
  intros He. apply foldl_inv; [done|]. intros h3 [id e] He3.
  destruct (f e); [by apply extends_slice_append|done].
Qed.

(** The loop of [MapGroupAll]. *)
Lemma store_loop_extends h m (es : list (K * T)) h0 :
  (next h <= m)%positive -> extends h h0 ->
  extends h (foldl (fun h '(entityID, entity) => entity_store h m entityID entity) h0 es).
Proof.
  intros Hm He. apply foldl_inv; [done|]. intros h3 [id e]. by apply extends_entity_store.
Qed.

Lemma store_loop_groups h m (es : list (K * T)) r :
  groups_at (foldl (fun h '(entityID, entity) => entity_store h m entityID entity) h es) r
  = groups_at h r.
Proof.
  revert h. induction es as [|[id e] es IH]; intros h; [done|].
  cbn [foldl]. by rewrite IH, groups_at_entity_store.
Qed.

Lemma store_loop_next h m (es : list (K * T)) :
  next (foldl (fun h '(entityID, entity) => entity_store h m entityID entity) h es) = next h.
Proof.
  revert h. induction es as [|[id e] es IH]; intros h; [done|].
  cbn [foldl]. by rewrite IH.
Qed.

(** The loop of [MapAll]: the store is extended, and the map under
    construction refers to fresh entity maps only. *)
Lemma MapAll_loop h (gs : list (K * positive)) h0 :
  extends h h0 ->
  (forall g b, groups_at h0 (next h) !! g = Some b -> (next h <= b)%positive) ->
  let h' :=
    foldl (fun h1 '(groupID, groupEntities) =>
             let '(m, h1) := make_entity_map h1 in
             let h1 := group_store h1 (next h) groupID m in
             foldl (fun h1 '(entityID, entity) => entity_store h1 m entityID entity)
                   h1 (range (entities_at h1 groupEntities)))
          h0 gs in
  extends h h' /\
  (forall g b, groups_at h' (next h) !! g = Some b -> (next h <= b)%positive).
Proof.
  intros He Hf. cbn zeta.
  apply (foldl_inv (fun h1 => extends h h1 /\
           forall g b, groups_at h1 (next h) !! g = Some b -> (next h <= b)%positive));
    [done|]. clear. intros h1 [g b] [He Hf].
  alloc (@make_entity_map K _ _ T) h1 m h2.
  assert (next h <= next h1)%positive as Hn by apply He.
  split.
  - apply store_loop_extends; [done|].
    apply extends_group_store; [lia|]. by apply extends_make_entity_map.
  - intros g' b'. rewrite store_loop_groups, groups_at_group_store, decide_True by done.
    rewrite groups_at_make_entity_map, lookup_insert.
    case_decide; [intros [= <-]; lia|]. apply Hf.
Qed.

Lemma is_copy_slice_map h r h' : extends h h' -> is_copy h (VSliceMap r) h'.
Proof.
  intros He. split; [done|]. cbn [reach]. constructor; [done|]. apply outside_slices; done.
Qed.

Lemma is_copy_slice h r h' : extends h h' -> is_copy h (VSlice r) h'.
Proof. intros He. split; [done|]. cbn [reach]. by repeat constructor. Qed.

Lemma is_copy_nil h : is_copy h VNil h.
Proof. split; [apply extends_refl|constructor]. Qed.

(** *** Package cache *)

Lemma Cache_All_copy (c : Cache.DefaultGroupedCache T) h :
  (Cache.All (c, h)).2.1 = c /\ is_copy h (Cache.All (c, h)).1 (Cache.All (c, h)).2.2.
Proof.
  unfold Cache.All. alloc (@make_slice_map K _ _ T) h r0 h1. cbn [fst snd].
  split; [done|]. apply is_copy_slice_map, All_loop_extends, extends_make_slice_map, extends_refl.
Qed.

Lemma Cache_GroupAll_copy (c : Cache.DefaultGroupedCache T) h g :
  (Cache.GroupAll (c, h) g).2.1 = c /\
  is_copy h (Cache.GroupAll (c, h) g).1 (Cache.GroupAll (c, h) g).2.2.
Proof.
  unfold Cache.GroupAll. destruct (index_group h (Cache.cache c) g) as [b|].
  - alloc (@make_slice K _ _ T) h r0 h1. cbn [fst snd]. split; [done|].
    apply is_copy_slice, append_loop_extends, extends_make_slice, extends_refl.
  - split; [done|]. apply is_copy_nil.
Qed.

Lemma Cache_MapAll_copy (c : Cache.DefaultGroupedCache T) h :
  (Cache.MapAll (c, h)).2.1 = c /\
  is_copy h (Cache.MapAll (c, h)).1 (Cache.MapAll (c, h)).2.2.
Proof.
  unfold Cache.MapAll. alloc (@make_group_map K _ _ T) h r0 h1. cbn [fst snd].
  split; [done|].
  destruct (MapAll_loop h (range_groups (make_group_map h).2 (Cache.cache c))
              (make_group_map h).2) as [He Hf].
  { apply extends_make_group_map, extends_refl. }
  { intros g b. by rewrite groups_at_make_group_map, decide_True, lookup_empty. }
  split; [done|]. cbn [reach]. constructor; [unfold outside; cbn; lia|].
  apply Forall_fmap, Forall_forall. intros [g b] Hin%elem_of_map_to_list.
  unfold outside; cbn. eauto.
Qed.

Lemma Cache_MapGroupAll_copy (c : Cache.DefaultGroupedCache T) h g :
  (Cache.MapGroupAll (c, h) g).2.1 = c /\
  is_copy h (Cache.MapGroupAll (c, h) g).1 (Cache.MapGroupAll (c, h) g).2.2.
Proof.
  unfold Cache.MapGroupAll. destruct (index_group h (Cache.cache c) g) as [b|].
  - alloc (@make_entity_map K _ _ T) h r0 h1. cbn [fst snd]. split; [done|]. split.
    + apply store_loop_extends; [lia|]. apply extends_make_entity_map, extends_refl.
    + cbn [reach]. repeat constructor. unfold outside; cbn. lia.
  - split; [done|]. apply is_copy_nil.
Qed.

Lemma Cache_FindAll_copy (c : Cache.DefaultGroupedCache T) h f :
  (Cache.FindAll (c, h) f).2.1 = c /\
  is_copy h (Cache.FindAll (c, h) f).1 (Cache.FindAll (c, h) f).2.2.
Proof.
  unfold Cache.FindAll. alloc (@make_slice K _ _ T) h r0 h1. cbn [fst snd].
  split; [done|]. apply is_copy_slice.
  apply foldl_inv; [apply extends_make_slice, extends_refl|].
  intros h2 [g' b] He. by apply filter_loop_extends.
Qed.

Lemma Cache_GroupFindAll_copy (c : Cache.DefaultGroupedCache T) h g f :
  (Cache.GroupFindAll (c, h) g f).2.1 = c /\
  is_copy h (Cache.GroupFindAll (c, h) g f).1 (Cache.GroupFindAll (c, h) g f).2.2.
Proof.
  unfold Cache.GroupFindAll. alloc (@make_slice K _ _ T) h r0 h1. cbn [fst snd].
  split; [done|]. apply is_copy_slice.
  apply filter_loop_extends, extends_make_slice, extends_refl.
Qed.

(** *** Package core *)

Lemma Core_All_copy (c : Core.DefaultGroupedCache T) h :
  (Core.All (c, h)).2.1 = c /\ is_copy h (Core.All (c, h)).1 (Core.All (c, h)).2.2.
Proof.
  unfold Core.All. alloc (@make_slice_map K _ _ T) h r0 h1. cbn [fst snd].
  split; [done|]. apply is_copy_slice_map, All_loop_extends, extends_make_slice_map, extends_refl.
Qed.

Lemma Core_GroupAll_copy (c : Core.DefaultGroupedCache T) h g :
  (Core.GroupAll (c, h) g).2.1 = c /\
  is_copy h (Core.GroupAll (c, h) g).1 (Core.GroupAll (c, h) g).2.2.
Proof.
  unfold Core.GroupAll. destruct (index_group h (Core.cache c) g) as [b|].
  - alloc (@make_slice K _ _ T) h r0 h1. cbn [fst snd]. split; [done|].
    apply is_copy_slice, append_loop_extends, extends_make_slice, extends_refl.
  - split; [done|]. apply is_copy_nil.
Qed.

Lemma Core_FindAll_copy (c : Core.DefaultGroupedCache T) h f :
  (Core.FindAll (c, h) f).2.1 = c /\
  is_copy h (Core.FindAll (c, h) f).1 (Core.FindAll (c, h) f).2.2.
Proof.
  unfold Core.FindAll. alloc (@make_slice K _ _ T) h r0 h1. cbn [fst snd].
  split; [done|]. apply is_copy_slice.
  apply foldl_inv; [apply extends_make_slice, extends_refl|].
  intros h2 [g' b] He. by apply filter_loop_extends.
Qed.

Lemma Core_GroupFindAll_copy (c : Core.DefaultGroupedCache T) h g f :
  (Core.GroupFindAll (c, h) g f).2.1 = c /\
  is_copy h (Core.GroupFindAll (c, h) g f).1 (Core.GroupFindAll (c, h) g f).2.2.
Proof.
  unfold Core.GroupFindAll. alloc (@make_slice K _ _ T) h r0 h1. cbn [fst snd].
  split; [done|]. apply is_copy_slice.
  apply filter_loop_extends, extends_make_slice, extends_refl.
Qed.

(** What a copy buys: after any writes through it, a well-formed cache
    still stores what it stored. *)
Lemma is_copy_stored h v h' (m : option positive) (ms : list (mutation K T)) g id :
  wf_maps h m -> is_copy h v h' -> mutates_only (reach h' v) ms ->
  stored_in (mutate h' ms) m g id = stored_in h m g id.
Proof.
  intros Hwf [He Hout] Hms. apply stored_in_extends; [done|].
  by apply (extends_mutate h h' (reach h' v)).
Qed.

(** Every reachable state of package cache is well-formed. *)
Lemma reachable_wf (s : Cache.state K T) : reachable s -> wf s.
Proof.
  assert (forall (c : Cache.DefaultGroupedCache T) h (r : value * Cache.state K T),
            wf (c, h) -> r.2.1 = c /\ is_copy h r.1 r.2.2 -> wf r.2) as Hcopy.
  { intros c h [v [c' h']] Hwf [Hc [He _]]. cbn in *. subst c'.
    unfold wf in *; cbn in *. by apply (wf_maps_extends h). }
  induction 1 as [fl needed p h|s g id e _ IH|s g id _ IH|s g _ IH|s f _ IH
                 |[c h] _ IH|[c h] g _ IH|[c h] _ IH|[c h] g _ IH|[c h] f _ IH|[c h] g f _ IH].
  - apply CacheInv.wf_New.
  - by apply CacheInv.wf_Put.
  - by apply CacheInv.wf_Remove.
  - by apply CacheInv.wf_RemoveAll.
  - by apply CacheSweep.wf_RemoveIf.
  - apply (Hcopy c h); [done|apply Cache_All_copy].
  - apply (Hcopy c h); [done|apply Cache_GroupAll_copy].
  - apply (Hcopy c h); [done|apply Cache_MapAll_copy].
  - apply (Hcopy c h); [done|apply Cache_MapGroupAll_copy].
  - apply (Hcopy c h); [done|apply Cache_FindAll_copy].
  - apply (Hcopy c h); [done|apply Cache_GroupFindAll_copy].
Qed.

End Copies.
End Copies.

(** ** The two packages agree on the operations they share *)
Module Equiv.
Import Go GoFacts Inv Ops.

Section Equiv.
Context {K : Type} `{Countable K} {T : Type} `{!Zero T} `{!RangeOrder K}.
Implicit Types (c : Cache.DefaultGroupedCache T) (h : heap K T) (g id : K) (e : T).

Lemma to_of_core (c : Core.DefaultGroupedCache T) : to_core (of_core c) = c.
Proof. by destruct c. Qed.

Lemma to_of_core_state (s : Core.state K T) : to_core_state (of_core_state s) = s.
Proof. destruct s as [c h]. unfold to_core_state, of_core_state; cbn. by rewrite to_of_core. Qed.

Lemma Get_agree c h g id : Core.Get (to_core c, h) g id = Cache.Get (c, h) g id.
Proof. reflexivity. Qed.

Lemma Put_agree c h g id e :
  Core.Put (to_core c, h) g id e = to_core_state (Cache.Put (c, h) g id e).
Proof.
  unfold Core.Put, Cache.Put.
  change (Core.flags_reject (to_core c)) with (Cache.flags_reject c).
  change (Core.policy_rejects (to_core c) e) with (Cache.policy_rejects c e).
  destruct (Cache.flags_reject c); [done|]. destruct (Cache.policy_rejects c e); [done|].
  change (Core.cache (to_core c)) with (Cache.cache c).
  destruct (Cache.cache c) as [r|].
  - by destruct (groups_at h r !! g).
  - destruct (make_group_map h) as [r h1]. by destruct (groups_at h1 r !! g).
Qed.

Lemma Remove_agree c h g id :
  Core.Remove (to_core c, h) g id =
  ((Cache.Remove (c, h) g id).1, to_core_state (Cache.Remove (c, h) g id).2).
Proof.
  unfold Core.Remove, Cache.Remove.
  change (Core.cache (to_core c)) with (Cache.cache c).
  destruct (index_group h (Cache.cache c) g) as [b|]; [|done].
  by destruct (entities_at h b !! id).
Qed.

Lemma RemoveAll_agree c h g :
  Core.RemoveAll (to_core c, h) g = to_core_state (Cache.RemoveAll (c, h) g).
Proof.
  unfold Core.RemoveAll, Cache.RemoveAll.
  change (Core.cache (to_core c)) with (Cache.cache c).
  by destruct (Cache.cache c).
Qed.

Lemma All_agree c h :
  Core.All (to_core c, h) = ((Cache.All (c, h)).1, to_core_state (Cache.All (c, h)).2).
Proof. unfold Core.All, Cache.All. by destruct (make_slice_map h). Qed.

Lemma GroupAll_agree c h g :
  Core.GroupAll (to_core c, h) g =
  ((Cache.GroupAll (c, h) g).1, to_core_state (Cache.GroupAll (c, h) g).2).
Proof.
  unfold Core.GroupAll, Cache.GroupAll.
  change (Core.cache (to_core c)) with (Cache.cache c).
  destruct (index_group h (Cache.cache c) g) as [b|]; [|done].
  by destruct (make_slice h).
Qed.

Lemma first_match_agree (f : T -> bool) (l : list (K * T)) :
  Core.first_match f l = Cache.first_match f l.
Proof. induction l as [|[id e] l IH]; [done|]. cbn. by rewrite IH. Qed.

Lemma FindFirst_groups_agree h (f : K -> T -> bool) (gs : list (K * positive)) :
  Core.FindFirst_groups h f gs = Cache.FindFirst_groups h f gs.
Proof.
  induction gs as [|[g b] gs IH]; [done|]. cbn. by rewrite first_match_agree, IH.
Qed.

Lemma FindFirst_agree c h f : Core.FindFirst (to_core c, h) f = Cache.FindFirst (c, h) f.
Proof. unfold Core.FindFirst, Cache.FindFirst. by rewrite FindFirst_groups_agree. Qed.

Lemma GroupFindFirst_agree c h g f :
  Core.GroupFindFirst (to_core c, h) g f = Cache.GroupFindFirst (c, h) g f.
Proof. unfold Core.GroupFindFirst, Cache.GroupFindFirst. by rewrite first_match_agree. Qed.

Lemma FindAll_agree c h f :
  Core.FindAll (to_core c, h) f =
  ((Cache.FindAll (c, h) f).1, to_core_state (Cache.FindAll (c, h) f).2).
Proof. unfold Core.FindAll, Cache.FindAll. by destruct (make_slice h). Qed.

Lemma GroupFindAll_agree c h g f :
  Core.GroupFindAll (to_core c, h) g f =
  ((Cache.GroupFindAll (c, h) g f).1, to_core_state (Cache.GroupFindAll (c, h) g f).2).
Proof. unfold Core.GroupFindAll, Cache.GroupFindAll. by destruct (make_slice h). Qed.

Lemma New_agree fl needed p h :
  Core.NewGroupedCache fl needed p h = to_core_state (Cache.NewGroupedCache fl needed p h).
Proof. reflexivity. Qed.

(** One call: same result, and the receivers still correspond. *)
Lemma step_agree (s : Cache.state K T) (o : op K T) :
  core_step (to_core_state s) o = ((cache_step s o).1, to_core_state (cache_step s o).2).
Proof.
  destruct s as [c h]. unfold to_core_state at 1; cbn [fst snd].
  destruct o as [g id|g id e|g id|g| |g|f|g f|f|g f]; cbn [core_step cache_step].
  - by rewrite Get_agree.
  - by rewrite Put_agree.
  - rewrite Remove_agree. by destruct (Cache.Remove (c, h) g id).
  - by rewrite RemoveAll_agree.
  - rewrite All_agree. by destruct (Cache.All (c, h)).
  - rewrite GroupAll_agree. by destruct (Cache.GroupAll (c, h) g).
  - by rewrite FindFirst_agree.
  - by rewrite GroupFindFirst_agree.
  - rewrite FindAll_agree. by destruct (Cache.FindAll (c, h) f).
  - rewrite GroupFindAll_agree. by destruct (Cache.GroupFindAll (c, h) g f).
Qed.

(** Any sequence of calls. *)
Lemma run_agree (os : list (op K T)) : forall s : Cache.state K T,
  run core_step (to_core_state s) os =
  ((run cache_step s os).1, to_core_state (run cache_step s os).2).
Proof.
  induction os as [|o os IH]; intros s; [done|].
  cbn [run]. rewrite step_agree.
  destruct (cache_step s o) as [r s1]; cbn [fst snd]. rewrite IH.
  by destruct (run cache_step s1 os).
Qed.

End Equiv.
End Equiv.

(** ** Mentions: what the formatters write, the patterns find *)
Module MentionsSpec.
Import Mentions.

Lemma match_at_Plus_Digit {A : Type} (k : string -> list (option string) -> option A) s caps :
  match_at (Plus Digit) s caps k = digits_loop k (S (String.length s)) s caps.
Proof. reflexivity. Qed.

Lemma match_at_Seq {A : Type} (k : string -> list (option string) -> option A) r1 r2 s caps :
  match_at (Seq r1 r2) s caps k = match_at r1 s caps (fun s' caps' => match_at r2 s' caps' k).
Proof. reflexivity. Qed.

Lemma match_at_Group {A : Type} (k : string -> list (option string) -> option A) n r s caps :
  match_at (Group n r) s caps k =
  match_at r s caps (fun s' caps' => k s' (<[n := Some (consumed s s')]> caps')).
Proof. reflexivity. Qed.

Lemma match_at_Opt {A : Type} (k : string -> list (option string) -> option A) r s caps :
  match_at (Opt r) s caps k = or_else (match_at r s caps k) (k s caps).
Proof. reflexivity. Qed.

Lemma match_at_Lit_miss {A : Type} (k : string -> list (option string) -> option A) c c' s caps :
  Ascii.eqb c c' = false -> match_at (Lit c) (String c' s) caps k = None.
Proof. intros Hc. cbn. by rewrite Hc. Qed.

Lemma match_at_Lit {A : Type} (k : string -> list (option string) -> option A) c s caps :
  match_at (Lit c) (String c s) caps k = k s caps.
Proof. cbn. by rewrite Ascii.eqb_refl. Qed.

Lemma digits_loop_stop {A : Type} (k : string -> list (option string) -> option A)
    fuel rest caps :
  no_digit_ahead rest = true -> digits_loop k fuel rest caps = None.
Proof.
  intros Hrest. destruct fuel as [|fuel]; [done|]. cbn.
  destruct rest as [|c rest]; [done|]. cbn in Hrest.
  by destruct (is_digit c).
Qed.

(** [\d+] takes all the digits in front of it when what follows then
    matches. *)
Lemma digits_loop_all {A : Type} (k : string -> list (option string) -> option A)
    ds : forall d fuel rest caps x,
  is_digit d = true -> all_digits ds = true -> no_digit_ahead rest = true ->
  (String.length ds < fuel)%nat ->
  k rest caps = Some x ->
  digits_loop k fuel (String d (String.append ds rest)) caps = Some x.
Proof.
  induction ds as [|d' ds IH]; intros d fuel rest caps x Hd Hds Hrest Hfuel Hk.
  - destruct fuel as [|fuel]; [cbn in Hfuel; lia|]. cbn [digits_loop match_at String.append].
    rewrite Hd. rewrite (proj2 (Nat.ltb_lt _ _)) by (cbn; lia).
    change (String.append EmptyString rest) with rest.
    by rewrite digits_loop_stop, Hk.
  - destruct fuel as [|fuel]; [cbn in Hfuel; lia|].
    cbn in Hds. apply andb_prop in Hds as [Hd' Hds].
    cbn [digits_loop match_at]. rewrite Hd.
    rewrite (proj2 (Nat.ltb_lt _ _)) by (cbn; lia).
    change (String.append (String d' ds) rest) with (String d' (String.append ds rest)).
    rewrite (IH d' fuel rest caps x); [done..| |done]. cbn in Hfuel. lia.
Qed.

Lemma length_append (s1 s2 : string) :
  String.length (String.append s1 s2) = (String.length s1 + String.length s2)%nat.
Proof. induction s1 as [|c s1 IH]; [done|]. simpl. by f_equal. Qed.

Lemma consumed_append (s1 s2 : string) : consumed (String.append s1 s2) s2 = s1.
Proof.
  unfold consumed. rewrite length_append.
  replace (String.length s1 + String.length s2 - String.length s2)%nat
    with (String.length s1) by lia.
  induction s1 as [|c s1 IH]; simpl.
  - by destruct s2.
  - by f_equal.
Qed.

Lemma consumed_all (s : string) : consumed s EmptyString = s.
Proof.
  unfold consumed. cbn. rewrite Nat.sub_0_r.
  induction s as [|c s IH]; [done|]. simpl. by f_equal.
Qed.

(** The digits of a number in base ten. *)
Lemma string_of_uint_digits (d : Decimal.uint) :
  all_digits (NilEmpty.string_of_uint d) = true.
Proof. induction d; cbn; by rewrite ?IHd. Qed.

Lemma ID_String_digits (id : N) :
  exists d ds, ID_String id = String d ds /\ is_digit d = true /\ all_digits ds = true.
Proof.
  unfold ID_String, NilZero.string_of_uint.
  pose proof (string_of_uint_digits (N.to_uint id)) as Hall.
  destruct (N.to_uint id) eqn:E; cbn in Hall |- *;
    try (apply andb_prop in Hall as [Hd Hds]); eauto 6.
Qed.

(** A digit is none of the marks that the patterns put in front of the
    number. *)
Lemma digit_not_bang (d : ascii) : is_digit d = true -> Ascii.eqb "!" d = false.
Proof.
  intros Hd. destruct (Ascii.eqb_spec "!"%char d) as [<-|]; [|done]. by cbn in Hd.
Qed.

(** [(\d+)>] in front of a number and a closing bracket, as group 1 of a
    pattern with one group. *)
Lemma match_at_number_close {A : Type} (k : string -> list (option string) -> option A)
    d ds x :
  is_digit d = true -> all_digits ds = true ->
  k EmptyString [None; Some (String d ds)] = Some x ->
  match_at (Seq (Group 1 (Plus Digit)) (Lit ">"))
    (String d (String.append ds ">")) [None; None] k = Some x.
Proof.
  intros Hd Hds Hk.
  rewrite match_at_Seq, match_at_Group, match_at_Plus_Digit.
  apply digits_loop_all; [done|done|done|cbn [String.length]; rewrite length_append; lia|].
  rewrite match_at_Lit.
  change (String d (String.append ds ">")) with (String.append (String d ds) ">").
  by rewrite consumed_append.
Qed.

(** The whole match is the whole mention, group 1 is the number. *)
Lemma found_mention d ds (whole : string) :
  (fun (s' : string) caps => Some (consumed whole s' :: (group_text <$> drop 1 caps)))
    EmptyString [None; Some (String d ds)]
  = Some [whole; String d ds].
Proof. cbn. by rewrite consumed_all. Qed.

Lemma UserMention_found (id : N) :
  FindStringSubmatch MentionTypeUser (UserMention id) = Some [UserMention id; ID_String id].
Proof.
  destruct (ID_String_digits id) as (d & ds & E & Hd & Hds).
  unfold UserMention, Sprintf_s. rewrite E.
  change (String.append "<@" (String.append (String d ds) ">"))
    with (String "<" (String "@" (String d (String.append ds ">")))).
  set (whole := String "<" _).
  assert (match_prefix MentionTypeUser whole = Some [whole; String d ds]) as Hm.
  { unfold match_prefix, MentionTypeUser, Regexp, NumSubexp, whole.
    do 2 (rewrite match_at_Seq, match_at_Lit; cbv beta).
    rewrite match_at_Seq, match_at_Opt.
    rewrite (match_at_Lit_miss _ "!" d) by by apply digit_not_bang.
    cbn [or_else replicate].
    apply match_at_number_close; [done|done|]. apply found_mention. }
  unfold whole in *. cbn [FindStringSubmatch]. by rewrite Hm.
Qed.

Lemma RoleMention_found (id : N) :
  FindStringSubmatch MentionTypeRole (RoleMention id) = Some [RoleMention id; ID_String id].
Proof.
  destruct (ID_String_digits id) as (d & ds & E & Hd & Hds).
  unfold RoleMention, Sprintf_s. rewrite E.
  change (String.append "<@&" (String.append (String d ds) ">"))
    with (String "<" (String "@" (String "&" (String d (String.append ds ">"))))).
  set (whole := String "<" _).
  assert (match_prefix MentionTypeRole whole = Some [whole; String d ds]) as Hm.
  { unfold match_prefix, MentionTypeRole, Regexp, NumSubexp, whole.
    do 3 (rewrite match_at_Seq, match_at_Lit; cbv beta). cbn [replicate].
    apply match_at_number_close; [done|done|]. apply found_mention. }
  unfold whole in *. cbn [FindStringSubmatch]. by rewrite Hm.
Qed.

Lemma ChannelMention_found (id : N) :
  FindStringSubmatch MentionTypeChannel (ChannelMention id)
  = Some [ChannelMention id; ID_String id].
Proof.
  destruct (ID_String_digits id) as (d & ds & E & Hd & Hds).
  unfold ChannelMention, Sprintf_s. rewrite E.
  change (String.append "<#" (String.append (String d ds) ">"))
    with (String "<" (String "#" (String d (String.append ds ">")))).
  set (whole := String "<" _).
  assert (match_prefix MentionTypeChannel whole = Some [whole; String d ds]) as Hm.
  { unfold match_prefix, MentionTypeChannel, Regexp, NumSubexp, whole.
    do 2 (rewrite match_at_Seq, match_at_Lit; cbv beta). cbn [replicate].
    apply match_at_number_close; [done|done|]. apply found_mention. }
  unfold whole in *. cbn [FindStringSubmatch]. by rewrite Hm.
Qed.

End MentionsSpec.

(** ** The emoji and timestamp mentions *)
Module PatternsSpec.
Import Mentions Patterns MentionsSpec.

Section Equations.
Context {A : Type}.
Implicit Types (k : string -> list (option string) -> option A).
Implicit Types (s rest : string) (caps : list (option string)).

Lemma pmatch_Seq k p1 p2 s caps :
  pmatch (PSeq p1 p2) s caps k = pmatch p1 s caps (fun s' caps' => pmatch p2 s' caps' k).
Proof. reflexivity. Qed.

Lemma pmatch_Opt k p s caps :
  pmatch (POpt p) s caps k = or_else (pmatch p s caps k) (k s caps).
Proof. reflexivity. Qed.

Lemma pmatch_Group k n p s caps :
  pmatch (PGroup n p) s caps k =
  pmatch p s caps (fun s' caps' => k s' (<[n := Some (consumed s s')]> caps')).
Proof. reflexivity. Qed.

Lemma pmatch_Plus k a s caps :
  pmatch (PPlus (PAtom a)) s caps k = plus_loop a k (S (String.length s)) s caps.
Proof. reflexivity. Qed.

Lemma pmatch_Repeat k a lo hi s caps :
  pmatch (PRepeat lo hi (PAtom a)) s caps k = repeat_loop a k hi lo s caps.
Proof. reflexivity. Qed.

Lemma pmatch_Atom_hit k a c s caps :
  atom_matches a c = true -> pmatch (PAtom a) (String c s) caps k = k s caps.
Proof. intros Hc. cbn. by rewrite Hc. Qed.

Lemma pmatch_Atom_miss k a s caps :
  no_atom_ahead a s = true -> pmatch (PAtom a) s caps k = None.
Proof.
  destruct s as [|c s]; [done|]. cbn. by destruct (atom_matches a c).
Qed.

Lemma pmatch_lit k c s caps : pmatch (lit c) (String c s) caps k = k s caps.
Proof. apply pmatch_Atom_hit. cbn. apply Ascii.eqb_refl. Qed.

Lemma pmatch_lit_miss k c c' s caps :
  Ascii.eqb c c' = false -> pmatch (lit c) (String c' s) caps k = None.
Proof. intros Hc. cbn. by rewrite Hc. Qed.

Lemma plus_loop_stop k a fuel rest caps :
  no_atom_ahead a rest = true -> plus_loop a k fuel rest caps = None.
Proof.
  intros Hrest. destruct fuel as [|fuel]; [done|].
  cbn [plus_loop]. by apply pmatch_Atom_miss.
Qed.

(** [a+] takes every character that [a] accepts when what follows then
    matches. *)
Lemma plus_loop_all k a cs : forall c fuel rest caps x,
  atom_matches a c = true -> all_atoms a cs = true -> no_atom_ahead a rest = true ->
  (String.length cs < fuel)%nat ->
  k rest caps = Some x ->
  plus_loop a k fuel (String c (String.append cs rest)) caps = Some x.
Proof.
  induction cs as [|c' cs IH]; intros c fuel rest caps x Hc Hcs Hrest Hfuel Hk.
  - destruct fuel as [|fuel]; [cbn in Hfuel; lia|]. cbn [plus_loop].
    rewrite pmatch_Atom_hit by done. cbv beta.
    rewrite (proj2 (Nat.ltb_lt _ _)) by (cbn; lia).
    change (String.append EmptyString rest) with rest.
    by rewrite plus_loop_stop, Hk.
  - destruct fuel as [|fuel]; [cbn in Hfuel; lia|].
    cbn in Hcs. apply andb_prop in Hcs as [Hc' Hcs].
    cbn [plus_loop]. rewrite pmatch_Atom_hit by done. cbv beta.
    rewrite (proj2 (Nat.ltb_lt _ _)) by (cbn; lia).
    change (String.append (String c' cs) rest) with (String c' (String.append cs rest)).
    rewrite (IH c' fuel rest caps x); [done..| |done]. cbn in Hfuel. lia.
Qed.

Lemma repeat_loop_stop k a hi rest caps :
  no_atom_ahead a rest = true -> repeat_loop a k hi 0 rest caps = k rest caps.
Proof.
  intros Hrest. destruct hi as [|hi]; [done|].
  cbn [repeat_loop]. by rewrite pmatch_Atom_miss.
Qed.

(** [a{lo,hi}] takes every character that [a] accepts, when there are
    between [lo] and [hi] of them and what follows then matches. *)
Lemma repeat_loop_all k a cs : forall hi lo rest caps x,
  all_atoms a cs = true -> no_atom_ahead a rest = true ->
  (lo <= String.length cs <= hi)%nat ->
  k rest caps = Some x ->
  repeat_loop a k hi lo (String.append cs rest) caps = Some x.
Proof.
  induction cs as [|c cs IH]; intros hi lo rest caps x Hcs Hrest Hlen Hk.
  - cbn in Hlen. assert (lo = 0%nat) as -> by lia.
    change (String.append EmptyString rest) with rest. by rewrite repeat_loop_stop.
  - cbn in Hcs. apply andb_prop in Hcs as [Hc Hcs]. cbn in Hlen.
    destruct hi as [|hi]; [lia|].
    change (String.append (String c cs) rest) with (String c (String.append cs rest)).
    cbn [repeat_loop]. rewrite pmatch_Atom_hit by done. cbv beta.
    rewrite (IH hi (Nat.pred lo) rest caps x); [done..| |done]. lia.
Qed.

(** [a{lo,hi}] in front of more than [hi] characters that [a] accepts fails
    when what follows the repetition cannot start with such a character. *)
Lemma repeat_loop_too_long k a hi : forall lo cs rest caps,
  refuses a k -> all_atoms a cs = true -> (hi < String.length cs)%nat ->
  repeat_loop a k hi lo (String.append cs rest) caps = None.
Proof.
  induction hi as [|hi IH]; intros lo cs rest caps Hk Hcs Hlen;
    (destruct cs as [|c cs]; [cbn in Hlen; lia|]);
    cbn in Hcs; apply andb_prop in Hcs as [Hc Hcs];
    change (String.append (String c cs) rest) with (String c (String.append cs rest));
    cbn [repeat_loop].
  - destruct lo; [by apply Hk|done].
  - rewrite pmatch_Atom_hit by done. cbv beta.
    rewrite IH; [|done|done|cbn in Hlen; lia]. cbn [or_else].
    destruct lo; [by apply Hk|done].
Qed.

Lemma repeat_loop_none_ahead k a hi lo rest caps :
  no_atom_ahead a rest = true -> (0 < lo)%nat -> repeat_loop a k hi lo rest caps = None.
Proof.
  intros Hrest Hlo. destruct lo as [|lo]; [lia|]. destruct hi as [|hi]; [done|].
  cbn [repeat_loop]. by rewrite pmatch_Atom_miss.
Qed.

End Equations.

(** A pattern that starts with a literal finds nothing in a text without
    that character. *)
Lemma FindStringSubmatch_lacks (m : MentionPattern) c p s :
  Pattern m = PSeq (lit c) p -> lacks c s = true -> FindStringSubmatch m s = None.
Proof.
  intros Hm. induction s as [|c' s IH]; intros Hs; cbn [FindStringSubmatch];
    unfold pmatch_prefix; rewrite Hm, pmatch_Seq.
  - done.
  - cbn in Hs. apply andb_prop in Hs as [Hc Hs].
    rewrite pmatch_lit_miss by (by destruct (Ascii.eqb c c')). by apply IH.
Qed.

Lemma all_atoms_digits s : all_atoms ADigit s = all_digits s.
Proof. induction s as [|c s IH]; [done|]. cbn. by rewrite IH. Qed.

Lemma lacks_append c s1 s2 :
  lacks c (String.append s1 s2) = lacks c s1 && lacks c s2.
Proof. induction s1 as [|c' s1 IH]; [done|]. simpl. rewrite IH. by rewrite andb_assoc. Qed.

Lemma digits_lack c s : is_digit c = false -> all_digits s = true -> lacks c s = true.
Proof.
  intros Hc. induction s as [|c' s IH]; [done|]. cbn. intros [Hc' Hs]%andb_prop.
  rewrite IH by done. destruct (Ascii.eqb_spec c c') as [->|]; [congruence|done].
Qed.

Local Open Scope string_scope.

Lemma word_not_colon c : is_word c = true -> Ascii.eqb ":" c = false.
Proof.
  intros Hc. destruct (Ascii.eqb_spec ":"%char c) as [<-|]; [|done]. by cbn in Hc.
Qed.

(** [:(\w+):(\d+)>] on a name, a number and a closing bracket. *)
Lemma pmatch_emoji_tail {A : Type} (k : string -> list (option string) -> option A)
    n ns d ds x :
  is_word n = true -> all_atoms AWord ns = true ->
  is_digit d = true -> all_digits ds = true ->
  k EmptyString [None; Some (String n ns); Some (String d ds)] = Some x ->
  pmatch (PSeq (lit ":") (PSeq (PGroup 1 (PPlus (PAtom AWord))) (PSeq (lit ":")
            (PSeq (PGroup 2 (PPlus (PAtom ADigit))) (lit ">")))))
    (String ":" (String n (String.append ns (String ":" (String d (String.append ds ">"))))))
    [None; None; None] k = Some x.
Proof.
  intros Hn Hns Hd Hds Hk.
  rewrite pmatch_Seq, pmatch_lit. cbv beta.
  rewrite pmatch_Seq, pmatch_Group, pmatch_Plus.
  apply plus_loop_all; [done|done|done|cbn [String.length]; rewrite length_append; lia|].
  change (String n (String.append ns ?r)) with (String.append (String n ns) r).
  rewrite consumed_append.
  rewrite pmatch_Seq, pmatch_lit. cbv beta.
  rewrite pmatch_Seq, pmatch_Group, pmatch_Plus.
  apply plus_loop_all;
    [done|by rewrite all_atoms_digits|done|cbn [String.length]; rewrite length_append; lia|].
  rewrite pmatch_lit.
  change (String d (String.append ds ">")) with (String.append (String d ds) ">").
  by rewrite consumed_append.
Qed.

Lemma name_split (name : string) :
  name <> EmptyString -> all_atoms AWord name = true ->
  exists n ns, name = String n ns /\ is_word n = true /\ all_atoms AWord ns = true.
Proof.
  destruct name as [|n ns]; [done|]. intros _ [Hn Hns]%andb_prop. eauto.
Qed.

(** Both emoji formatters are found by the emoji pattern, for a name made
    of word characters: the match is the whole mention, group 1 the name,
    group 2 the id in base ten. *)
Lemma emoji_roundtrip (id : N) (name : string) :
  name <> EmptyString -> all_atoms AWord name = true ->
  FindStringSubmatch MentionTypeEmoji (EmojiMention id name)
  = Some [EmojiMention id name; name; ID_String id] /\
  FindStringSubmatch MentionTypeEmoji (AnimatedEmojiMention id name)
  = Some [AnimatedEmojiMention id name; name; ID_String id].
Proof.
  intros Hne Hname.
  destruct (name_split name Hne Hname) as (n & ns & -> & Hn & Hns).
  destruct (ID_String_digits id) as (d & ds & E & Hd & Hds).
  unfold EmojiMention, AnimatedEmojiMention. rewrite E.
  change (String.append "<:" (String.append (String n ns)
            (String.append ":" (String.append (String d ds) ">"))))
    with (String "<" (String ":" (String n (String.append ns
            (String ":" (String d (String.append ds ">"))))))).
  change (String.append "<a:" (String.append (String n ns)
            (String.append ":" (String.append (String d ds) ">"))))
    with (String "<" (String "a" (String ":" (String n (String.append ns
            (String ":" (String d (String.append ds ">")))))))).
  split.
  - set (whole := String "<" _).
    assert (pmatch_prefix MentionTypeEmoji whole
            = Some [whole; String n ns; String d ds]) as Hm.
    { unfold pmatch_prefix, MentionTypeEmoji, Pattern, Groups, whole.
      rewrite pmatch_Seq, pmatch_lit. cbv beta.
      rewrite pmatch_Seq, pmatch_Opt. rewrite (pmatch_lit_miss _ "a" ":") by done.
      cbn [or_else replicate].
      apply pmatch_emoji_tail; [done..|]. cbv beta. by rewrite consumed_all. }
    unfold whole in *. cbn [FindStringSubmatch]. by rewrite Hm.
  - set (whole := String "<" _).
    assert (pmatch_prefix MentionTypeEmoji whole
            = Some [whole; String n ns; String d ds]) as Hm.
    { unfold pmatch_prefix, MentionTypeEmoji, Pattern, Groups, whole.
      rewrite pmatch_Seq, pmatch_lit. cbv beta.
      rewrite pmatch_Seq, pmatch_Opt, pmatch_lit. cbv beta. cbn [replicate].
      rewrite (pmatch_emoji_tail _ n ns d ds [whole; String n ns; String d ds]);
        [done|done..|]. cbv beta. by rewrite consumed_all. }
    unfold whole in *. cbn [FindStringSubmatch]. by rewrite Hm.
Qed.

(** [%d]: the sign, then the magnitude in base ten. *)
Lemma Itoa_sign (z : Z) :
  Itoa z = if (z <? 0)%Z then String "-" (ID_String (Z.abs_N z)) else ID_String (Z.abs_N z).
Proof. by destruct z. Qed.

Lemma ID_String_lacks c (n : N) : is_digit c = false -> lacks c (ID_String n) = true.
Proof.
  intros Hc. destruct (ID_String_digits n) as (d & ds & -> & Hd & Hds).
  apply digits_lack; [done|]. cbn. by rewrite Hd.
Qed.

Lemma ID_String_all_digits (n : N) : all_digits (ID_String n) = true.
Proof.
  destruct (ID_String_digits n) as (d & ds & -> & Hd & Hds). cbn. by rewrite Hd.
Qed.

Lemma timestamp_rest_refuses {A : Type} (k : string -> list (option string) -> option A) :
  refuses ADigit (fun s' caps' => pmatch timestamp_rest s' caps' k).
Proof.
  intros c s caps Hc. unfold timestamp_rest.
  rewrite pmatch_Seq, pmatch_Opt, pmatch_Seq.
  assert (Ascii.eqb ":" c = false) as Hcolon.
  { destruct (Ascii.eqb_spec ":"%char c) as [<-|]; [by cbn in Hc|done]. }
  assert (Ascii.eqb ">" c = false) as Hgt.
  { destruct (Ascii.eqb_spec ">"%char c) as [<-|]; [by cbn in Hc|done]. }
  by rewrite !pmatch_lit_miss.
Qed.

Lemma digit_not_minus c : is_digit c = true -> Ascii.eqb "-" c = false.
Proof.
  intros Hc. destruct (Ascii.eqb_spec "-"%char c) as [<-|]; [by cbn in Hc|done].
Qed.

(** The time of the timestamp pattern in front of a printed number of at
    most 17 digits: group 1 is the number with its sign. *)
Lemma pmatch_time_ok {A : Type} (k : string -> list (option string) -> option A)
    (ts : Z) rest caps x :
  (String.length (ID_String (Z.abs_N ts)) <= 17)%nat ->
  no_atom_ahead ADigit rest = true ->
  k rest (<[1 := Some (Itoa ts)]> caps) = Some x ->
  pmatch timestamp_time (String.append (Itoa ts) rest) caps k = Some x.
Proof.
  intros Hlen Hrest Hk. unfold timestamp_time.
  rewrite pmatch_Group, pmatch_Seq, pmatch_Opt, pmatch_Repeat.
  rewrite Itoa_sign in *. pose proof (ID_String_all_digits (Z.abs_N ts)) as Hds.
  destruct (ID_String_digits (Z.abs_N ts)) as (d & ds & E & Hd & _).
  rewrite E in *. rewrite <- all_atoms_digits in Hds.
  destruct (ts <? 0)%Z.
  - change (String.append (String "-" ?a) rest) with (String "-" (String.append a rest)).
    rewrite pmatch_lit. cbv beta. rewrite pmatch_Repeat.
    rewrite (repeat_loop_all _ ADigit (String d ds) 17 1 rest caps x);
      [done|done|done|cbn in *; lia|].
    change (String "-" (String.append ?a rest)) with (String.append (String "-" a) rest).
    by rewrite consumed_append.
  - change (String.append (String d ds) rest) with (String d (String.append ds rest)).
    rewrite pmatch_lit_miss by by apply digit_not_minus. cbn [or_else].
    change (String d (String.append ds rest)) with (String.append (String d ds) rest).
    apply repeat_loop_all; [done|done|cbn in *; lia|].
    by rewrite consumed_append.
Qed.

(** The same in front of a printed number of more than 17 digits fails,
    when what follows cannot start with a digit. *)
Lemma pmatch_time_long {A : Type} (k : string -> list (option string) -> option A)
    (ts : Z) rest caps :
  (17 < String.length (ID_String (Z.abs_N ts)))%nat ->
  refuses ADigit k ->
  pmatch timestamp_time (String.append (Itoa ts) rest) caps k = None.
Proof.
  intros Hlen Hk. unfold timestamp_time.
  rewrite pmatch_Group, pmatch_Seq, pmatch_Opt, pmatch_Repeat.
  rewrite Itoa_sign in *. pose proof (ID_String_all_digits (Z.abs_N ts)) as Hds.
  destruct (ID_String_digits (Z.abs_N ts)) as (d & ds & E & Hd & _).
  rewrite E in *. rewrite <- all_atoms_digits in Hds.
  set (k1 := fun (s' : string) (caps' : list (option string)) => k s' _).
  assert (refuses ADigit k1) as Hk1 by (intros c s caps' Hc; by apply Hk).
  destruct (ts <? 0)%Z.
  - change (String.append (String "-" ?a) rest) with (String "-" (String.append a rest)).
    rewrite pmatch_lit. cbv beta. rewrite pmatch_Repeat.
    rewrite repeat_loop_too_long; [|done|done|done].
    cbn [or_else]. by apply repeat_loop_none_ahead; [|lia].
  - change (String.append (String d ds) rest) with (String d (String.append ds rest)).
    rewrite pmatch_lit_miss by by apply digit_not_minus. cbn [or_else].
    change (String d (String.append ds rest)) with (String.append (String d ds) rest).
    by apply repeat_loop_too_long.
Qed.

Lemma timestamp_prefix (ts : Z) (rest : string) :
  pmatch_prefix MentionTypeTimestamp
    (String.append "<t:" (String.append (Itoa ts) rest))
  = pmatch timestamp_time (String.append (Itoa ts) rest) [None; None; None]
      (fun s' caps' =>
         pmatch timestamp_rest s' caps'
           (fun s'' caps'' =>
              Some (consumed (String.append "<t:" (String.append (Itoa ts) rest)) s''
                    :: (group_text <$> drop 1 caps'')))).
Proof.
  unfold pmatch_prefix.
  change (Pattern MentionTypeTimestamp)
    with (PSeq (lit "<") (PSeq (lit "t") (PSeq (lit ":") (PSeq timestamp_time timestamp_rest)))).
  set (k := fun (s' : string) (caps : list (option string)) => Some _).
  change (String.append "<t:" ?r) with (String "<" (String "t" (String ":" r))).
  do 3 (rewrite pmatch_Seq, pmatch_lit; cbv beta). by rewrite pmatch_Seq.
Qed.

Lemma timestamp_tail_lacks (ts : Z) :
  lacks "<" (String.append "t:" (String.append (Itoa ts) ">")) = true.
Proof.
  change (String.append "t:" ?r) with (String "t" (String ":" r)). cbn [lacks].
  rewrite lacks_append, Itoa_sign.
  destruct (ts <? 0)%Z; cbn [lacks]; by rewrite ID_String_lacks.
Qed.

(** [TimestampMention] against the timestamp pattern: found, with the
    printed number as group 1 and no style, when the number has at most 17
    digits; not found at all when it has more. *)
Lemma TimestampMention_digits (ts : Z) :
  ((String.length (ID_String (Z.abs_N ts)) <= 17)%nat ->
   FindStringSubmatch MentionTypeTimestamp (TimestampMention ts)
   = Some [TimestampMention ts; Itoa ts; EmptyString]) /\
  ((17 < String.length (ID_String (Z.abs_N ts)))%nat ->
   FindStringSubmatch MentionTypeTimestamp (TimestampMention ts) = None).
Proof.
  unfold TimestampMention. split; intros Hlen.
  - assert (pmatch_prefix MentionTypeTimestamp
              (String.append "<t:" (String.append (Itoa ts) ">"))
            = Some [String.append "<t:" (String.append (Itoa ts) ">"); Itoa ts; EmptyString])
      as Hm.
    { rewrite timestamp_prefix. apply pmatch_time_ok; [done|done|].
      unfold timestamp_rest. rewrite pmatch_Seq, pmatch_Opt, pmatch_Seq.
      rewrite (pmatch_lit_miss _ ":" ">") by done. cbn [or_else].
      rewrite pmatch_lit. by rewrite consumed_all. }
    destruct (String.append "<t:" (String.append (Itoa ts) ">")) eqn:E;
      cbn [FindStringSubmatch]; by rewrite Hm.
  - assert (pmatch_prefix MentionTypeTimestamp
              (String.append "<t:" (String.append (Itoa ts) ">")) = None) as Hm.
    { rewrite timestamp_prefix. apply pmatch_time_long; [done|].
      apply timestamp_rest_refuses. }
    change (String.append "<t:" ?r) with (String "<" (String.append "t:" r)) in *.
    cbn [FindStringSubmatch]. rewrite Hm.
    apply (FindStringSubmatch_lacks MentionTypeTimestamp "<"
             (PSeq (lit "t") (PSeq (lit ":") (PSeq timestamp_time timestamp_rest))));
      [done|apply timestamp_tail_lacks].
Qed.

(** [FormattedTimestampMention] with one of the seven style letters: found,
    with the printed number as group 1 and the style as group 2, when the
    number has at most 17 digits. *)
Lemma FormattedTimestampMention_digits (ts : Z) (style : ascii) :
  (String.length (ID_String (Z.abs_N ts)) <= 17)%nat ->
  style ∈ ["t"; "T"; "d"; "D"; "f"; "F"; "R"]%char ->
  FindStringSubmatch MentionTypeTimestamp
    (FormattedTimestampMention ts (String style EmptyString))
  = Some [FormattedTimestampMention ts (String style EmptyString); Itoa ts;
          String style EmptyString].
Proof.
  intros Hlen Hstyle. unfold FormattedTimestampMention.
  set (rest := String.append ":" (String.append (String style EmptyString) ">")).
  assert (pmatch_prefix MentionTypeTimestamp
            (String.append "<t:" (String.append (Itoa ts) rest))
          = Some [String.append "<t:" (String.append (Itoa ts) rest); Itoa ts;
                  String style EmptyString]) as Hm.
  { rewrite timestamp_prefix. apply pmatch_time_ok; [done|done|].
    unfold timestamp_rest, rest.
    change (String.append ":" (String.append (String style EmptyString) ">"))
      with (String ":" (String style ">")).
    rewrite pmatch_Seq, pmatch_Opt, pmatch_Seq, pmatch_lit. cbv beta.
    rewrite pmatch_Group, pmatch_Atom_hit.
    2:{ cbn [atom_matches]. apply existsb_exists. exists style. split.
        - by apply list_elem_of_In.
        - apply Ascii.eqb_refl. }
    rewrite pmatch_lit. cbn [or_else].
    rewrite consumed_all.
    change (String style ">") with (String.append (String style EmptyString) ">").
    by rewrite consumed_append. }
  destruct (String.append "<t:" (String.append (Itoa ts) rest)) eqn:E;
    cbn [FindStringSubmatch]; by rewrite Hm.
Qed.

(** *** How many digits a number prints with *)
Lemma of_uint_acc_value (d : Decimal.uint) (acc : positive) :
  (N.pos (Pos.of_uint_acc d acc)
   = N.pos acc * 10 ^ N.of_nat (Decimal.nb_digits d) + Pos.of_uint d)%N.
Proof.
  revert acc. induction d as [|d IH|d IH|d IH|d IH|d IH|d IH|d IH|d IH|d IH|d IH]; intros acc;
    cbn [Pos.of_uint_acc Pos.of_uint Decimal.nb_digits];
    rewrite ?Nat2N.inj_succ, ?N.pow_succ_r', ?N.pow_0_r; [lia|..];
    rewrite !IH; lia.
Qed.

Lemma of_uint_upper (d : Decimal.uint) :
  (Pos.of_uint d < 10 ^ N.of_nat (Decimal.nb_digits d))%N.
Proof.
  induction d as [|d IH|d IH|d IH|d IH|d IH|d IH|d IH|d IH|d IH|d IH];
    cbn [Pos.of_uint Decimal.nb_digits];
    rewrite ?Nat2N.inj_succ, ?N.pow_succ_r', ?N.pow_0_r; [lia|lia|..];
    rewrite of_uint_acc_value; lia.
Qed.

Lemma of_uint_lower (d : Decimal.uint) :
  Decimal.nzhead d = d -> d <> Decimal.Nil ->
  (10 ^ N.of_nat (Decimal.nb_digits d - 1) <= Pos.of_uint d)%N.
Proof.
  destruct d as [|d|d|d|d|d|d|d|d|d|d]; intros Hd Hn; [done|..].
  { exfalso. by apply (nzhead_nonzero (Decimal.D0 d) d). }
  all: cbn [Pos.of_uint Decimal.nb_digits]; rewrite of_uint_acc_value;
    replace (S (Decimal.nb_digits d) - 1)%nat with (Decimal.nb_digits d) by lia;
    pose proof (N.pow_nonzero 10 (N.of_nat (Decimal.nb_digits d))); lia.
Qed.

Lemma string_of_uint_length (d : Decimal.uint) :
  String.length (NilZero.string_of_uint d) = Nat.max 1 (Decimal.nb_digits d).
Proof.
  assert (forall d, String.length (NilEmpty.string_of_uint d) = Decimal.nb_digits d) as Hd.
  { clear. induction d; cbn; congruence. }
  destruct d; cbn [NilZero.string_of_uint]; rewrite ?Hd; cbn; lia.
Qed.

(** A number prints with at most [k] digits exactly when it is below
    [10 ^ k]. *)
Lemma ID_String_length (n : N) (k : nat) :
  (0 < k)%nat ->
  (String.length (ID_String n) <= k)%nat <-> (n < 10 ^ N.of_nat k)%N.
Proof.
  intros Hk. unfold ID_String. rewrite string_of_uint_length.
  pose proof (DecimalN.Unsigned.of_to n) as Hn.
  pose proof (DecimalN.Unsigned.to_of (N.to_uint n)) as Hu. rewrite Hn in Hu.
  set (d := N.to_uint n) in *. unfold N.of_uint in Hn.
  split.
  - intros Hlen. rewrite <- Hn.
    eapply N.lt_le_trans; [apply of_uint_upper|].
    apply N.pow_le_mono_r; lia.
  - intros Hlt. destruct (decide (n = 0%N)) as [->|Hn0].
    { subst d. cbn. lia. }
    assert (Decimal.nzhead d = d /\ d <> Decimal.Nil) as [Hz Hnil].
    { clearbody d. unfold Decimal.unorm in Hu. destruct (Decimal.nzhead d) eqn:E;
        [rewrite Hu in Hn; cbn in Hn; lia|by rewrite Hu..]. }
    pose proof (of_uint_lower d Hz Hnil) as Hlow. rewrite Hn in Hlow.
    destruct (decide (Decimal.nb_digits d <= k)%nat); [lia|].
    assert (10 ^ N.of_nat k <= 10 ^ N.of_nat (Decimal.nb_digits d - 1))%N.
    { apply N.pow_le_mono_r; lia. }
    lia.
Qed.

(** The digits of a timestamp number 17 at most: its magnitude is below
    [10 ^ 17]. *)
Lemma timestamp_digits (ts : Z) :
  (String.length (ID_String (Z.abs_N ts)) <= 17)%nat <-> (Z.abs ts < 10 ^ 17)%Z.
Proof.
  rewrite ID_String_length by lia. rewrite <- N2Z.inj_abs_N. lia.
Qed.

(** *** The two matchers agree on the syntax they share *)
Lemma pmatch_of_regex {A : Type} (r : regex) :
  forall (s : string) (caps : list (option string))
         (k1 k2 : string -> list (option string) -> option A),
    (forall s' caps', k1 s' caps' = k2 s' caps') ->
    pmatch (of_regex r) s caps k1 = match_at r s caps k2.
Proof.
  induction r as [c| |r1 IH1 r2 IH2|r1 IH1|r1 IH1|n r1 IH1]; intros s caps k1 k2 Hk.
  - destruct s as [|c' s]; [done|]. cbn. by rewrite Hk.
  - destruct s as [|c' s]; [done|]. cbn. by rewrite Hk.
  - cbn [of_regex pmatch match_at]. apply IH1. intros s' caps'. by apply IH2.
  - cbn [of_regex pmatch match_at]. by rewrite (IH1 s caps k1 k2 Hk), Hk.
  - pose (loop1 := fix loop (fuel : nat) (s : string) (caps : list (option string))
        : option A :=
        match fuel with
        | O => None
        | S fuel =>
            pmatch (of_regex r1) s caps (fun s' caps' =>
              if (String.length s' <? String.length s)%nat
              then or_else (loop fuel s' caps') (k1 s' caps')
              else k1 s' caps')
        end).
    pose (loop2 := fix loop (fuel : nat) (s : string) (caps : list (option string))
        : option A :=
        match fuel with
        | O => None
        | S fuel =>
            match_at r1 s caps (fun s' caps' =>
              if (String.length s' <? String.length s)%nat
              then or_else (loop fuel s' caps') (k2 s' caps')
              else k2 s' caps')
        end).
    change (loop1 (S (String.length s)) s caps = loop2 (S (String.length s)) s caps).
    generalize (S (String.length s)). intros fuel. revert s caps.
    induction fuel as [|fuel IHf]; intros s caps; [done|].
    cbn [loop1 loop2]. apply IH1. intros s' caps'. fold loop1 loop2. by rewrite IHf, Hk.
  - cbn [of_regex pmatch match_at]. apply IH1. intros s' caps'. by rewrite Hk.
Qed.

(** Read in the richer syntax, the user, role and channel patterns find
    what they find in their own. *)
Lemma FindStringSubmatch_of_regex (m : MentionType) (s : string) :
  FindStringSubmatch {| Pattern := of_regex (Regexp m); Groups := NumSubexp m |} s
  = Mentions.FindStringSubmatch m s.
Proof.
  induction s as [|c s IH]; cbn [FindStringSubmatch Mentions.FindStringSubmatch];
    unfold pmatch_prefix, match_prefix; cbn [Pattern Groups];
    rewrite (pmatch_of_regex (Regexp m) _ _ _
               (fun s' caps => Some (consumed _ s' :: (group_text <$> drop 1 caps))))
      by done.
  - done.
  - by rewrite IH.
Qed.

End PatternsSpec.

(** ** The user, role and channel mentions are told apart *)
Module MentionKinds.
Import Mentions MentionsSpec.

Local Open Scope string_scope.

(** A pattern that starts with a literal finds nothing in a text without
    that character. *)
Lemma FindStringSubmatch_without (m : MentionType) c r s :
  Regexp m = Seq (Lit c) r -> Patterns.lacks c s = true ->
  Mentions.FindStringSubmatch m s = None.
Proof.
  intros Hm. induction s as [|c' s IH]; intros Hs; cbn [Mentions.FindStringSubmatch];
    unfold match_prefix; rewrite Hm, match_at_Seq.
  - done.
  - cbn in Hs. apply andb_prop in Hs as [Hc Hs].
    rewrite match_at_Lit_miss by (by destruct (Ascii.eqb c c')). by apply IH.
Qed.

Lemma FindStringSubmatch_cons (m : MentionType) c s :
  Mentions.FindStringSubmatch m (String c s) =
  match match_prefix m (String c s) with
  | Some r => Some r
  | None => Mentions.FindStringSubmatch m s
  end.
Proof. reflexivity. Qed.

(** A text whose front the pattern does not match and whose rest lacks the
    first character of the pattern. *)
Lemma FindStringSubmatch_front (m : MentionType) c r c' s :
  Regexp m = Seq (Lit c) r -> Patterns.lacks c s = true ->
  match_at (Regexp m) (String c' s) (replicate (S (NumSubexp m)) None)
    (fun s' caps => Some (consumed (String c' s) s' :: (group_text <$> drop 1 caps))) = None ->
  Mentions.FindStringSubmatch m (String c' s) = None.
Proof.
  intros Hm Hs Hfront. rewrite FindStringSubmatch_cons. unfold match_prefix.
  rewrite Hfront. by apply (FindStringSubmatch_without m c r).
Qed.

Lemma digit_not c d : is_digit c = false -> is_digit d = true -> Ascii.eqb c d = false.
Proof. intros Hc Hd. destruct (Ascii.eqb_spec c d) as [->|]; [congruence|done]. Qed.

(** The text of a mention behind its opening bracket holds no other. *)
Lemma mention_tail_lacks (mark : string) (id : N) :
  Patterns.lacks "<" mark = true ->
  Patterns.lacks "<" (String.append mark (String.append (ID_String id) ">")) = true.
Proof.
  intros Hm. rewrite !PatternsSpec.lacks_append, Hm, PatternsSpec.ID_String_lacks by done.
  done.
Qed.

Lemma UserMention_not_other (id : N) :
  Mentions.FindStringSubmatch MentionTypeRole (UserMention id) = None /\
  Mentions.FindStringSubmatch MentionTypeChannel (UserMention id) = None.
Proof.
  destruct (ID_String_digits id) as (d & ds & E & Hd & Hds).
  pose proof (mention_tail_lacks "@" id eq_refl) as Htail.
  unfold UserMention, Sprintf_s. rewrite E in *.
  change (String.append "<@" (String.append (String d ds) ">"))
    with (String "<" (String "@" (String d (String.append ds ">")))).
  change (String.append "@" (String.append (String d ds) ">"))
    with (String "@" (String d (String.append ds ">"))) in Htail.
  split.
  - apply (FindStringSubmatch_front MentionTypeRole "<" _ _ _ eq_refl); [done|].
    set (k := fun (s' : string) (caps : list (option string)) => Some _).
    change (Regexp MentionTypeRole)
      with (Seq (Lit "<") (Seq (Lit "@") (Seq (Lit "&")
              (Seq (Group 1 (Plus Digit)) (Lit ">"))))).
    do 2 (rewrite match_at_Seq, match_at_Lit; cbv beta).
    by rewrite match_at_Seq, match_at_Lit_miss by (by apply digit_not).
  - apply (FindStringSubmatch_front MentionTypeChannel "<" _ _ _ eq_refl); [done|].
    set (k := fun (s' : string) (caps : list (option string)) => Some _).
    change (Regexp MentionTypeChannel)
      with (Seq (Lit "<") (Seq (Lit "#") (Seq (Group 1 (Plus Digit)) (Lit ">")))).
    rewrite match_at_Seq, match_at_Lit; cbv beta.
    by rewrite match_at_Seq, match_at_Lit_miss.
Qed.

Lemma RoleMention_not_other (id : N) :
  Mentions.FindStringSubmatch MentionTypeUser (RoleMention id) = None /\
  Mentions.FindStringSubmatch MentionTypeChannel (RoleMention id) = None.
Proof.
  pose proof (mention_tail_lacks "@&" id eq_refl) as Htail.
  unfold RoleMention, Sprintf_s.
  change (String.append "<@&" (String.append (ID_String id) ">"))
    with (String "<" (String "@" (String "&" (String.append (ID_String id) ">")))).
  change (String.append "@&" (String.append (ID_String id) ">"))
    with (String "@" (String "&" (String.append (ID_String id) ">"))) in Htail.
  split.
  - apply (FindStringSubmatch_front MentionTypeUser "<" _ _ _ eq_refl); [done|].
    set (k := fun (s' : string) (caps : list (option string)) => Some _).
    change (Regexp MentionTypeUser)
      with (Seq (Lit "<") (Seq (Lit "@") (Seq (Opt (Lit "!"))
              (Seq (Group 1 (Plus Digit)) (Lit ">"))))).
    do 2 (rewrite match_at_Seq, match_at_Lit; cbv beta).
    rewrite match_at_Seq, match_at_Opt, match_at_Lit_miss by done. cbn [or_else].
    by rewrite match_at_Seq, match_at_Group, match_at_Plus_Digit, digits_loop_stop.
  - apply (FindStringSubmatch_front MentionTypeChannel "<" _ _ _ eq_refl); [done|].
    set (k := fun (s' : string) (caps : list (option string)) => Some _).
    change (Regexp MentionTypeChannel)
      with (Seq (Lit "<") (Seq (Lit "#") (Seq (Group 1 (Plus Digit)) (Lit ">")))).
    rewrite match_at_Seq, match_at_Lit; cbv beta.
    by rewrite match_at_Seq, match_at_Lit_miss.
Qed.

Lemma ChannelMention_not_other (id : N) :
  Mentions.FindStringSubmatch MentionTypeUser (ChannelMention id) = None /\
  Mentions.FindStringSubmatch MentionTypeRole (ChannelMention id) = None.
Proof.
  pose proof (mention_tail_lacks "#" id eq_refl) as Htail.
  unfold ChannelMention, Sprintf_s.
  change (String.append "<#" (String.append (ID_String id) ">"))
    with (String "<" (String "#" (String.append (ID_String id) ">"))).
  change (String.append "#" (String.append (ID_String id) ">"))
    with (String "#" (String.append (ID_String id) ">")) in Htail.
  split.
  - apply (FindStringSubmatch_front MentionTypeUser "<" _ _ _ eq_refl); [done|].
    set (k := fun (s' : string) (caps : list (option string)) => Some _).
    change (Regexp MentionTypeUser)
      with (Seq (Lit "<") (Seq (Lit "@") (Seq (Opt (Lit "!"))
              (Seq (Group 1 (Plus Digit)) (Lit ">"))))).
    rewrite match_at_Seq, match_at_Lit; cbv beta.
    by rewrite match_at_Seq, match_at_Lit_miss.
  - apply (FindStringSubmatch_front MentionTypeRole "<" _ _ _ eq_refl); [done|].
    set (k := fun (s' : string) (caps : list (option string)) => Some _).
    change (Regexp MentionTypeRole)
      with (Seq (Lit "<") (Seq (Lit "@") (Seq (Lit "&")
              (Seq (Group 1 (Plus Digit)) (Lit ">"))))).
    rewrite match_at_Seq, match_at_Lit; cbv beta.
    by rewrite match_at_Seq, match_at_Lit_miss.
Qed.

End MentionKinds.

(** ** Package core: [Get], [Put], [Remove], [RemoveAll], by way of package
    cache *)
Module CoreSpec.
Import Go GoFacts Inv Ops Equiv.

Section Spec.
Context {K : Type} `{Countable K} {T : Type} `{!Zero T} `{!RangeOrder K}.
Implicit Types (s : Core.state K T) (g id : K) (e : T).

Lemma of_to_core_state (s : Cache.state K T) : of_core_state (to_core_state s) = s.
Proof. by destruct s as [[] h]. Qed.

Lemma Get_eq s g id : Core.Get s g id = Cache.Get (of_core_state s) g id.
Proof. by destruct s. Qed.

Lemma Put_eq s g id e :
  Core.Put s g id e = to_core_state (Cache.Put (of_core_state s) g id e).
Proof.
  rewrite <- (to_of_core_state s) at 1. destruct (of_core_state s) as [c h].
  apply Put_agree.
Qed.

Lemma Remove_eq s g id :
  Core.Remove s g id =
  ((Cache.Remove (of_core_state s) g id).1,
   to_core_state (Cache.Remove (of_core_state s) g id).2).
Proof.
  rewrite <- (to_of_core_state s) at 1. destruct (of_core_state s) as [c h].
  apply Remove_agree.
Qed.

Lemma RemoveAll_eq s g :
  Core.RemoveAll s g = to_core_state (Cache.RemoveAll (of_core_state s) g).
Proof.
  rewrite <- (to_of_core_state s) at 1. destruct (of_core_state s) as [c h].
  apply RemoveAll_agree.
Qed.

Lemma rejected_eq s e : core_rejected s.1 e <-> rejected (of_core_state s).1 e.
Proof. by destruct s as [[] h]. Qed.

Lemma accepted_eq s e : core_accepted s.1 e <-> accepted (of_core_state s).1 e.
Proof. by destruct s as [[] h]. Qed.

Lemma wf_eq s : core_wf s <-> wf (of_core_state s).
Proof. by destruct s as [[] h]. Qed.

Lemma core_rejected_Put s g id e : core_rejected s.1 e -> Core.Put s g id e = s.
Proof.
  intros Hr%rejected_eq. rewrite Put_eq, CacheSpec.rejected_Put by done.
  apply to_of_core_state.
Qed.

Lemma core_Put_Get s g id e : core_accepted s.1 e -> Core.Get (Core.Put s g id e) g id = (e, true).
Proof.
  intros Ha%accepted_eq. rewrite Put_eq, Get_eq, of_to_core_state.
  by apply CacheSpec.Put_Get.
Qed.

Lemma core_Put_bucket s g id e :
  core_accepted s.1 e ->
  is_Some (index_group (Core.Put s g id e).2 (Core.cache (Core.Put s g id e).1) g).
Proof.
  intros Ha%accepted_eq. rewrite Put_eq.
  by apply (CacheSpec.Put_bucket (of_core_state s) g id e).
Qed.

Lemma core_Put_Get_other s g id e g' id' :
  core_wf s -> (g', id') <> (g, id) ->
  Core.Get (Core.Put s g id e) g' id' = Core.Get s g' id'.
Proof.
  intros Hwf%wf_eq Hne. rewrite Put_eq, !Get_eq, of_to_core_state.
  by apply CacheSpec.Put_Get_other.
Qed.

Lemma core_Put_Put s g id e : Core.Put (Core.Put s g id e) g id e = Core.Put s g id e.
Proof.
  rewrite (Put_eq (Core.Put s g id e)), (Put_eq s), of_to_core_state.
  by rewrite CacheSpec.Put_Put.
Qed.

Lemma core_Remove_present s g id e :
  Core.Get s g id = (e, true) ->
  (Core.Remove s g id).1 = (e, true) /\
  Core.Get (Core.Remove s g id).2 g id = (zero, false).
Proof.
  rewrite Get_eq. intros [Hr Hg]%CacheSpec.Remove_present.
  rewrite Remove_eq; cbn [fst snd]. by rewrite Get_eq, of_to_core_state.
Qed.

Lemma core_Remove_absent s g id :
  (Core.Get s g id).2 = false -> Core.Remove s g id = ((zero, false), s).
Proof.
  rewrite Get_eq. intros Hr%CacheSpec.Remove_absent.
  rewrite Remove_eq, Hr; cbn [fst snd]. by rewrite to_of_core_state.
Qed.

Lemma core_RemoveAll_Get s g id : Core.Get (Core.RemoveAll s g) g id = (zero, false).
Proof.
  rewrite RemoveAll_eq, Get_eq, of_to_core_state. apply CacheSpec.RemoveAll_Get.
Qed.

Lemma core_RemoveAll_Get_other s g g' id :
  g' <> g -> Core.Get (Core.RemoveAll s g) g' id = Core.Get s g' id.
Proof.
  intros Hne. rewrite RemoveAll_eq, !Get_eq, of_to_core_state.
  by apply CacheSpec.RemoveAll_Get_other.
Qed.

End Spec.
End CoreSpec.

(** ** What the enumerations return *)
Module EnumSpec.
Import Go GoFacts Inv Enum.

Section Loops.
Context {K : Type} `{Countable K} {T : Type} `{!RangeOrder K}.
Implicit Types (h : heap K T) (sl r : positive).

Lemma slice_frame_refl sl h : slice_frame sl h h.
Proof. by unfold slice_frame. Qed.

Lemma slice_frame_append sl h h' (e : T) :
  slice_frame sl h h' -> slice_frame sl h (slice_append h' sl e).
Proof.
  intros (Hg & He & Hm & Hn & Hs). unfold slice_frame, slice_append; cbn.
  split_and!; try done. intros sl' Hne. rewrite lookup_insert_ne by done. by apply Hs.
Qed.

Lemma slice_at_append h sl (e : T) :
  slice_at (slice_append h sl e) sl = slice_at h sl ++ [e].
Proof. unfold slice_at at 1, slice_append; cbn. by rewrite lookup_insert_eq. Qed.

(** The loop of [GroupAll]: one append per listed entry. *)
Lemma append_loop (es : list (K * T)) : forall h sl,
  let h' := foldl (fun h '(_, entity) => slice_append h sl entity) h es in
  slice_at h' sl = slice_at h sl ++ es.*2 /\ slice_frame sl h h'.
Proof.
  induction es as [|[id e] es IH]; intros h sl; cbn [foldl].
  - split; [by rewrite app_nil_r|apply slice_frame_refl].
  - destruct (IH (slice_append h sl e) sl) as [Hs Hf]. split.
    + rewrite Hs, slice_at_append, <- app_assoc. done.
    + destruct Hf as (Hg & He & Hm & Hn & Hf). unfold slice_frame. split_and!; try done.
      intros sl' Hne. rewrite Hf by done. unfold slice_append; cbn.
      by rewrite lookup_insert_ne.
Qed.

(** The loops of [GroupFindAll] and of [FindAll] within one group. *)
Lemma filter_loop (f : T -> bool) (es : list (K * T)) : forall h sl,
  let h' := foldl (fun h '(_, entity) =>
                     if f entity then slice_append h sl entity else h) h es in
  slice_at h' sl = slice_at h sl ++ (filter (fun x => f x.2) es).*2 /\ slice_frame sl h h'.
Proof.
  induction es as [|[id e] es IH]; intros h sl; cbn [foldl].
  - split; [by rewrite app_nil_r|apply slice_frame_refl].
  - rewrite filter_cons. cbn [snd]. destruct (f e) eqn:Hf.
    + destruct (IH (slice_append h sl e) sl) as [Hs Hfr]. rewrite decide_True by done. split.
      * rewrite Hs, slice_at_append, <- app_assoc. done.
      * destruct Hfr as (Hg & He & Hm & Hn & Hfr). unfold slice_frame. split_and!; try done.
        intros sl' Hne. rewrite Hfr by done. unfold slice_append; cbn.
        by rewrite lookup_insert_ne.
    + rewrite decide_False by (cbn; tauto). apply IH.
Qed.

Lemma entities_at_slice_frame sl h h' r :
  slice_frame sl h h' -> entities_at h' r = entities_at h r.
Proof. intros (Hg & He & _). unfold entities_at. by rewrite He. Qed.

Lemma groups_at_slice_frame sl h h' r :
  slice_frame sl h h' -> groups_at h' r = groups_at h r.
Proof. intros (Hg & He & _). unfold groups_at. by rewrite Hg. Qed.

Lemma slice_frame_trans sl h1 h2 h3 :
  slice_frame sl h1 h2 -> slice_frame sl h2 h3 -> slice_frame sl h1 h3.
Proof.
  intros (Hg & He & Hm & Hn & Hs) (Hg' & He' & Hm' & Hn' & Hs').
  unfold slice_frame. split_and!; try congruence.
  intros sl' Hne. by rewrite Hs', Hs.
Qed.

(** The loop of [FindAll] over the listed groups. *)
Lemma FindAll_loop (f : K -> T -> bool) (gs : list (K * positive)) : forall h sl,
  let h' := foldl (fun h '(groupID, groupEntities) =>
                     foldl (fun h '(_, entity) =>
                              if f groupID entity then slice_append h sl entity else h)
                           h (range (entities_at h groupEntities))) h gs in
  slice_at h' sl =
    slice_at h sl ++
    ('(g, b) ← gs; (filter (fun x => f g x.2) (range (entities_at h b))).*2) /\
  slice_frame sl h h'.
Proof.
  induction gs as [|[g b] gs IH]; intros h sl; cbn [foldl].
  - split; [by rewrite app_nil_r|apply slice_frame_refl].
  - destruct (filter_loop (f g) (range (entities_at h b)) h sl) as [Hs Hf].
    set (h1 := foldl _ h (range (entities_at h b))) in *.
    destruct (IH h1 sl) as [Hs' Hf']. split.
    + rewrite Hs', Hs, <- app_assoc. f_equal. cbn. f_equal.
      apply list_bind_ext; [|done]. intros [g' b'].
      by rewrite (entities_at_slice_frame sl h h1).
    + by apply (slice_frame_trans sl h h1).
Qed.

(** *** Reading a cache *)

Lemma contents_in_lookup h (m : option positive) g :
  contents_in h m !! g = entities_at h <$> index_group h m g.
Proof. destruct m as [r|]; cbn; [by rewrite lookup_fmap|by rewrite lookup_empty]. Qed.

Lemma stored_in_contents h (m : option positive) g id :
  stored_in h m g id = contents_in h m !! g ≫= (.!! id).
Proof.
  unfold stored_in. rewrite contents_in_lookup. by destruct (index_group h m g).
Qed.

Lemma range_values (m : gmap K T) : (range m).*2 ≡ₚ values m.
Proof. unfold values. by rewrite (range_perm T m). Qed.

Lemma elem_of_range {V : Type} (m : gmap K V) k v : (k, v) ∈ range m <-> m !! k = Some v.
Proof. rewrite (range_perm V m). apply elem_of_map_to_list. Qed.

Lemma elem_of_range_values (m : gmap K T) e : e ∈ (range m).*2 <-> exists id, m !! id = Some e.
Proof.
  rewrite list_elem_of_fmap. split.
  - intros ([id e'] & -> & Hin). exists id. by apply elem_of_range.
  - intros [id Hid]. exists (id, e). split; [done|]. by apply elem_of_range.
Qed.

Lemma elem_of_values (m : gmap K T) e : e ∈ values m <-> exists id, m !! id = Some e.
Proof. rewrite <- range_values. apply elem_of_range_values. Qed.

Lemma contents_in_slice_frame sl h h' (m : option positive) :
  slice_frame sl h h' -> contents_in h' m = contents_in h m.
Proof.
  intros Hf. destruct m as [r|]; [|done]. cbn.
  rewrite (groups_at_slice_frame sl h h') by done.
  apply map_fmap_ext. intros g b _. by apply (entities_at_slice_frame sl).
Qed.

Lemma contents_in_same_maps h h' (m : option positive) :
  group_maps h' = group_maps h -> entity_maps h' = entity_maps h ->
  contents_in h' m = contents_in h m.
Proof.
  intros Hg He. unfold contents_in, groups_at. rewrite Hg. destruct m as [r|]; [|done].
  apply map_fmap_ext. intros g b _. unfold entities_at. by rewrite He.
Qed.

Lemma bind_Permutation2 {A B : Type} (k1 k2 : A -> list B) (l1 l2 : list A) :
  l1 ≡ₚ l2 -> (forall x, k1 x ≡ₚ k2 x) -> l1 ≫= k1 ≡ₚ l2 ≫= k2.
Proof.
  intros Hl Hk. rewrite <- Hl. clear Hl l2.
  induction l1 as [|x l1 IH]; [done|]. cbn. by rewrite IH, Hk.
Qed.

(** The loops meet every stored entry once. *)
Lemma visits_entries h (m : option positive) : visits h m ≡ₚ entries_in h m.
Proof.
  unfold visits, entries_in. destruct m as [r|]; cbn [range_groups contents_in].
  - rewrite (map_to_list_fmap (entities_at h) (groups_at h r)).
    rewrite (range_perm _ (groups_at h r)).
    induction (map_to_list (groups_at h r)) as [|[g b] l IH]; [done|].
    cbn. rewrite IH. apply Permutation_app; [|done].
    rewrite <- range_values, <- list_fmap_compose. done.
  - by rewrite map_to_list_empty.
Qed.

Lemma elem_of_entries_in h (m : option positive) g e :
  (g, e) ∈ entries_in h m <-> exists id, stored_in h m g id = Some e.
Proof.
  unfold entries_in. rewrite list_elem_of_bind. split.
  - intros ([g' b] & Hin & Hb%elem_of_map_to_list).
    apply list_elem_of_fmap in Hin as (e' & [= -> ->] & [id Hid]%elem_of_values).
    exists id. by rewrite stored_in_contents, Hb.
  - intros [id Hid]. rewrite stored_in_contents in Hid.
    destruct (contents_in h m !! g) as [b|] eqn:Hb; [|done]. cbn in Hid.
    exists (g, b). split; [|by apply elem_of_map_to_list].
    apply list_elem_of_fmap. exists e. split; [done|]. apply elem_of_values. eauto.
Qed.

Lemma filter_visits (f : K -> T -> bool) h (gs : list (K * positive)) :
  ('(g, b) ← gs; (filter (fun x => f g x.2) (range (entities_at h b))).*2)
  = (filter (fun ge => f ge.1 ge.2)
       ('(g, b) ← gs; (fun x => (g, x.2)) <$> range (entities_at h b))).*2.
Proof.
  induction gs as [|[g b] gs IH]; [done|].
  cbn. rewrite filter_app, fmap_app, <- IH. f_equal.
  induction (range (entities_at h b)) as [|[id e] l IHl]; [done|].
  rewrite fmap_cons, !filter_cons. cbn [fst snd].
  destruct (f g e).
  - rewrite !decide_True by done. rewrite !fmap_cons. cbn [snd]. by rewrite IHl.
  - rewrite !decide_False by (cbn; tauto). done.
Qed.

End Loops.

Section Results.
Context {K : Type} `{Countable K} {T : Type} `{!Zero T} `{!RangeOrder K}.
Implicit Types (s : Cache.state K T) (c : Cache.DefaultGroupedCache T) (h : heap K T).

Lemma GroupAll_unfold c h g :
  Cache.GroupAll (c, h) g =
  match index_group h (Cache.cache c) g with
  | None => (VNil, (c, h))
  | Some b =>
      (VSlice (next h),
       (c, foldl (fun h0 '(_, entity) => slice_append h0 (next h) entity)
                 (make_slice h).2 (range (entities_at h b))))
  end.
Proof.
  unfold Cache.GroupAll. destruct (index_group h (Cache.cache c) g); [|done].
  unfold make_slice, entities_at. reflexivity.
Qed.

(** [GroupAll]: nil for a group without a bucket; otherwise a slice with
    the entities of the group, each stored id once, in some order.  The
    cache holds what it held. *)
Lemma GroupAll_spec s g :
  match contents s !! g with
  | None => Cache.GroupAll s g = (VNil, s)
  | Some m =>
      exists l, read_slice (Cache.GroupAll s g).2.2 (Cache.GroupAll s g).1 = Some l /\
                l ≡ₚ values m
  end /\
  contents (Cache.GroupAll s g).2 = contents s.
Proof.
  destruct s as [c h]. unfold contents; cbn [fst snd].
  rewrite contents_in_lookup, GroupAll_unfold.
  destruct (index_group h (Cache.cache c) g) as [b|]; cbn [fmap option_fmap option_map fst snd];
    [|done].
  destruct (append_loop (range (entities_at h b)) (make_slice h).2 (next h))
    as [Hs (Hg & He & _)].
  split.
  - eexists. split; [reflexivity|]. cbn [read_slice]. rewrite Hs.
    unfold slice_at at 1, make_slice; cbn. rewrite lookup_insert_eq. cbn.
    apply range_values.
  - by apply contents_in_same_maps.
Qed.

Lemma elem_of_entries s g e :
  (g, e) ∈ entries_in s.2 (Cache.cache s.1) <-> exists id, Cache.Get s g id = (e, true).
Proof.
  rewrite elem_of_entries_in. by setoid_rewrite CacheSweep.Get_found.
Qed.

Lemma FindAll_unfold c h (f : K -> T -> bool) :
  Cache.FindAll (c, h) f =
  (VSlice (next h),
   (c, foldl (fun h0 '(groupID, groupEntities) =>
                foldl (fun h1 '(_, entity) =>
                         if f groupID entity then slice_append h1 (next h) entity else h1)
                      h0 (range (entities_at h0 groupEntities)))
             (make_slice h).2 (range_groups h (Cache.cache c)))).
Proof. reflexivity. Qed.

(** [FindAll]: never nil; the slice holds the entities that the filter
    picks, one per stored id, in some order. *)
Lemma FindAll_spec s (f : K -> T -> bool) :
  exists l,
    read_slice (Cache.FindAll s f).2.2 (Cache.FindAll s f).1 = Some l /\
    l ≡ₚ (filter (fun ge => f ge.1 ge.2) (entries_in s.2 (Cache.cache s.1))).*2 /\
    (forall e, e ∈ l <-> exists g id, Cache.Get s g id = (e, true) /\ f g e = true) /\
    contents (Cache.FindAll s f).2 = contents s.
Proof.
  destruct s as [c h]. rewrite FindAll_unfold. cbn [fst snd read_slice].
  destruct (FindAll_loop f (range_groups h (Cache.cache c)) (make_slice h).2 (next h))
    as [Hs (Hg & He & _)].
  eexists. split; [reflexivity|].
  assert (slice_at (make_slice h).2 (next h) = []) as Hnil.
  { unfold slice_at, make_slice; cbn. by rewrite lookup_insert_eq. }
  rewrite Hs, Hnil, app_nil_l.
  assert (('(g, b) ← range_groups h (Cache.cache c);
           (filter (fun x => f g x.2) (range (entities_at (make_slice h).2 b))).*2)
          ≡ₚ (filter (fun ge => f ge.1 ge.2) (entries_in h (Cache.cache c))).*2) as Hperm.
  { change (entities_at (make_slice h).2) with (entities_at h).
    rewrite filter_visits. fold (visits h (Cache.cache c)). by rewrite visits_entries. }
  split_and!; [done| |by apply contents_in_same_maps].
  intros e. rewrite Hperm, list_elem_of_fmap. split.
  - intros ([g e'] & -> & [Hf Hin]%list_elem_of_filter). cbn in *.
    apply (elem_of_entries (c, h)) in Hin as [id Hid]. exists g, id. split; [done|].
    by apply Is_true_true.
  - intros (g & id & Hid & Hf). exists (g, e). split; [done|].
    apply list_elem_of_filter. split; [cbn; by rewrite Hf|].
    apply (elem_of_entries (c, h)). eauto.
Qed.

(** [ForEach] calls back once per stored id, with the group and the entity,
    and threads the caller's state through the calls. *)
Lemma ForEach_spec s :
  visits s.2 (Cache.cache s.1) ≡ₚ entries_in s.2 (Cache.cache s.1) /\
  forall (A : Type) (f : K -> T -> A -> A) (a : A),
    Cache.ForEach s f a = foldl (fun a ge => f ge.1 ge.2 a) a (visits s.2 (Cache.cache s.1)).
Proof.
  split; [apply visits_entries|]. intros A f a. destruct s as [c h].
  unfold Cache.ForEach, visits; cbn [fst snd].
  revert a. induction (range_groups h (Cache.cache c)) as [|[g b] gs IH]; intros a; [done|].
  cbn [foldl mbind list_bind]. rewrite foldl_app, <- IH. f_equal.
  generalize (range (entities_at h b)). intros l. revert a.
  induction l as [|[id e] l IHl]; intros a; [done|]. cbn. apply IHl.
Qed.

Lemma range_entities_contents h (m : option positive) g :
  (range_entities h (index_group h m g)).*2 ≡ₚ
  match contents_in h m !! g with Some b => values b | None => [] end.
Proof.
  rewrite contents_in_lookup. destruct (index_group h m g) as [b|]; cbn; [|done].
  apply range_values.
Qed.

(** [GroupFindAll]: never nil, also for a group without a bucket; the slice
    holds the entities of the group that the filter picks. *)
Lemma GroupFindAll_spec s g (f : K -> T -> bool) :
  exists l,
    read_slice (Cache.GroupFindAll s g f).2.2 (Cache.GroupFindAll s g f).1 = Some l /\
    (forall e, e ∈ l <-> exists id, Cache.Get s g id = (e, true) /\ f g e = true) /\
    length l <= match contents s !! g with Some b => size b | None => 0 end /\
    contents (Cache.GroupFindAll s g f).2 = contents s.
Proof.
  destruct s as [c h].
  assert (Cache.GroupFindAll (c, h) g f =
          (VSlice (next h),
           (c, foldl (fun h0 '(_, entity) =>
                        if f g entity then slice_append h0 (next h) entity else h0)
                     (make_slice h).2 (range_entities h (index_group h (Cache.cache c) g)))))
    as -> by reflexivity.
  cbn [fst snd read_slice].
  destruct (filter_loop (f g) (range_entities h (index_group h (Cache.cache c) g))
              (make_slice h).2 (next h)) as [Hs (Hg & He & _)].
  eexists. split; [reflexivity|].
  assert (slice_at (make_slice h).2 (next h) = []) as Hnil.
  { unfold slice_at, make_slice; cbn. by rewrite lookup_insert_eq. }
  rewrite Hs, Hnil, app_nil_l. split_and!; [| |by apply contents_in_same_maps].
  - intros e. rewrite list_elem_of_fmap. setoid_rewrite list_elem_of_filter.
    setoid_rewrite CacheSweep.Get_found. unfold stored, stored_in; cbn [fst snd].
    destruct (index_group h (Cache.cache c) g) as [b|]; cbn [range_entities].
    + split.
      * intros ([id e'] & -> & Hf & Hin%elem_of_range). exists id. split; [done|].
        by apply Is_true_true.
      * intros (id & Hid & Hf). exists (id, e). split; [done|]. split; [cbn; by rewrite Hf|].
        by apply elem_of_range.
    + split; [intros (? & _ & _ & Hin); by apply elem_of_nil in Hin|by intros (? & ? & _)].
  - rewrite length_fmap. etrans; [apply length_filter|].
    unfold contents; cbn [fst snd]. rewrite <- (length_fmap snd), range_entities_contents.
    destruct (contents_in h (Cache.cache c) !! g) as [b|]; [|done].
    unfold values. by rewrite length_fmap, length_map_to_list.
Qed.

Lemma first_match_Some (f : T -> bool) (l : list (K * T)) e :
  Cache.first_match f l = Some e -> f e = true /\ exists id, (id, e) ∈ l.
Proof.
  induction l as [|[id e'] l IH]; [done|]. cbn. destruct (f e') eqn:Hf.
  - intros [= ->]. split; [done|]. exists id. by left.
  - intros [He [id' Hin]]%IH. split; [done|]. exists id'. by right.
Qed.

Lemma first_match_None (f : T -> bool) (l : list (K * T)) :
  Cache.first_match f l = None -> forall id e, (id, e) ∈ l -> f e = false.
Proof.
  induction l as [|[id e'] l IH]; intros Hn id' e Hin; [by apply elem_of_nil in Hin|].
  cbn in Hn. destruct (f e') eqn:Hf; [done|].
  apply elem_of_cons in Hin as [[= -> ->]|Hin]; [done|]. by apply (IH Hn id').
Qed.

Lemma FindFirst_groups_Some h (f : K -> T -> bool) (gs : list (K * positive)) e :
  Cache.FindFirst_groups h f gs = Some e ->
  exists g b id, (g, b) ∈ gs /\ (id, e) ∈ range (entities_at h b) /\ f g e = true.
Proof.
  induction gs as [|[g b] gs IH]; [done|]. cbn.
  destruct (Cache.first_match (f g) (range (entities_at h b))) as [e'|] eqn:Hm.
  - intros [= ->]. apply first_match_Some in Hm as [Hf [id Hin]].
    exists g, b, id. split_and!; [by left|done|done].
  - intros (g' & b' & id & Hin & Hrest)%IH. exists g', b', id. split; [by right|done].
Qed.

Lemma FindFirst_groups_None h (f : K -> T -> bool) (gs : list (K * positive)) :
  Cache.FindFirst_groups h f gs = None ->
  forall g b id e, (g, b) ∈ gs -> (id, e) ∈ range (entities_at h b) -> f g e = false.
Proof.
  induction gs as [|[g0 b0] gs IH]; intros Hn g b id e Hin He; [by apply elem_of_nil in Hin|].
  cbn in Hn.
  destruct (Cache.first_match (f g0) (range (entities_at h b0))) as [e'|] eqn:Hm; [done|].
  apply elem_of_cons in Hin as [[= -> ->]|Hin].
  - by apply (first_match_None _ _ Hm id).
  - by apply (IH Hn g b id).
Qed.

(** [FindFirst] finds an entity exactly when some stored entity satisfies
    the filter; what it returns then is stored and satisfies the filter, and
    otherwise it returns the zero value. *)
Lemma FindFirst_spec s (f : K -> T -> bool) :
  (forall e, Cache.FindFirst s f = (e, true) ->
     exists g id, Cache.Get s g id = (e, true) /\ f g e = true) /\
  ((Cache.FindFirst s f).2 = false ->
     Cache.FindFirst s f = (zero, false) /\
     forall g id e, Cache.Get s g id = (e, true) -> f g e = false).
Proof.
  destruct s as [c h]. unfold Cache.FindFirst.
  setoid_rewrite CacheSweep.Get_found. unfold stored, stored_in; cbn [fst snd].
  destruct (Cache.FindFirst_groups h f (range_groups h (Cache.cache c))) as [e0|] eqn:Hff;
    cbn [Cache.found snd]; split; try done.
  - intros e [= <-]. apply FindFirst_groups_Some in Hff as (g & b & id & Hg & He & Hf).
    exists g, id. split; [|done]. destruct (Cache.cache c) as [r|]; cbn in *.
    + apply elem_of_range in Hg. rewrite Hg. by apply elem_of_range.
    + by apply elem_of_nil in Hg.
  - intros _. split; [done|]. intros g id e Hst.
    destruct (Cache.cache c) as [r|]; cbn in *; [|done].
    destruct (groups_at h r !! g) as [b|] eqn:Hg; [|done].
    apply (FindFirst_groups_None _ _ _ Hff g b id); by apply elem_of_range.
Qed.

(** [GroupFindFirst], the same within one group. *)
Lemma GroupFindFirst_spec s g (f : K -> T -> bool) :
  (forall e, Cache.GroupFindFirst s g f = (e, true) ->
     exists id, Cache.Get s g id = (e, true) /\ f g e = true) /\
  ((Cache.GroupFindFirst s g f).2 = false ->
     Cache.GroupFindFirst s g f = (zero, false) /\
     forall id e, Cache.Get s g id = (e, true) -> f g e = false).
Proof.
  destruct s as [c h]. unfold Cache.GroupFindFirst.
  setoid_rewrite CacheSweep.Get_found. unfold stored, stored_in; cbn [fst snd].
  destruct (Cache.first_match (f g) (range_entities h (index_group h (Cache.cache c) g)))
    as [e0|] eqn:Hm; cbn [Cache.found snd]; split; try done.
  - intros e [= <-]. apply first_match_Some in Hm as [Hf [id Hin]].
    exists id. split; [|done].
    destruct (index_group h (Cache.cache c) g) as [b|]; cbn in *.
    + by apply elem_of_range.
    + by apply elem_of_nil in Hin.
  - intros _. split; [done|]. intros id e Hst.
    destruct (index_group h (Cache.cache c) g) as [b|]; cbn in *; [|done].
    apply (first_match_None _ _ Hm id). by apply elem_of_range.
Qed.

(** [ForEachGroup] calls back once per stored id of the group, and not at
    all for a group without a bucket. *)
Lemma ForEachGroup_spec s g :
  exists es : list T,
    es ≡ₚ match contents s !! g with Some b => values b | None => [] end /\
    forall (A : Type) (f : T -> A -> A) (a : A),
      Cache.ForEachGroup s g f a = foldl (fun a e => f e a) a es.
Proof.
  destruct s as [c h].
  exists (range_entities h (index_group h (Cache.cache c) g)).*2. split.
  - apply range_entities_contents.
  - intros A f a. unfold Cache.ForEachGroup.
    generalize (range_entities h (index_group h (Cache.cache c) g)). intros l. revert a.
    induction l as [|[id e] l IH]; intros a; [done|]. cbn. apply IH.
Qed.

End Results.
End EnumSpec.

(** ** What [All], [MapAll] and [MapGroupAll] return *)
Module EnumMaps.
Import Go GoFacts Inv Enum GoFrame EnumSpec.

Section Maps.
Context {K : Type} `{Countable K} {T : Type} `{!Zero T} `{!RangeOrder K}.
Implicit Types (s : Cache.state K T) (c : Cache.DefaultGroupedCache T) (h : heap K T).

Lemma NoDup_fst_range {V : Type} (m : gmap K V) : NoDup (range m).*1.
Proof. rewrite (range_perm V m). apply NoDup_fst_map_to_list. Qed.

(** Storing the entries of a map one by one, in any order, rebuilds it. *)
Lemma foldl_insert_lookup {V : Type} (l : list (K * V)) : forall (m0 : gmap K V) k,
  NoDup l.*1 ->
  foldl (fun m '(k, v) => <[k := v]> m) m0 l !! k =
  match (list_to_map l : gmap K V) !! k with
  | Some v => Some v
  | None => m0 !! k
  end.
Proof.
  induction l as [|[k0 v0] l IH]; intros m0 k Hnd; cbn [foldl].
  - change (list_to_map [] : gmap K V) with (∅ : gmap K V). by rewrite lookup_empty.
  - rewrite fmap_cons in Hnd. apply NoDup_cons in Hnd as [Hk0 Hnd]. cbn [fst] in Hk0.
    rewrite IH by done. cbn [list_to_map foldr]. cbn [uncurry fst snd].
    destruct (decide (k0 = k)) as [->|Hk].
    + rewrite !lookup_insert_eq. by rewrite (not_elem_of_list_to_map_1 _ _ Hk0).
    + by rewrite !lookup_insert_ne.
Qed.

Lemma foldl_insert_range {V : Type} (m : gmap K V) :
  foldl (fun m' '(k, v) => <[k := v]> m') ∅ (range m) = m.
Proof.
  apply map_eq. intros k. rewrite foldl_insert_lookup by apply NoDup_fst_range.
  rewrite (list_to_map_proper (range m) (map_to_list m));
    [|apply NoDup_fst_range|apply range_perm].
  rewrite list_to_map_to_list, lookup_empty. by destruct (m !! k).
Qed.

(** The copying loop of [MapAll] and [MapGroupAll] at the level of maps. *)
Lemma store_loop_entities (es : list (K * T)) : forall h m,
  entities_at (foldl (fun h '(entityID, entity) => entity_store h m entityID entity) h es) m
  = foldl (fun m' '(k, v) => <[k := v]> m') (entities_at h m) es.
Proof.
  induction es as [|[id e] es IH]; intros h m; [done|].
  cbn [foldl]. by rewrite IH, entities_at_entity_store, decide_True.
Qed.

Lemma store_loop_other (es : list (K * T)) : forall h m r,
  r <> m ->
  entity_maps (foldl (fun h '(entityID, entity) => entity_store h m entityID entity) h es) !! r
  = entity_maps h !! r.
Proof.
  induction es as [|[id e] es IH]; intros h m r Hne; [done|].
  cbn [foldl]. rewrite IH by done. unfold entity_store; cbn. by rewrite lookup_insert_ne.
Qed.

Lemma contents_in_extends h h' (m : option positive) :
  wf_maps h m -> extends h h' -> contents_in h' m = contents_in h m.
Proof.
  intros Hwf (Hn & Hg & He). destruct m as [r|]; [|done]. cbn.
  destruct (Hwf r eq_refl) as (Hr & Halloc & _).
  assert (groups_at h' r = groups_at h r) as -> by (unfold groups_at; by rewrite Hg).
  apply map_fmap_ext. intros g b Hb. unfold entities_at. by rewrite He by eauto.
Qed.

(** [MapGroupAll]: nil for a group without a bucket, otherwise a map with
    the entries of the group; the cache holds what it held. *)
Lemma MapGroupAll_spec s g :
  wf s ->
  read_entity_map (Cache.MapGroupAll s g).2.2 (Cache.MapGroupAll s g).1 = contents s !! g /\
  contents (Cache.MapGroupAll s g).2 = contents s.
Proof.
  destruct s as [c h]. unfold wf, contents; cbn [fst snd]. intros Hwf.
  destruct (Copies.Cache_MapGroupAll_copy c h g) as [Hc [Hext _]].
  split; [|by rewrite Hc; apply contents_in_extends].
  clear Hc Hext. rewrite contents_in_lookup.
  assert (Cache.MapGroupAll (c, h) g =
          match index_group h (Cache.cache c) g with
          | None => (VNil, (c, h))
          | Some b =>
              (VEntityMap (next h),
               (c, foldl (fun h0 '(entityID, entity) => entity_store h0 (next h) entityID entity)
                         (make_entity_map h).2 (range (entities_at (make_entity_map h).2 b))))
          end) as ->.
  { unfold Cache.MapGroupAll. destruct (index_group h (Cache.cache c) g); reflexivity. }
  destruct (index_group h (Cache.cache c) g) as [b|] eqn:Hb; [|done].
  cbn [fst snd read_entity_map fmap option_fmap option_map]. f_equal.
  assert (b < next h)%positive as Hlt.
  { destruct (Cache.cache c) as [r|]; [|done]. destruct (Hwf r eq_refl) as (_ & Halloc & _).
    cbn in Hb. eauto. }
  rewrite store_loop_entities.
  rewrite !entities_at_make_entity_map, decide_True, decide_False by (done || lia).
  apply foldl_insert_range.
Qed.

Lemma MapAll_rounds c h :
  Cache.MapAll (c, h) =
  (VGroupMap (next h),
   (c, foldl (MapAll_round (next h)) (make_group_map h).2
             (range_groups (make_group_map h).2 (Cache.cache c)))).
Proof. reflexivity. Qed.

Lemma MapAll_round_unfold all h g b :
  MapAll_round all h (g, b) =
  foldl (fun h1 '(entityID, entity) => entity_store h1 (next h) entityID entity)
        (group_store (make_entity_map h).2 all g (next h))
        (range (entities_at (make_entity_map h).2 b)).
Proof. reflexivity. Qed.

(** The loop of [MapAll]: each listed group gets a fresh map with the
    entries of its bucket, and maps made earlier are left alone. *)
Lemma MapAll_loop_contents h all (gs : list (K * positive)) : forall h0,
  (next h <= all)%positive ->
  extends h h0 ->
  (forall g b, (g, b) ∈ gs -> (b < next h)%positive) ->
  NoDup gs.*1 ->
  let h' := foldl (MapAll_round all) h0 gs in
  (next h0 <= next h')%positive /\
  (forall m, (m < next h0)%positive -> entity_maps h' !! m = entity_maps h0 !! m) /\
  (forall g, g ∉ gs.*1 -> groups_at h' all !! g = groups_at h0 all !! g) /\
  (forall g b, (g, b) ∈ gs ->
     exists m, groups_at h' all !! g = Some m /\ entities_at h' m = entities_at h b).
Proof.
  induction gs as [|[g0 b0] gs IH]; intros h0 Hall Hext Hlt Hnd; cbn zeta; cbn [foldl].
  - split_and!; [lia|done|done|]. intros g b Hin. by apply elem_of_nil in Hin.
  - rewrite fmap_cons in Hnd. apply NoDup_cons in Hnd as [Hg0 Hnd]. cbn [fst] in Hg0.
    rewrite MapAll_round_unfold.
    set (h1 := foldl _ (group_store (make_entity_map h0).2 all g0 (next h0)) _).
    assert (next h <= next h0)%positive as Hn by apply Hext.
    assert (b0 < next h)%positive as Hb0 by (apply (Hlt g0); by left).
    assert (next h1 = Pos.succ (next h0)) as Hn1 by (unfold h1; by rewrite Copies.store_loop_next).
    assert (extends h h1) as Hext1.
    { unfold h1. apply Copies.store_loop_extends; [lia|].
      apply extends_group_store; [done|by apply extends_make_entity_map]. }
    assert (groups_at h1 all = <[g0 := next h0]> (groups_at h0 all)) as Hg1.
    { unfold h1. rewrite Copies.store_loop_groups, groups_at_group_store, decide_True by done.
      by rewrite groups_at_make_entity_map. }
    assert (forall m, (m < next h0)%positive -> entity_maps h1 !! m = entity_maps h0 !! m)
      as Hold1.
    { intros m Hm. unfold h1. rewrite store_loop_other by lia.
      unfold group_store, make_entity_map; cbn. rewrite lookup_insert_ne by lia. done. }
    assert (entities_at h1 (next h0) = entities_at h b0) as He1.
    { unfold h1. rewrite store_loop_entities, entities_at_group_store.
      rewrite !entities_at_make_entity_map, decide_True, decide_False by (done || lia).
      rewrite foldl_insert_range. destruct Hext as (_ & _ & He). unfold entities_at.
      by rewrite He. }
    destruct (IH h1 Hall Hext1) as (IHn & IHold & IHout & IHin); [|done|].
    { intros g b Hin. apply (Hlt g). by right. }
    split_and!.
    + lia.
    + intros m Hm. rewrite IHold by lia. by apply Hold1.
    + intros g Hg. rewrite fmap_cons in Hg. apply not_elem_of_cons in Hg as [Hne Hg].
      rewrite IHout, Hg1 by done. by rewrite lookup_insert_ne.
    + intros g b [[= -> ->]|Hin]%elem_of_cons.
      * exists (next h0). split.
        -- by rewrite IHout, Hg1, lookup_insert_eq.
        -- rewrite <- He1. unfold entities_at. by rewrite IHold by lia.
      * by apply IHin.
Qed.

(** [MapAll] returns a map of maps that reads exactly as the cache does,
    and the cache holds what it held. *)
Lemma MapAll_spec s :
  wf s ->
  read_group_map (Cache.MapAll s).2.2 (Cache.MapAll s).1 = Some (contents s) /\
  contents (Cache.MapAll s).2 = contents s.
Proof.
  destruct s as [c h]. unfold wf, contents; cbn [fst snd]. intros Hwf.
  destruct (Copies.Cache_MapAll_copy c h) as [Hc [Hext _]].
  split; [|by rewrite Hc; apply contents_in_extends].
  clear Hc Hext. rewrite MapAll_rounds. cbn [fst snd read_group_map]. f_equal.
  assert (range_groups (make_group_map h).2 (Cache.cache c) = range_groups h (Cache.cache c))
    as ->.
  { destruct (Cache.cache c) as [r|]; [|done]. cbn.
    destruct (Hwf r eq_refl) as (Hr & _).
    by rewrite groups_at_make_group_map, decide_False by lia. }
  destruct (MapAll_loop_contents h (next h) (range_groups h (Cache.cache c))
              (make_group_map h).2) as (_ & _ & Hout & Hin).
  { lia. }
  { apply extends_make_group_map, extends_refl. }
  { intros g b Hgb. destruct (Cache.cache c) as [r|]; [|by apply elem_of_nil in Hgb].
    destruct (Hwf r eq_refl) as (_ & Halloc & _). apply elem_of_range in Hgb. eauto. }
  { destruct (Cache.cache c) as [r|]; [apply NoDup_fst_range|constructor]. }
  apply map_eq. intros g. rewrite lookup_fmap, contents_in_lookup.
  destruct (index_group h (Cache.cache c) g) as [b|] eqn:Hb.
  - destruct (Hin g b) as (m & -> & Hm).
    { destruct (Cache.cache c) as [r|]; [|done]. by apply elem_of_range. }
    cbn. by rewrite Hm.
  - rewrite Hout.
    + by rewrite groups_at_make_group_map, decide_True, lookup_empty.
    + intros ([g' b] & -> & Hgb)%list_elem_of_fmap.
      destruct (Cache.cache c) as [r|]; [|by apply elem_of_nil in Hgb].
      apply elem_of_range in Hgb. cbn in Hb. congruence.
Qed.

Lemma All_rounds c h :
  Cache.All (c, h) =
  (VSliceMap (next h),
   (c, foldl (All_round (next h)) (make_slice_map h).2
             (range_groups (make_slice_map h).2 (Cache.cache c)))).
Proof. reflexivity. Qed.

Lemma All_round_unfold all h g b :
  All_round all h (g, b) =
  foldl (fun h1 '(_, entity) => slice_append h1 (next h) entity)
        (slice_map_store (make_slice h).2 all g (next h))
        (range (entities_at h b)).
Proof. reflexivity. Qed.

Lemma slice_map_at_slice_frame sl h h' r :
  slice_frame sl h h' -> slice_map_at h' r = slice_map_at h r.
Proof. intros (_ & _ & Hm & _). unfold slice_map_at. by rewrite Hm. Qed.

(** The loop of [All]: each listed group gets a fresh slice with the
    entities of its bucket, and slices made earlier are left alone. *)
Lemma All_loop_contents all (gs : list (K * positive)) : forall h0,
  NoDup gs.*1 ->
  let h' := foldl (All_round all) h0 gs in
  group_maps h' = group_maps h0 /\
  entity_maps h' = entity_maps h0 /\
  (next h0 <= next h')%positive /\
  (forall sl, (sl < next h0)%positive -> slices h' !! sl = slices h0 !! sl) /\
  (forall g, g ∉ gs.*1 -> slice_map_at h' all !! g = slice_map_at h0 all !! g) /\
  (forall g b, (g, b) ∈ gs ->
     exists sl, slice_map_at h' all !! g = Some sl /\
                slice_at h' sl = (range (entities_at h0 b)).*2).
Proof.
  induction gs as [|[g0 b0] gs IH]; intros h0 Hnd; cbn zeta; cbn [foldl].
  - split_and!; [done|done|lia|done|done|]. intros g b Hin. by apply elem_of_nil in Hin.
  - rewrite fmap_cons in Hnd. apply NoDup_cons in Hnd as [Hg0 Hnd]. cbn [fst] in Hg0.
    rewrite All_round_unfold.
    destruct (append_loop (range (entities_at h0 b0))
                (slice_map_store (make_slice h0).2 all g0 (next h0)) (next h0))
      as [Hs Hfr].
    set (h1 := foldl _ (slice_map_store (make_slice h0).2 all g0 (next h0)) _) in *.
    assert (slice_at h1 (next h0) = (range (entities_at h0 b0)).*2) as Hs1.
    { rewrite Hs. unfold slice_at, slice_map_store, make_slice; cbn.
      by rewrite lookup_insert_eq. }
    assert (slice_map_at h1 all = <[g0 := next h0]> (slice_map_at h0 all)) as Hm1.
    { rewrite (slice_map_at_slice_frame _ _ _ _ Hfr).
      unfold slice_map_at at 1, slice_map_store; cbn. by rewrite lookup_insert_eq. }
    destruct Hfr as (Hg & He & _ & Hn & Hother).
    assert (next h1 = Pos.succ (next h0)) as Hn1 by (by rewrite Hn).
    destruct (IH h1 Hnd) as (IHg & IHe & IHn & IHold & IHout & IHin). cbn zeta in *.
    split_and!.
    + by rewrite IHg, Hg.
    + by rewrite IHe, He.
    + lia.
    + intros sl Hsl. rewrite IHold by lia. rewrite Hother by lia.
      unfold slice_map_store, make_slice; cbn. by rewrite lookup_insert_ne by lia.
    + intros g Hgn. rewrite fmap_cons in Hgn. apply not_elem_of_cons in Hgn as [Hne Hgn].
      rewrite IHout, Hm1 by done. by rewrite lookup_insert_ne.
    + intros g b [[= -> ->]|Hin]%elem_of_cons.
      * exists (next h0). split.
        -- by rewrite IHout, Hm1, lookup_insert_eq.
        -- rewrite <- Hs1. unfold slice_at. by rewrite IHold by lia.
      * destruct (IHin g b Hin) as (sl & Hsl & Hcont). exists sl. split; [done|].
        rewrite Hcont. unfold entities_at. by rewrite He.
Qed.

(** [All] returns a map with one slice per group that has a bucket, the
    slice holding the entities of the group, one per stored id, in some
    order; the cache holds what it held. *)
Lemma All_spec s :
  exists M : gmap K (list T),
    read_slice_map (Cache.All s).2.2 (Cache.All s).1 = Some M /\
    (forall g,
       match contents s !! g with
       | Some b => exists l, M !! g = Some l /\ l ≡ₚ values b
       | None => M !! g = None
       end) /\
    contents (Cache.All s).2 = contents s.
Proof.
  destruct s as [c h]. unfold contents; cbn [fst snd]. rewrite All_rounds.
  cbn [fst snd read_slice_map]. eexists. split; [reflexivity|].
  change (range_groups (make_slice_map h).2 (Cache.cache c))
    with (range_groups h (Cache.cache c)).
  destruct (All_loop_contents (next h) (range_groups h (Cache.cache c)) (make_slice_map h).2)
    as (Hg & He & _ & _ & Hout & Hin).
  { destruct (Cache.cache c) as [r|]; [apply NoDup_fst_range|constructor]. }
  cbn zeta in *. split; [|by apply contents_in_same_maps].
  intros g. rewrite lookup_fmap, contents_in_lookup.
  destruct (index_group h (Cache.cache c) g) as [b|] eqn:Hb; cbn [fmap option_fmap option_map].
  - destruct (Hin g b) as (sl & -> & Hsl).
    { destruct (Cache.cache c) as [r|]; [|done]. by apply elem_of_range. }
    eexists. split; [reflexivity|]. rewrite Hsl. apply range_values.
  - rewrite Hout.
    + unfold slice_map_at, make_slice_map; cbn. by rewrite lookup_insert_eq.
    + intros ([g' b] & -> & Hgb)%list_elem_of_fmap.
      destruct (Cache.cache c) as [r|]; [|by apply elem_of_nil in Hgb].
      apply elem_of_range in Hgb. cbn in Hb. congruence.
Qed.

End Maps.
End EnumMaps.
(** ** The methods of package cache, on what the cache holds *)
Module Contents.
Import Go GoFacts Inv Enum GoFrame EnumSpec EnumMaps.

Section Contents.
Context {K : Type} `{Countable K} {T : Type} `{!Zero T} `{!RangeOrder K}.
Implicit Types (s : Cache.state K T) (c : Cache.DefaultGroupedCache T) (h : heap K T).
Implicit Types (g id : K) (e : T).

Lemma Get_contents s g id :
  Cache.Get s g id = Cache.found (contents s !! g ≫= (.!! id)).
Proof.
  rewrite CacheSweep.Get_stored. unfold stored, contents. by rewrite stored_in_contents.
Qed.

Lemma New_contents fl needed p h :
  contents (Cache.NewGroupedCache fl needed p h) = ∅.
Proof.
  rewrite CacheInv.New_unfold. unfold contents; cbn [fst snd Cache.cache contents_in].
  rewrite groups_at_make_group_map, decide_True by done. apply fmap_empty.
Qed.

(** An accepted [Put] into a well-formed cache binds the id in the bucket
    of the group, making the bucket if there is none. *)
Lemma Put_contents s g id e :
  wf s -> accepted s.1 e ->
  contents (Cache.Put s g id e) = put_contents g id e (contents s).
Proof.
  destruct s as [c h]. unfold wf, contents, put_contents; cbn [fst snd].
  intros Hwf [Hf Hp]%CacheSpec.accepted_guards.
  rewrite CacheSpec.Put_unfold, Hf, Hp. rewrite (contents_in_lookup h).
  destruct (Cache.cache c) as [r|] eqn:Hc.
  - destruct (Hwf r eq_refl) as (Hr & Halloc & Hinj). cbn [index_group].
    destruct (groups_at h r !! g) as [b|] eqn:Hg; cbn [fst snd]; rewrite ?Hc;
      cbn [contents_in fmap option_fmap option_map default];
      apply map_eq; intros g'; rewrite lookup_insert, !lookup_fmap.
    + rewrite groups_at_entity_store. case_decide as Hgg; subst.
      * rewrite Hg. cbn. by rewrite entities_at_entity_store, decide_True.
      * destruct (groups_at h r !! g') as [b'|] eqn:Hg'; [|done]. cbn.
        rewrite entities_at_entity_store, decide_False; [done|].
        intros <-. apply Hgg. eauto.
    + rewrite groups_at_group_store, decide_True by done.
      rewrite groups_at_entity_store, groups_at_make_entity_map, lookup_insert.
      case_decide as Hgg; subst; cbn.
      * rewrite entities_at_group_store, entities_at_entity_store, decide_True by done.
        by rewrite entities_at_make_entity_map, decide_True.
      * destruct (groups_at h r !! g') as [b'|] eqn:Hg'; [|done]. cbn.
        apply Halloc in Hg'.
        rewrite entities_at_group_store, entities_at_entity_store, decide_False by lia.
        by rewrite entities_at_make_entity_map, decide_False by lia.
  - cbn [fst snd Cache.cache Cache.set_cache contents_in index_group
         fmap option_fmap option_map default].
    apply map_eq; intros g'. rewrite lookup_insert, lookup_fmap.
    rewrite groups_at_group_store, decide_True by done.
    rewrite groups_at_entity_store, groups_at_make_entity_map.
    rewrite groups_at_make_group_map, decide_True by done. rewrite lookup_insert.
    case_decide as Hgg; subst; cbn; [|by rewrite !lookup_empty].
    rewrite entities_at_group_store, entities_at_entity_store, decide_True by done.
    by rewrite entities_at_make_entity_map, decide_True.
Qed.

(** [Remove] on a well-formed cache deletes the id from the bucket of the
    group and keeps the bucket. *)
Lemma Remove_contents s g id :
  wf s -> contents (Cache.Remove s g id).2 = remove_contents g id (contents s).
Proof.
  destruct s as [c h]. unfold wf, contents, remove_contents; cbn [fst snd]. intros Hwf.
  rewrite CacheSpec.Remove_unfold.
  destruct (index_group h (Cache.cache c) g) as [b|] eqn:Hg;
    [destruct (entities_at h b !! id) as [e|] eqn:He|]; cbn [fst snd];
    apply map_eq; intros g'; rewrite lookup_alter, !contents_in_lookup.
  - destruct (Cache.cache c) as [r|]; [|done].
    destruct (Hwf r eq_refl) as (_ & _ & Hinj). cbn [index_group] in *.
    rewrite groups_at_entity_delete. case_decide as Hgg; subst.
    + rewrite Hg. cbn. by rewrite entities_at_entity_delete, decide_True.
    + destruct (groups_at h r !! g') as [b'|] eqn:Hg'; [|done]. cbn.
      rewrite entities_at_entity_delete, decide_False; [done|].
      intros <-. apply Hgg. eauto.
  - case_decide as Hgg; subst; [|done]. rewrite Hg. cbn. by rewrite delete_id.
  - case_decide; subst; [|done]. by rewrite Hg.
Qed.

(** [RemoveAll] drops the bucket of the group. *)
Lemma RemoveAll_contents s g : contents (Cache.RemoveAll s g) = delete g (contents s).
Proof.
  destruct s as [c h]. unfold contents; cbn [fst snd]. rewrite CacheSpec.RemoveAll_unfold.
  destruct (Cache.cache c) as [r|] eqn:Hc; cbn [fst snd]; rewrite Hc; cbn [contents_in].
  - apply map_eq; intros g'. rewrite lookup_delete, !lookup_fmap.
    rewrite groups_at_group_delete, decide_True, lookup_delete by done.
    case_decide; [done|]. destruct (groups_at h r !! g'); [|done]. cbn.
    by rewrite entities_at_group_delete.
  - by rewrite delete_empty.
Qed.

(** [RemoveIf] on a well-formed cache filters every bucket and keeps every
    bucket, also one it has emptied. *)
Lemma RemoveIf_contents s (p : K -> T -> bool) :
  wf s -> contents (Cache.RemoveIf s p) = sweep_contents p (contents s).
Proof.
  destruct s as [c h]. unfold wf, wf_maps, contents, sweep_contents; cbn [fst snd].
  intros Hwf. rewrite CacheSweep.RemoveIf_unfold; cbn [fst snd].
  destruct (Cache.cache c) as [r|] eqn:Hc; cbn [range_groups contents_in].
  2:{ by rewrite map_imap_empty. }
  destruct (Hwf r eq_refl) as (_ & _ & Hinj).
  destruct (CacheSweep.outer_loop_sweep p c r (range (groups_at h r)) h Hc)
    as (Hg & _ & _ & Hi).
  { intros g' b. apply elem_of_range. }
  { apply NoDup_fmap_2_strong.
    - intros [g1 b1] [g2 b2] H1%elem_of_range H2%elem_of_range. cbn. intros <-. f_equal. eauto.
    - rewrite (range_perm _ (groups_at h r)). apply NoDup_map_to_list. }
  cbn zeta in *. apply map_eq; intros g. rewrite map_lookup_imap, !lookup_fmap, Hg.
  destruct (groups_at h r !! g) as [b|] eqn:Hb; [|done]. cbn. f_equal.
  apply map_eq; intros id. rewrite (Hi g b id) by by apply elem_of_range.
  rewrite map_lookup_filter. unfold keep.
  destruct (entities_at h b !! id) as [e|]; [|done]. cbn.
  destruct (p g e); by simplify_option_eq.
Qed.

End Contents.
End Contents.

(** ** How the methods of package cache compose *)
Module Laws.
Import Go GoFacts Inv Ops Enum GoFrame EnumSpec EnumMaps Contents.

Section Laws.
Context {K : Type} `{Countable K} {T : Type} `{!Zero T} `{!RangeOrder K}.
Implicit Types (s : Cache.state K T) (c : Cache.DefaultGroupedCache T) (h : heap K T).
Implicit Types (g id : K) (e : T).

Lemma Put_config s g id e : config (Cache.Put s g id e).1 = config s.1.
Proof.
  destruct s as [c h]. rewrite CacheSpec.Put_unfold.
  destruct (Cache.flags_reject c); [done|]. destruct (Cache.policy_rejects c e); [done|].
  destruct (Cache.cache c) as [r|]; [|done]. by destruct (groups_at h r !! g).
Qed.

Lemma Remove_config s g id : config (Cache.Remove s g id).2.1 = config s.1.
Proof.
  destruct s as [c h]. rewrite CacheSpec.Remove_unfold.
  destruct (index_group h (Cache.cache c) g) as [b|]; [|done].
  by destruct (entities_at h b !! id).
Qed.

Lemma RemoveAll_config s g : config (Cache.RemoveAll s g).1 = config s.1.
Proof.
  destruct s as [c h]. rewrite CacheSpec.RemoveAll_unfold. by destruct (Cache.cache c).
Qed.

Lemma step_config s (o : op K T) : config (cache_step s o).2.1 = config s.1.
Proof.
  destruct o as [g id|g id e|g id|g| |g|f|g f|f|g f]; cbn [cache_step]; try done.
  - apply Put_config.
  - pose proof (Remove_config s g id). by destruct (Cache.Remove s g id).
  - apply RemoveAll_config.
  - destruct s as [c h]. destruct (Copies.Cache_All_copy c h) as [Hc _].
    destruct (Cache.All (c, h)). cbn in *. by rewrite Hc.
  - destruct s as [c h]. destruct (Copies.Cache_GroupAll_copy c h g) as [Hc _].
    destruct (Cache.GroupAll (c, h) g). cbn in *. by rewrite Hc.
  - destruct s as [c h]. destruct (Copies.Cache_FindAll_copy c h f) as [Hc _].
    destruct (Cache.FindAll (c, h) f). cbn in *. by rewrite Hc.
  - destruct s as [c h]. destruct (Copies.Cache_GroupFindAll_copy c h g f) as [Hc _].
    destruct (Cache.GroupFindAll (c, h) g f). cbn in *. by rewrite Hc.
Qed.

(** No method writes the flags, the needed flags or the policy: after any
    sequence of calls, and after [RemoveIf], [MapAll] and [MapGroupAll],
    they are what the constructor was given. *)
Lemma config_never_written s :
  (forall os : list (op K T), config (run cache_step s os).2.1 = config s.1) /\
  (forall p, config (Cache.RemoveIf s p).1 = config s.1) /\
  config (Cache.MapAll s).2.1 = config s.1 /\
  (forall g, config (Cache.MapGroupAll s g).2.1 = config s.1).
Proof.
  split_and!.
  - intros os. revert s. induction os as [|o os IH]; intros s; [done|].
    cbn [run]. pose proof (step_config s o) as Hs.
    destruct (cache_step s o) as [r s1]. pose proof (IH s1) as Hr.
    destruct (run cache_step s1 os). cbn in *. congruence.
  - intros p. by destruct s.
  - destruct s as [c h]. destruct (Copies.Cache_MapAll_copy c h) as [Hc _]. by rewrite Hc.
  - intros g. destruct s as [c h].
    destruct (Copies.Cache_MapGroupAll_copy c h g) as [Hc _]. by rewrite Hc.
Qed.

(** One call on a cache that lacks a needed flag and holds nothing. *)
Lemma step_disabled s (o : op K T) :
  Cache.Missing (Cache.flags s.1) (Cache.neededFlags s.1) = true ->
  contents s = ∅ ->
  contents (cache_step s o).2 = ∅ /\
  (forall x, (cache_step s o).1 <> RFound (x, true)).
Proof.
  intros Hm He.
  assert (forall g id, Cache.Get s g id = (zero, false)) as Hget.
  { intros g id. by rewrite Get_contents, He, lookup_empty. }
  destruct o as [g id|g id e|g id|g| |g|f|g f|f|g f]; cbn [cache_step].
  - split; [done|]. intros x. rewrite Hget. cbn. congruence.
  - split; [|done]. cbn [snd]. rewrite CacheSpec.rejected_Put; [done|by left].
  - rewrite CacheSpec.Remove_absent by (by rewrite Hget). split; [done|]. cbn. congruence.
  - split; [|done]. cbn [snd]. by rewrite RemoveAll_contents, He, delete_empty.
  - destruct (All_spec s) as (M & _ & _ & Hc). destruct (Cache.All s). split; [|done].
    cbn in *. congruence.
  - destruct (GroupAll_spec s g) as [_ Hc]. destruct (Cache.GroupAll s g). split; [|done].
    cbn in *. congruence.
  - split; [done|]. intros x Hx. injection Hx as Hx.
    destruct (FindFirst_spec s f) as [Hsome _].
    destruct (Hsome x Hx) as (g & id & Hg & _). rewrite Hget in Hg. done.
  - split; [done|]. intros x Hx. injection Hx as Hx.
    destruct (GroupFindFirst_spec s g f) as [Hsome _].
    destruct (Hsome x Hx) as (id & Hg & _). rewrite Hget in Hg. done.
  - destruct (FindAll_spec s f) as (l & _ & _ & _ & Hc). destruct (Cache.FindAll s f).
    split; [|done]. cbn in *. congruence.
  - destruct (GroupFindAll_spec s g f) as (l & _ & _ & _ & Hc).
    destruct (Cache.GroupFindAll s g f). split; [|done]. cbn in *. congruence.
Qed.

(** A cache built without a flag it needs stays empty whatever is called
    on it: it ends holding nothing, and no [Get], [Remove], [FindFirst] or
    [GroupFindFirst] on the way reports an entity. *)
Lemma disabled_cache_stays_empty fl needed p h (os : list (op K T)) :
  Cache.Missing fl needed = true ->
  let r := run cache_step (Cache.NewGroupedCache fl needed p h) os in
  contents r.2 = ∅ /\
  (forall g id, Cache.Get r.2 g id = (zero, false)) /\
  Forall (fun res => forall x, res <> RFound (x, true)) r.1.
Proof.
  intros Hm. cbn zeta.
  assert (forall s, Cache.Missing (Cache.flags s.1) (Cache.neededFlags s.1) = true ->
                    contents s = ∅ ->
                    contents (run cache_step s os).2 = ∅ /\
                    Forall (fun res => forall x, res <> RFound (x, true))
                           (run cache_step s os).1) as Hrun.
  { induction os as [|o os IH]; intros s Hs He; [by split|].
    cbn [run]. destruct (step_disabled s o Hs He) as [He1 Hr1].
    pose proof (step_config s o) as Hcfg.
    destruct (cache_step s o) as [r s1]. cbn [fst snd] in *.
    destruct (IH s1) as [He2 Hr2]; [|done|].
    { unfold config in Hcfg. congruence. }
    destruct (run cache_step s1 os). cbn [fst snd] in *. split; [done|].
    by constructor. }
  destruct (Hrun (Cache.NewGroupedCache fl needed p h)) as [He Hr].
  { by rewrite CacheInv.New_unfold. }
  { apply New_contents. }
  split_and!; [done| |done]. intros g id. by rewrite Get_contents, He, lookup_empty.
Qed.

Lemma accepted_config c c' e : config c' = config c -> accepted c e -> accepted c' e.
Proof. unfold config, accepted. intros [= -> -> ->]. done. Qed.

Lemma accepted_Put s g id e e' :
  accepted s.1 e' -> accepted (Cache.Put s g id e).1 e'.
Proof. apply accepted_config, Put_config. Qed.

(** Two accepted [Put]s under different keys can be made in either order:
    a well-formed cache ends holding the same. *)
Lemma Put_Put_commute s g1 id1 e1 g2 id2 e2 :
  wf s -> accepted s.1 e1 -> accepted s.1 e2 -> (g1, id1) <> (g2, id2) ->
  contents (Cache.Put (Cache.Put s g1 id1 e1) g2 id2 e2) =
  contents (Cache.Put (Cache.Put s g2 id2 e2) g1 id1 e1).
Proof.
  intros Hwf H1 H2 Hne.
  rewrite !Put_contents by (by apply CacheInv.wf_Put || by apply accepted_Put || done).
  unfold put_contents. apply map_eq; intros g.
  destruct (decide (g1 = g2)) as [->|Hg].
  - assert (id1 <> id2) as Hid by congruence.
    rewrite !lookup_insert_eq. cbn [from_option Datatypes.id]. rewrite !lookup_insert.
    case_decide; [|done]. f_equal. by apply insert_insert_ne.
  - rewrite !(lookup_insert_ne _ g1 g2), !(lookup_insert_ne _ g2 g1) by done.
    rewrite !lookup_insert. repeat case_decide; subst; done.
Qed.

(** The later of two accepted [Put]s under one key wins, and the earlier
    leaves no trace. *)
Lemma Put_Put_overwrite s g id e1 e2 :
  wf s -> accepted s.1 e1 -> accepted s.1 e2 ->
  contents (Cache.Put (Cache.Put s g id e1) g id e2) = contents (Cache.Put s g id e2).
Proof.
  intros Hwf H1 H2.
  rewrite !Put_contents by (by apply CacheInv.wf_Put || by apply accepted_Put || done).
  unfold put_contents. rewrite lookup_insert_eq. cbn [from_option Datatypes.id].
  by rewrite insert_insert_eq, insert_insert_eq.
Qed.

(** [Remove] after an accepted [Put] returns what was put.  If the id was
    new in a group that had a bucket, the cache holds what it held before
    the [Put]; if the group had no bucket, it now has an empty one. *)
Lemma Put_then_Remove s g id e :
  wf s -> accepted s.1 e ->
  (Cache.Remove (Cache.Put s g id e) g id).1 = (e, true) /\
  (forall b, contents s !! g = Some b -> b !! id = None ->
     contents (Cache.Remove (Cache.Put s g id e) g id).2 = contents s) /\
  (contents s !! g = None ->
     contents (Cache.Remove (Cache.Put s g id e) g id).2 = <[g := ∅]> (contents s)).
Proof.
  intros Hwf Ha. split.
  - by apply CacheSpec.Remove_present, CacheSpec.Put_Get.
  - rewrite Remove_contents, Put_contents by (by apply CacheInv.wf_Put || done).
    unfold remove_contents, put_contents. split.
    + intros b Hb Hid. rewrite Hb. cbn [from_option Datatypes.id].
      apply map_eq; intros g'. destruct (decide (g = g')) as [<-|Hne].
      * rewrite lookup_alter_eq, lookup_insert_eq. cbn.
        by rewrite delete_insert_id, Hb.
      * by rewrite lookup_alter_ne, lookup_insert_ne.
    + intros Hb. rewrite Hb. cbn [from_option Datatypes.id].
      apply map_eq; intros g'. destruct (decide (g = g')) as [<-|Hne].
      * rewrite lookup_alter_eq, !lookup_insert_eq. cbn.
        by rewrite delete_insert_id by apply lookup_empty.
      * by rewrite lookup_alter_ne, !lookup_insert_ne.
Qed.

(** [Remove] keeps the bucket, [RemoveAll] drops it, and [GroupAll] tells the
    two apart: after a [Remove] that found its entity it returns a slice,
    empty if that was the last entity of the group; after [RemoveAll] it
    returns nil. *)
Lemma GroupAll_after_removal s g id :
  wf s ->
  ((Cache.Remove s g id).1.2 = true ->
   exists l, read_slice (Cache.GroupAll (Cache.Remove s g id).2 g).2.2
                        (Cache.GroupAll (Cache.Remove s g id).2 g).1 = Some l /\
             forall e, e ∈ l <-> exists id', id' <> id /\ Cache.Get s g id' = (e, true)) /\
  Cache.GroupAll (Cache.RemoveAll s g) g = (VNil, Cache.RemoveAll s g).
Proof.
  intros Hwf. split.
  - intros Hfound.
    destruct (GroupAll_spec (Cache.Remove s g id).2 g) as [Hga _].
    rewrite Remove_contents in Hga by done. unfold remove_contents in Hga.
    rewrite lookup_alter_eq in Hga.
    assert (exists b, contents s !! g = Some b) as [b Hb].
    { destruct s as [c h]. rewrite CacheSpec.Remove_unfold in Hfound.
      unfold contents; cbn [fst snd]. rewrite contents_in_lookup.
      destruct (index_group h (Cache.cache c) g); [eauto|done]. }
    rewrite Hb in Hga. cbn in Hga. destruct Hga as (l & Hl & Hperm).
    exists l. split; [done|]. intros e. rewrite Hperm, elem_of_values.
    setoid_rewrite Get_contents. rewrite Hb. cbn. split.
    + intros [id' [Hne Hid']%lookup_delete_Some]. exists id'. split; [done|]. by rewrite Hid'.
    + intros (id' & Hne & Hid'). exists id'. apply lookup_delete_Some. split; [done|].
      by destruct (b !! id') as [e'|]; simplify_eq/=.
  - destruct (GroupAll_spec (Cache.RemoveAll s g) g) as [Hga _].
    by rewrite RemoveAll_contents, lookup_delete_eq in Hga.
Qed.

(** After [RemoveIf(p)] nothing that [p] picks is left to find:
    [FindFirst(p)] reports nothing and [FindAll(p)] returns an empty
    slice. *)
Lemma RemoveIf_then_Find s (p : K -> T -> bool) :
  wf s ->
  Cache.FindFirst (Cache.RemoveIf s p) p = (zero, false) /\
  read_slice (Cache.FindAll (Cache.RemoveIf s p) p).2.2
             (Cache.FindAll (Cache.RemoveIf s p) p).1 = Some [].
Proof.
  intros Hwf.
  assert (forall g id e, Cache.Get (Cache.RemoveIf s p) g id = (e, true) -> p g e = false)
    as Hgone.
  { intros g id e. rewrite CacheSweep.Get_found, CacheSweep.RemoveIf_stored by done.
    unfold keep. destruct (stored s g id) as [e'|]; [|done].
    destruct (p g e') eqn:Hp; [done|]. by intros [= <-]. }
  split.
  - destruct (FindFirst_spec (Cache.RemoveIf s p) p) as [Hsome Hnone].
    destruct (Cache.FindFirst (Cache.RemoveIf s p) p) as [e [|]] eqn:Hff.
    + destruct (Hsome e eq_refl) as (g & id & Hg & Hp). apply Hgone in Hg. congruence.
    + by destruct (Hnone eq_refl) as [[= ->] _].
  - destruct (FindAll_spec (Cache.RemoveIf s p) p) as (l & -> & _ & Hmem & _). f_equal.
    destruct l as [|e l]; [done|]. exfalso.
    destruct (proj1 (Hmem e)) as (g & id & Hg & Hp); [by left|].
    apply Hgone in Hg. congruence.
Qed.

End Laws.
End Laws.

(** ** The calls of package cache under any order of enumeration *)
Module OrderSpec.
Import Go GoFacts Inv Ops Enum Order GoFrame EnumSpec EnumMaps Contents Laws Equiv.

Section Pure.
Context {K : Type} `{Countable K} {T : Type} `{!Zero T}.
Implicit Types (m : gmap K (gmap K T)) (o : op K T) (x y : seen K T).

Lemma found_Some (a : option T) e : Cache.found a = (e, true) <-> a = Some e.
Proof. unfold Cache.found. destruct a; split; congruence. Qed.

Lemma filter_snd (P : T -> bool) (l : list (K * T)) :
  (filter (fun ke => P ke.2) l).*2 = filter (fun e => P e) l.*2.
Proof.
  induction l as [|[id e] l IH]; [done|].
  rewrite fmap_cons, !filter_cons. cbn [snd].
  destruct (decide (P e)); by rewrite ?fmap_cons, IH.
Qed.

(** Two results that show the same cache differ in order at most. *)
Lemma shows_same o m x y : shows o m x -> shows o m y -> same_up_to_order o x y.
Proof.
  destruct o as [g id|g id e|g id|g| |g|f|g f|f|g f]; cbn [shows same_up_to_order].
  - by intros -> ->.
  - by intros -> ->.
  - by intros -> ->.
  - by intros -> ->.
  - intros (Mx & -> & Hx) (My & -> & Hy). exists Mx, My. split_and!; [done|done|].
    intros g'. specialize (Hx g'). specialize (Hy g').
    destruct (m !! g') as [b|].
    + destruct Hx as (lx & -> & Hlx), Hy as (ly & -> & Hly). constructor.
      by rewrite Hlx, Hly.
    + rewrite Hx, Hy. constructor.
  - destruct (m !! g) as [b|].
    + intros (lx & -> & Hlx) (ly & -> & Hly). right. exists lx, ly.
      split_and!; [done|done|]. by rewrite Hlx, Hly.
    + intros -> ->. by left.
  - intros (ex & fx & -> & Hx1 & Hx0) (ey & fy & -> & Hy1 & Hy0).
    assert (fx = fy) as <-.
    { destruct fx, fy; try done.
      - destruct (Hx1 eq_refl) as (g & id & Hheld & Hf).
        destruct (Hy0 eq_refl) as [_ Hnone]. specialize (Hnone g id ex Hheld). congruence.
      - destruct (Hy1 eq_refl) as (g & id & Hheld & Hf).
        destruct (Hx0 eq_refl) as [_ Hnone]. specialize (Hnone g id ey Hheld). congruence. }
    exists ex, ey, fx. split_and!; [done|done| |].
    + intros Hf. destruct (Hx0 Hf) as [-> _], (Hy0 Hf) as [-> _]. done.
    + intros Hf. destruct (Hx1 Hf) as (g & _ & _ & ?), (Hy1 Hf) as (g' & _ & _ & ?). eauto.
  - intros (ex & fx & -> & Hx1 & Hx0) (ey & fy & -> & Hy1 & Hy0).
    assert (fx = fy) as <-.
    { destruct fx, fy; try done.
      - destruct (Hx1 eq_refl) as (id & Hheld & Hf).
        destruct (Hy0 eq_refl) as [_ Hnone]. specialize (Hnone id ex Hheld). congruence.
      - destruct (Hy1 eq_refl) as (id & Hheld & Hf).
        destruct (Hx0 eq_refl) as [_ Hnone]. specialize (Hnone id ey Hheld). congruence. }
    exists ex, ey, fx. split_and!; [done|done| |].
    + intros Hf. destruct (Hx0 Hf) as [-> _], (Hy0 Hf) as [-> _]. done.
    + intros Hf. destruct (Hx1 Hf) as (_ & _ & ?), (Hy1 Hf) as (_ & _ & ?). eauto.
  - intros (lx & -> & Hlx) (ly & -> & Hly). exists lx, ly.
    split_and!; [done|done|]. by rewrite Hlx, Hly.
  - intros (lx & -> & Hlx) (ly & -> & Hly). exists lx, ly.
    split_and!; [done|done|]. by rewrite Hlx, Hly.
Qed.

Lemma holds_after_config (c c' : Cache.DefaultGroupedCache T) o m :
  config c' = config c -> holds_after c' o m = holds_after c o m.
Proof.
  unfold config. intros [= Hf Hn Hp]. destruct o; cbn [holds_after]; try done.
  unfold Cache.flags_reject, Cache.policy_rejects. by rewrite Hf, Hn, Hp.
Qed.

End Pure.

Section OneOrder.
Context {K : Type} `{Countable K} {T : Type} `{!Zero T} `{!RangeOrder K}.
Implicit Types (s : Cache.state K T) (o : op K T) (g id : K).

Lemma Get_held s g id : Cache.Get s g id = Cache.found (held (contents s) g id).
Proof. apply Get_contents. Qed.

Lemma Get_true_held s g id e : Cache.Get s g id = (e, true) <-> held (contents s) g id = Some e.
Proof. rewrite Get_held. apply found_Some. Qed.

(** [Remove] returns what [Get] returned before it. *)
Lemma Remove_returns s g id : (Cache.Remove s g id).1 = Cache.Get s g id.
Proof.
  destruct (Cache.Get s g id) as [e [|]] eqn:Hget.
  - by destruct (CacheSpec.Remove_present s g id e Hget).
  - rewrite CacheSpec.Remove_absent by (by rewrite Hget).
    rewrite CacheSweep.Get_stored in Hget. unfold Cache.found in Hget.
    destruct (stored s g id); [done|]. by injection Hget as <-.
Qed.

Lemma wf_copy (c : Cache.DefaultGroupedCache T) h (r : value * Cache.state K T) :
  wf (c, h) -> r.2.1 = c /\ is_copy h r.1 r.2.2 -> wf r.2.
Proof.
  destruct r as [v [c' h']]. intros Hwf [Hc [He _]]. cbn in *. subst c'.
  unfold wf in *; cbn in *. by apply (wf_maps_extends h).
Qed.

(** No call breaks the cache. *)
Lemma wf_step s o : wf s -> wf (cache_step s o).2.
Proof.
  intros Hwf. destruct o as [g id|g id e|g id|g| |g|f|g f|f|g f]; cbn [cache_step].
  - done.
  - by apply CacheInv.wf_Put.
  - pose proof (CacheInv.wf_Remove s g id Hwf). by destruct (Cache.Remove s g id).
  - by apply CacheInv.wf_RemoveAll.
  - destruct s as [c h]. pose proof (wf_copy c h _ Hwf (Copies.Cache_All_copy c h)).
    by destruct (Cache.All (c, h)).
  - destruct s as [c h]. pose proof (wf_copy c h _ Hwf (Copies.Cache_GroupAll_copy c h g)).
    by destruct (Cache.GroupAll (c, h) g).
  - done.
  - done.
  - destruct s as [c h]. pose proof (wf_copy c h _ Hwf (Copies.Cache_FindAll_copy c h f)).
    by destruct (Cache.FindAll (c, h) f).
  - destruct s as [c h].
    pose proof (wf_copy c h _ Hwf (Copies.Cache_GroupFindAll_copy c h g f)).
    by destruct (Cache.GroupFindAll (c, h) g f).
Qed.

Lemma Put_holds s g id e :
  wf s -> contents (Cache.Put s g id e) = holds_after s.1 (OpPut g id e) (contents s).
Proof.
  intros Hwf. cbn [holds_after].
  destruct (Cache.flags_reject s.1) eqn:Hf; cbn [orb].
  - destruct s as [c h]. cbn [fst] in Hf. unfold Cache.Put. by rewrite Hf.
  - destruct (Cache.policy_rejects s.1 e) eqn:Hp.
    + destruct s as [c h]. cbn [fst] in Hf, Hp. unfold Cache.Put. by rewrite Hf, Hp.
    + apply Put_contents; [done|]. split.
      * by rewrite <- CacheSpec.flags_reject_Missing.
      * intros p Hpol. unfold Cache.policy_rejects in Hp. rewrite Hpol in Hp.
        by destruct (p e).
Qed.

(** What the cache holds after a call is fixed by what it held and its
    settings. *)
Lemma step_holds s o :
  wf s -> contents (cache_step s o).2 = holds_after s.1 o (contents s).
Proof.
  intros Hwf. destruct o as [g id|g id e|g id|g| |g|f|g f|f|g f]; cbn [cache_step].
  - done.
  - by apply Put_holds.
  - pose proof (Remove_contents s g id Hwf). by destruct (Cache.Remove s g id).
  - apply RemoveAll_contents.
  - destruct (All_spec s) as (M & _ & _ & Hc). by destruct (Cache.All s).
  - destruct (GroupAll_spec s g) as [_ Hc]. by destruct (Cache.GroupAll s g).
  - done.
  - done.
  - destruct (FindAll_spec s f) as (l & _ & _ & _ & Hc). by destruct (Cache.FindAll s f).
  - destruct (GroupFindAll_spec s g f) as (l & _ & _ & _ & Hc).
    by destruct (Cache.GroupFindAll s g f).
Qed.

Lemma see_slice (h : heap K T) v l : read_slice h v = Some l -> see h (RValue v) = SSlice l.
Proof. destruct v; cbn; congruence. Qed.

Lemma see_slice_map (h : heap K T) v M :
  read_slice_map h v = Some M -> see h (RValue v) = SSliceMap M.
Proof. destruct v; cbn; congruence. Qed.

Lemma entries_in_entries s : entries_in s.2 (Cache.cache s.1) = entries (contents s).
Proof. reflexivity. Qed.

(** [GroupFindAll]: the entities of the group that the filter picks, each
    as often as it is stored. *)
Lemma GroupFindAll_picks s g (f : K -> T -> bool) :
  exists l,
    read_slice (Cache.GroupFindAll s g f).2.2 (Cache.GroupFindAll s g f).1 = Some l /\
    l ≡ₚ filter (fun e => f g e) (group_values (contents s) g).
Proof.
  destruct s as [c h].
  assert (Cache.GroupFindAll (c, h) g f =
          (VSlice (next h),
           (c, foldl (fun h0 '(_, entity) =>
                        if f g entity then slice_append h0 (next h) entity else h0)
                     (make_slice h).2 (range_entities h (index_group h (Cache.cache c) g)))))
    as -> by reflexivity.
  cbn [fst snd read_slice].
  destruct (filter_loop (f g) (range_entities h (index_group h (Cache.cache c) g))
              (make_slice h).2 (next h)) as [Hs _].
  eexists. split; [reflexivity|].
  assert (slice_at (make_slice h).2 (next h) = []) as Hnil.
  { unfold slice_at, make_slice; cbn. by rewrite lookup_insert_eq. }
  rewrite Hs, Hnil, app_nil_l, filter_snd.
  unfold group_values, contents; cbn [fst snd]. by rewrite range_entities_contents.
Qed.

(** What a call returns shows what the cache held. *)
Lemma step_shows s o :
  shows o (contents s) (see (cache_step s o).2.2 (cache_step s o).1).
Proof.
  destruct o as [g id|g id e|g id|g| |g|f|g f|f|g f]; cbn [cache_step shows].
  - cbn [fst snd see]. by rewrite Get_held.
  - done.
  - pose proof (Remove_returns s g id) as Hr. destruct (Cache.Remove s g id) as [r s'].
    cbn [fst snd see] in *. by rewrite Hr, Get_held.
  - done.
  - destruct (All_spec s) as (M & HM & Hg & _). destruct (Cache.All s) as [v s'].
    cbn [fst snd] in *. exists M. split; [by apply see_slice_map|done].
  - destruct (GroupAll_spec s g) as [Hg _]. destruct (contents s !! g) as [b|].
    + destruct Hg as (l & Hl & Hperm). destruct (Cache.GroupAll s g) as [v s'].
      cbn [fst snd] in *. exists l. split; [by apply see_slice|done].
    + by rewrite Hg.
  - cbn [fst snd see]. destruct (FindFirst_spec s f) as [Hsome Hnone].
    destruct (Cache.FindFirst s f) as [e fnd]. exists e, fnd. split_and!; [done| |].
    + intros ->. destruct (Hsome e eq_refl) as (g & id & Hget & Hf).
      exists g, id. split; [by apply Get_true_held|done].
    + intros ->. destruct (Hnone eq_refl) as [[= ->] Hno]. split; [done|].
      intros g id e' Hheld. apply (Hno g id e'). by apply Get_true_held.
  - cbn [fst snd see]. destruct (GroupFindFirst_spec s g f) as [Hsome Hnone].
    destruct (Cache.GroupFindFirst s g f) as [e fnd]. exists e, fnd. split_and!; [done| |].
    + intros ->. destruct (Hsome e eq_refl) as (id & Hget & Hf).
      exists id. split; [by apply Get_true_held|done].
    + intros ->. destruct (Hnone eq_refl) as [[= ->] Hno]. split; [done|].
      intros id e' Hheld. apply (Hno id e'). by apply Get_true_held.
  - destruct (FindAll_spec s f) as (l & Hl & Hperm & _). rewrite entries_in_entries in Hperm.
    destruct (Cache.FindAll s f) as [v s']. cbn [fst snd] in *.
    exists l. split; [by apply see_slice|done].
  - destruct (GroupFindAll_picks s g f) as (l & Hl & Hperm).
    destruct (Cache.GroupFindAll s g f) as [v s']. cbn [fst snd] in *.
    exists l. split; [by apply see_slice|done].
Qed.

(** A run of package core, read as a run of package cache. *)
Lemma core_run_seen (os : list (op K T)) : forall s : Cache.state K T,
  run_seen core_step snd (to_core_state s) os =
  ((run_seen cache_step snd s os).1, to_core_state (run_seen cache_step snd s os).2).
Proof.
  induction os as [|o os IH]; intros s; [done|].
  cbn [run_seen]. rewrite step_agree. destruct (cache_step s o) as [r s1].
  cbn [fst snd]. rewrite IH. by destruct (run_seen cache_step snd s1 os).
Qed.

End OneOrder.

Section TwoOrders.
Context {K : Type} `{Countable K} {T : Type} `{!Zero T}.

(** Two runs of the same calls, each under an order of its own, from caches
    that hold the same and have the same settings. *)
Lemma runs_same (O1 O2 : RangeOrder K) (os : list (op K T)) :
  forall sa sb : Cache.state K T,
    wf sa -> wf sb -> contents sb = contents sa -> config sb.1 = config sa.1 ->
    let a := run_seen (cache_step (RangeOrder0 := O1)) snd sa os in
    let b := run_seen (cache_step (RangeOrder0 := O2)) snd sb os in
    Forall3 same_up_to_order os a.1 b.1 /\
    contents b.2 = contents a.2 /\
    config b.2.1 = config a.2.1.
Proof.
  induction os as [|o os IH]; intros sa sb Hwa Hwb Hc Hcfg; cbn zeta.
  - cbn [run_seen fst snd]. split_and!; [constructor|done|done].
  - cbn [run_seen].
    pose proof (step_shows (RangeOrder0 := O1) sa o) as Hxa.
    pose proof (step_shows (RangeOrder0 := O2) sb o) as Hxb.
    pose proof (step_holds (RangeOrder0 := O1) sa o Hwa) as Hha.
    pose proof (step_holds (RangeOrder0 := O2) sb o Hwb) as Hhb.
    pose proof (wf_step (RangeOrder0 := O1) sa o Hwa) as Hwa'.
    pose proof (wf_step (RangeOrder0 := O2) sb o Hwb) as Hwb'.
    pose proof (step_config (RangeOrder0 := O1) sa o) as Hca.
    pose proof (step_config (RangeOrder0 := O2) sb o) as Hcb.
    destruct (cache_step (RangeOrder0 := O1) sa o) as [ra sa'].
    destruct (cache_step (RangeOrder0 := O2) sb o) as [rb sb'].
    cbn [fst snd] in *.
    assert (contents sb' = contents sa') as Hc'.
    { rewrite Hha, Hhb, Hc. by apply holds_after_config. }
    assert (config sb'.1 = config sa'.1) as Hcfg' by congruence.
    specialize (IH sa' sb' Hwa' Hwb' Hc' Hcfg'). cbn zeta in IH.
    destruct (run_seen (cache_step (RangeOrder0 := O1)) snd sa' os) as [xs sa''].
    destruct (run_seen (cache_step (RangeOrder0 := O2)) snd sb' os) as [ys sb''].
    cbn [fst snd] in *. destruct IH as (Hall & Hc'' & Hcfg'').
    split_and!; [|done|done]. constructor; [|done].
    rewrite Hc in Hxb. by apply (shows_same o (contents sa)).
Qed.

End TwoOrders.
End OrderSpec.

(** ** [Cache] and [GroupCache] of package core: the maps of the cache
    itself *)
Module Views.
Import Go GoFacts Inv Ops Enum Equiv EnumSpec.

Section Views.
Context {K : Type} `{Countable K} {T : Type} `{!Zero T} `{!RangeOrder K}.
Implicit Types (g id : K) (e : T) (r : positive).

Lemma Put_ref (s : Cache.state K T) g id e r :
  Cache.cache s.1 = Some r -> Cache.cache (Cache.Put s g id e).1 = Some r.
Proof.
  destruct s as [c h]. cbn [fst]. intros Hr. rewrite CacheSpec.Put_unfold, Hr.
  destruct (Cache.flags_reject c); [done|]. destruct (Cache.policy_rejects c e); [done|].
  by destruct (groups_at h r !! g).
Qed.

Lemma step_ref (s : Cache.state K T) (o : op K T) r :
  Cache.cache s.1 = Some r -> Cache.cache (cache_step s o).2.1 = Some r.
Proof.
  intros Hr.
  destruct o as [g id|g id e|g id|g| |g|f|g f|f|g f]; cbn [cache_step]; try done.
  - by apply Put_ref.
  - destruct s as [c h]. rewrite CacheSpec.Remove_unfold.
    destruct (index_group h (Cache.cache c) g) as [b|]; [|done].
    by destruct (entities_at h b !! id).
  - destruct s as [c h]. rewrite CacheSpec.RemoveAll_unfold.
    by destruct (Cache.cache c).
  - destruct s as [c h]. destruct (Copies.Cache_All_copy c h) as [Hc _].
    destruct (Cache.All (c, h)). cbn in *. by rewrite Hc.
  - destruct s as [c h]. destruct (Copies.Cache_GroupAll_copy c h g) as [Hc _].
    destruct (Cache.GroupAll (c, h) g). cbn in *. by rewrite Hc.
  - destruct s as [c h]. destruct (Copies.Cache_FindAll_copy c h f) as [Hc _].
    destruct (Cache.FindAll (c, h) f). cbn in *. by rewrite Hc.
  - destruct s as [c h]. destruct (Copies.Cache_GroupFindAll_copy c h g f) as [Hc _].
    destruct (Cache.GroupFindAll (c, h) g f). cbn in *. by rewrite Hc.
Qed.

Lemma run_ref (os : list (op K T)) : forall (s : Cache.state K T) r,
  Cache.cache s.1 = Some r -> Cache.cache (run cache_step s os).2.1 = Some r.
Proof.
  induction os as [|o os IH]; intros s r Hr; [done|].
  cbn [run]. pose proof (step_ref s o r Hr) as Hs.
  destruct (cache_step s o) as [x s1]. pose proof (IH s1 r Hs) as Hrun.
  by destruct (run cache_step s1 os).
Qed.

Lemma core_run_ref (os : list (op K T)) (s : Core.state K T) r :
  Core.cache s.1 = Some r -> Core.cache (run core_step s os).2.1 = Some r.
Proof.
  intros Hr. rewrite <- (to_of_core_state s), run_agree. cbn [snd].
  apply (run_ref os (of_core_state s) r). by destruct s as [[] h].
Qed.

(** The map that [Cache] returned shows, after any later calls, what the
    cache then holds. *)
Lemma Cache_live (s : Core.state K T) (os : list (op K T)) r :
  Core.cache s.1 = Some r ->
  Core.Cache s = (VGroupMap r, s) /\
  read_group_map (run core_step s os).2.2 (VGroupMap r)
  = Some (core_contents (run core_step s os).2).
Proof.
  intros Hr. split.
  - destruct s as [c h]. cbn in *. by rewrite Hr.
  - unfold core_contents. by rewrite (core_run_ref os s r Hr).
Qed.

(** The map that [GroupCache] returned for a group shows an entity put into
    the group afterwards. *)
Lemma GroupCache_live (s : Core.state K T) g id e b :
  index_group s.2 (Core.cache s.1) g = Some b ->
  core_accepted s.1 e ->
  Core.GroupCache s g = (VEntityMap b, s) /\
  read_entity_map (Core.Put s g id e).2 (VEntityMap b)
  = Some (<[id := e]> (entities_at s.2 b)) /\
  core_contents (Core.Put s g id e) !! g = Some (<[id := e]> (entities_at s.2 b)).
Proof.
  intros Hb Ha. split.
  - destruct s as [c h]. cbn in *. by rewrite Hb.
  - apply CoreSpec.accepted_eq, CacheSpec.accepted_guards in Ha as [Hf Hp].
    rewrite CoreSpec.Put_eq. destruct s as [c h]. unfold of_core_state in *.
    cbn [fst snd] in *. rewrite CacheSpec.Put_unfold, Hf, Hp.
    destruct (Core.cache c) as [r|] eqn:Hr; [|done]. cbn [index_group] in Hb.
    cbn [of_core Cache.cache]. rewrite Hr, Hb.
    unfold core_contents, to_core_state. cbn [fst snd to_core Core.cache read_entity_map].
    cbn [of_core Cache.cache]. rewrite Hr, contents_in_lookup. cbn [index_group].
    rewrite groups_at_entity_store, Hb. cbn [fmap option_fmap option_map].
    by rewrite entities_at_entity_store, decide_True.
Qed.

End Views.
End Views.

(** ** The grouped cache, claim by claim *)
Module GroupedCacheClaims.
Import Go GoFacts Inv Ops Enum Order Examples.

Section Claims.
Context {K : Type} `{Countable K} {T : Type} `{!Zero T} `{!RangeOrder K}.

(** C1. A [Put] that is turned away, because a needed flag is missing or
    because the policy says no, is a no-op: the cache is unchanged, and a
    [Get] that found nothing before finds nothing after.  Both packages. *)
Theorem Put_rejected_is_noop :
  (forall (s : Cache.state K T) g id e,
     rejected s.1 e ->
     Cache.Put s g id e = s /\
     ((Cache.Get s g id).2 = false -> (Cache.Get (Cache.Put s g id e) g id).2 = false)) /\
  (forall (s : Core.state K T) g id e,
     core_rejected s.1 e ->
     Core.Put s g id e = s /\
     ((Core.Get s g id).2 = false -> (Core.Get (Core.Put s g id e) g id).2 = false)).
Proof.
  split; intros s g id e Hr.
  - rewrite CacheSpec.rejected_Put by done. auto.
  - rewrite CoreSpec.core_rejected_Put by done. auto.
Qed.

(** C2. An accepted [Put] stores the entity: [Get] then returns it with
    found = true, the group has a bucket, and in a well-formed cache every
    other key reads as before.  Both packages. *)
Theorem Put_accepted_then_Get :
  (forall (s : Cache.state K T) g id e,
     accepted s.1 e ->
     Cache.Get (Cache.Put s g id e) g id = (e, true) /\
     is_Some (index_group (Cache.Put s g id e).2 (Cache.cache (Cache.Put s g id e).1) g) /\
     (wf s -> forall g' id', (g', id') <> (g, id) ->
        Cache.Get (Cache.Put s g id e) g' id' = Cache.Get s g' id')) /\
  (forall (s : Core.state K T) g id e,
     core_accepted s.1 e ->
     Core.Get (Core.Put s g id e) g id = (e, true) /\
     is_Some (index_group (Core.Put s g id e).2 (Core.cache (Core.Put s g id e).1) g) /\
     (core_wf s -> forall g' id', (g', id') <> (g, id) ->
        Core.Get (Core.Put s g id e) g' id' = Core.Get s g' id')).
Proof.
  split; intros s g id e Ha; split_and!.
  - by apply CacheSpec.Put_Get.
  - by apply CacheSpec.Put_bucket.
  - intros Hwf g' id' Hne. by apply CacheSpec.Put_Get_other.
  - by apply CoreSpec.core_Put_Get.
  - by apply CoreSpec.core_Put_bucket.
  - intros Hwf g' id' Hne. by apply CoreSpec.core_Put_Get_other.
Qed.

(** C3. [Put] is idempotent: the same [Put] twice leaves exactly the state
    that one [Put] leaves, receiver and store alike. *)
Theorem Put_idempotent (s : Cache.state K T) g id e :
  Cache.Put (Cache.Put s g id e) g id e = Cache.Put s g id e.
Proof. apply CacheSpec.Put_Put. Qed.

(** C4. [Remove] of a present entity returns it with found = true and a
    later [Get] finds nothing; [Remove] of an absent one returns the zero
    value with found = false and leaves the state as it is.  Both
    packages. *)
Theorem Remove_present_or_absent :
  (forall (s : Cache.state K T) g id,
     (forall e, Cache.Get s g id = (e, true) ->
        (Cache.Remove s g id).1 = (e, true) /\
        Cache.Get (Cache.Remove s g id).2 g id = (zero, false)) /\
     ((Cache.Get s g id).2 = false -> Cache.Remove s g id = ((zero, false), s))) /\
  (forall (s : Core.state K T) g id,
     (forall e, Core.Get s g id = (e, true) ->
        (Core.Remove s g id).1 = (e, true) /\
        Core.Get (Core.Remove s g id).2 g id = (zero, false)) /\
     ((Core.Get s g id).2 = false -> Core.Remove s g id = ((zero, false), s))).
Proof.
  split; intros s g id; split.
  - intros e. apply CacheSpec.Remove_present.
  - apply CacheSpec.Remove_absent.
  - intros e. apply CoreSpec.core_Remove_present.
  - apply CoreSpec.core_Remove_absent.
Qed.

(** C5. [RemoveAll(G)] empties group [G] and leaves every other group as it
    was.  Both packages. *)
Theorem RemoveAll_group_only :
  (forall (s : Cache.state K T) G,
     (forall id, Cache.Get (Cache.RemoveAll s G) G id = (zero, false)) /\
     (forall G' id, G' <> G ->
        Cache.Get (Cache.RemoveAll s G) G' id = Cache.Get s G' id)) /\
  (forall (s : Core.state K T) G,
     (forall id, Core.Get (Core.RemoveAll s G) G id = (zero, false)) /\
     (forall G' id, G' <> G ->
        Core.Get (Core.RemoveAll s G) G' id = Core.Get s G' id)).
Proof.
  split; intros s G; split.
  - intros id. apply CacheSpec.RemoveAll_Get.
  - intros G' id Hne. by apply CacheSpec.RemoveAll_Get_other.
  - intros id. apply CoreSpec.core_RemoveAll_Get.
  - intros G' id Hne. by apply CoreSpec.core_RemoveAll_Get_other.
Qed.

(** C6. After [RemoveIf(p)] on a cache in a state that the package
    produces, an entity is stored under (group, id) exactly when it was
    stored there before and [p] does not pick it; an entity that [p] picks
    is gone. *)
Theorem RemoveIf_keeps_exactly (s : Cache.state K T) (p : K -> T -> bool) g id e :
  wf s ->
  (Cache.Get (Cache.RemoveIf s p) g id = (e, true) <->
   Cache.Get s g id = (e, true) /\ p g e = false) /\
  (Cache.Get s g id = (e, true) -> p g e = true ->
   Cache.Get (Cache.RemoveIf s p) g id = (zero, false)).
Proof.
  intros Hwf. pose proof (CacheSweep.RemoveIf_stored s p g id Hwf) as Hs. split.
  - rewrite !CacheSweep.Get_found, Hs. unfold keep.
    destruct (stored s g id) as [e'|]; [destruct (p g e') eqn:Hp|]; split.
    + done.
    + intros [[= ->] Hpe]. congruence.
    + intros [= ->]. by split.
    + by intros [[= ->] _].
    + done.
    + by intros [? _].
  - intros Hg%CacheSweep.Get_found Hp.
    rewrite CacheSweep.Get_stored, Hs, Hg. cbn. by rewrite Hp.
Qed.

(** C7, as amended.  The enumerations that build their result hand back a
    copy: [All], [GroupAll], [MapAll], [MapGroupAll], [FindAll] and
    [GroupFindAll] of package cache, and [All], [GroupAll], [FindAll] and
    [GroupFindAll] of package core.  [Cache] and [GroupCache] of package
    core hand back the maps the cache itself works on. *)
Theorem enumerations_copy :
  (cache_copy (K:=K) (T:=T) Cache.All /\
   (forall g, cache_copy (fun s => Cache.GroupAll s g)) /\
   cache_copy (K:=K) (T:=T) Cache.MapAll /\
   (forall g, cache_copy (fun s => Cache.MapGroupAll s g)) /\
   (forall f, cache_copy (fun s => Cache.FindAll s f)) /\
   (forall g f, cache_copy (fun s => Cache.GroupFindAll s g f))) /\
  (core_copy (K:=K) (T:=T) Core.All /\
   (forall g, core_copy (fun s => Core.GroupAll s g)) /\
   (forall f, core_copy (fun s => Core.FindAll s f)) /\
   (forall g f, core_copy (fun s => Core.GroupFindAll s g f))) /\
  (forall (c : Core.DefaultGroupedCache T) (h : heap K T) r (g : K) b,
     Core.cache c = Some r ->
     Core.Cache (c, h) = (VGroupMap r, (c, h)) /\
     (groups_at h r !! g = Some b ->
      Core.GroupCache (c, h) g = (VEntityMap b, (c, h)))).
Proof.
  assert (forall (acc : Cache.state K T -> value * Cache.state K T),
            (forall c h, (acc (c, h)).2.1 = c /\ is_copy h (acc (c, h)).1 (acc (c, h)).2.2) ->
            cache_copy acc) as Hcache.
  { intros acc Hacc [c h] ms g id Hwf Hms. destruct (Hacc c h) as [Hc Hcopy].
    rewrite Hc, !CacheSweep.Get_stored. unfold stored; cbn [fst snd].
    by rewrite (Copies.is_copy_stored h _ _ (Cache.cache c) ms g id Hwf Hcopy Hms). }
  assert (forall (acc : Core.state K T -> value * Core.state K T),
            (forall c h, (acc (c, h)).2.1 = c /\ is_copy h (acc (c, h)).1 (acc (c, h)).2.2) ->
            core_copy acc) as Hcore.
  { intros acc Hacc [c h] ms g id Hwf Hms. destruct (Hacc c h) as [Hc Hcopy].
    rewrite Hc, !CoreSpec.Get_eq, !CacheSweep.Get_stored.
    unfold stored, of_core_state; cbn [fst snd Cache.cache of_core].
    by rewrite (Copies.is_copy_stored h _ _ (Core.cache c) ms g id Hwf Hcopy Hms). }
  split_and!.
  - apply Hcache, Copies.Cache_All_copy.
  - intros g. apply Hcache. intros c h. apply Copies.Cache_GroupAll_copy.
  - apply Hcache, Copies.Cache_MapAll_copy.
  - intros g. apply Hcache. intros c h. apply Copies.Cache_MapGroupAll_copy.
  - intros f. apply Hcache. intros c h. apply Copies.Cache_FindAll_copy.
  - intros g f. apply Hcache. intros c h. apply Copies.Cache_GroupFindAll_copy.
  - apply Hcore, Copies.Core_All_copy.
  - intros g. apply Hcore. intros c h. apply Copies.Core_GroupAll_copy.
  - intros f. apply Hcore. intros c h. apply Copies.Core_FindAll_copy.
  - intros g f. apply Hcore. intros c h. apply Copies.Core_GroupFindAll_copy.
  - intros c h r g b Hc. unfold Core.Cache, Core.GroupCache. rewrite Hc. cbn [index_group].
    split; [done|]. by intros ->.
Qed.

(** C9, amended. Started with the same flags, needed flags and policy on
    the same store, the two packages agree up to the order in which Go
    ranges over a map.  Given the same order, they return the same results
    for every sequence of the calls they share and end in the same state.
    Given any two orders, [Get], [Put], [Remove] and [RemoveAll] return the
    same, [All], [GroupAll], [FindAll] and [GroupFindAll] return the same
    elements in some order, [FindFirst] and [GroupFindFirst] find or miss
    together and return entities that pass the filter, and both end
    holding the same. *)
Theorem packages_agree (fl needed : Z) (p : option (T -> bool)) (h : heap K T)
    (os : list (op K T)) :
  (let a := run cache_step (Cache.NewGroupedCache fl needed p h) os in
   let b := run core_step (Core.NewGroupedCache fl needed p h) os in
   b.1 = a.1 /\
   b.2 = to_core_state a.2 /\
   (forall g id, Core.Get b.2 g id = Cache.Get a.2 g id)) /\
  (forall O1 O2 : RangeOrder K,
     let a := run_seen (cache_step (RangeOrder0 := O1)) snd
                (Cache.NewGroupedCache fl needed p h) os in
     let b := run_seen (core_step (RangeOrder0 := O2)) snd
                (Core.NewGroupedCache fl needed p h) os in
     Forall3 same_up_to_order os a.1 b.1 /\
     core_contents b.2 = contents a.2 /\
     (forall g id, Core.Get b.2 g id = Cache.Get a.2 g id)).
Proof.
  split.
  - cbn zeta. rewrite Equiv.New_agree, Equiv.run_agree. cbn [fst snd].
    split_and!; [done|done|]. intros g id.
    by rewrite CoreSpec.Get_eq, CoreSpec.of_to_core_state.
  - intros O1 O2. cbn zeta.
    rewrite Equiv.New_agree, (OrderSpec.core_run_seen (RangeOrder0 := O2)). cbn [fst snd].
    destruct (OrderSpec.runs_same O1 O2 os
                (Cache.NewGroupedCache fl needed p h) (Cache.NewGroupedCache fl needed p h))
      as (Hall & Hc & _); [apply CacheInv.wf_New|apply CacheInv.wf_New|done|done|].
    cbn zeta in Hall, Hc. split_and!; [done|done|].
    intros g id. rewrite CoreSpec.Get_eq, CoreSpec.of_to_core_state.
    by rewrite !Contents.Get_contents, Hc.
Qed.

End Claims.
End GroupedCacheClaims.

(** ** The cache claims on small caches *)
Module GroupedCacheExamples.
Import Go GoFacts Inv Ops Order Examples GroupedCacheClaims.

Lemma wf_cache_two : wf cache_two.
Proof. apply CacheInv.wf_Put, CacheInv.wf_Put, CacheInv.wf_New. Defined.

Lemma wf_core_two : core_wf core_two.
Proof. apply CoreSpec.wf_eq. exact wf_cache_two. Defined.

(** C1 at a cache whose needed flag is off, and at one whose policy says
    no. *)
Lemma Put_rejected_is_noop_witness :
  (rejected cache_off.1 7%Z /\ Cache.Put cache_off 1%Z 2%Z 7%Z = cache_off) /\
  (core_rejected core_on.1 (-5)%Z /\ Core.Put core_on 1%Z 2%Z (-5)%Z = core_on).
Proof.
  assert (rejected cache_off.1 7%Z) as H1 by (left; reflexivity).
  assert (core_rejected core_on.1 (-5)%Z) as H2 by (right; eexists; split; reflexivity).
  destruct (Put_rejected_is_noop (K:=Z) (T:=Z)) as [Hcache Hcore].
  split; (split; [assumption|]).
  - apply (Hcache cache_off 1%Z 2%Z 7%Z H1).
  - apply (Hcore core_on 1%Z 2%Z (-5)%Z H2).
Defined.

(** C2 at a cache whose flag is on and whose policy says yes. *)
Lemma Put_accepted_then_Get_witness :
  (accepted cache_on.1 100%Z /\
   Cache.Get (Cache.Put cache_on 1%Z 10%Z 100%Z) 1%Z 10%Z = (100%Z, true)) /\
  (core_accepted core_on.1 100%Z /\
   Core.Get (Core.Put core_on 1%Z 10%Z 100%Z) 1%Z 10%Z = (100%Z, true)).
Proof.
  assert (accepted cache_on.1 100%Z) as H1.
  { split; [reflexivity|]. intros p [= <-]. reflexivity. }
  assert (core_accepted core_on.1 100%Z) as H2.
  { split; [reflexivity|]. intros p [= <-]. reflexivity. }
  destruct (Put_accepted_then_Get (K:=Z) (T:=Z)) as [Hcache Hcore].
  split; (split; [assumption|]).
  - apply (Hcache cache_on 1%Z 10%Z 100%Z H1).
  - apply (Hcore core_on 1%Z 10%Z 100%Z H2).
Defined.

(** C4 at a present and at an absent key. *)
Lemma Remove_present_or_absent_witness :
  (Cache.Get cache_two 1%Z 10%Z = (100%Z, true) /\
   (Cache.Remove cache_two 1%Z 10%Z).1 = (100%Z, true) /\
   Cache.Get (Cache.Remove cache_two 1%Z 10%Z).2 1%Z 10%Z = (0%Z, false)) /\
  ((Cache.Get cache_two 3%Z 30%Z).2 = false /\
   Cache.Remove cache_two 3%Z 30%Z = ((0%Z, false), cache_two)).
Proof.
  assert (Cache.Get cache_two 1%Z 10%Z = (100%Z, true)) as H1 by (vm_compute; reflexivity).
  assert ((Cache.Get cache_two 3%Z 30%Z).2 = false) as H2 by (vm_compute; reflexivity).
  destruct (Remove_present_or_absent (K:=Z) (T:=Z)) as [Hcache _].
  split.
  - split; [exact H1|]. apply (proj1 (Hcache cache_two 1%Z 10%Z) 100%Z H1).
  - split; [exact H2|]. apply (proj2 (Hcache cache_two 3%Z 30%Z) H2).
Defined.

(** C5: emptying group 1 leaves group 2. *)
Lemma RemoveAll_group_only_witness :
  2%Z <> 1%Z /\
  Cache.Get (Cache.RemoveAll cache_two 1%Z) 2%Z 20%Z = Cache.Get cache_two 2%Z 20%Z.
Proof.
  assert (2%Z <> 1%Z) as Hne by lia.
  split; [exact Hne|].
  apply (proj2 (proj1 (RemoveAll_group_only (K:=Z) (T:=Z)) cache_two 1%Z) 2%Z 20%Z Hne).
Defined.

(** C6: sweeping the entities below 150 out of the two groups. *)
Lemma RemoveIf_keeps_exactly_witness :
  wf cache_two /\
  Cache.Get (Cache.RemoveIf cache_two (fun _ e => (e <? 150)%Z)) 2%Z 20%Z = (200%Z, true) /\
  Cache.Get (Cache.RemoveIf cache_two (fun _ e => (e <? 150)%Z)) 1%Z 10%Z = (0%Z, false).
Proof.
  split; [exact wf_cache_two|]. split.
  - apply (RemoveIf_keeps_exactly cache_two (fun _ e => (e <? 150)%Z) 2%Z 20%Z 200%Z
             wf_cache_two).
    split; vm_compute; reflexivity.
  - apply (RemoveIf_keeps_exactly cache_two (fun _ e => (e <? 150)%Z) 1%Z 10%Z 100%Z
             wf_cache_two); vm_compute; reflexivity.
Defined.

(** C7, amended: a caller that empties group 1 of the map [MapAll] gave it
    leaves the cache as it was. *)
Lemma enumerations_copy_witness :
  wf cache_two /\
  mutates_only (reach (Cache.MapAll cache_two).2.2 (Cache.MapAll cache_two).1)
    [MutGroupDelete (K:=Z) (T:=Z) 4%positive 1%Z] /\
  Cache.Get ((Cache.MapAll cache_two).2.1,
             mutate (Cache.MapAll cache_two).2.2 [MutGroupDelete 4%positive 1%Z]) 1%Z 10%Z
  = Cache.Get cache_two 1%Z 10%Z.
Proof.
  assert (mutates_only (reach (Cache.MapAll cache_two).2.2 (Cache.MapAll cache_two).1)
            [MutGroupDelete (K:=Z) (T:=Z) 4%positive 1%Z]) as Hms.
  { constructor; [|constructor]. vm_compute. left. }
  split; [exact wf_cache_two|]. split; [exact Hms|].
  apply (proj1 (proj2 (proj2 (proj1 (enumerations_copy (K:=Z) (T:=Z)))))
           cache_two _ 1%Z 10%Z wf_cache_two Hms).
Defined.

(** C7 as stated fails: a caller that empties group 1 of the map [Cache]
    gave it has emptied group 1 of the cache, and one that deletes id 10
    from the map [GroupCache] gave it has deleted it from the cache. *)
Lemma Cache_and_GroupCache_alias :
  ~ core_copy (K:=Z) (T:=Z) Core.Cache /\
  ~ core_copy (K:=Z) (T:=Z) (fun s => Core.GroupCache s 1%Z).
Proof.
  split; intros Hcopy.
  - assert (mutates_only (reach (Core.Cache core_two).2.2 (Core.Cache core_two).1)
              [MutGroupDelete (K:=Z) (T:=Z) 1%positive 1%Z]) as Hms.
    { constructor; [|constructor]. vm_compute. left. }
    specialize (Hcopy core_two _ 1%Z 10%Z wf_core_two Hms).
    vm_compute in Hcopy. discriminate.
  - assert (mutates_only (reach (Core.GroupCache core_two 1%Z).2.2
                                (Core.GroupCache core_two 1%Z).1)
              [MutEntityDelete (K:=Z) (T:=Z) 2%positive 10%Z]) as Hms.
    { constructor; [|constructor]. vm_compute. left. }
    specialize (Hcopy core_two _ 1%Z 10%Z wf_core_two Hms).
    vm_compute in Hcopy. discriminate.
Qed.

(** C9 as stated fails: with two ids in one group and a filter that takes
    every entity, [FindFirst] of package cache, ranging in the model's
    order, and [FindFirst] of package core, ranging backwards, return
    different entities. *)
Lemma packages_differ_by_order :
  (run (cache_step (RangeOrder0 := map_to_list_order))
     (Cache.NewGroupedCache 1 1 None empty_heap)
     [OpPut 1%Z 10%Z 100%Z; OpPut 1%Z 11%Z 101%Z; OpFindFirst (fun _ _ => true)]).1
  = [RDone; RDone; RFound (101%Z, true)] /\
  (run (core_step (RangeOrder0 := reverse_order))
     (Core.NewGroupedCache 1 1 None empty_heap)
     [OpPut 1%Z 10%Z 100%Z; OpPut 1%Z 11%Z 101%Z; OpFindFirst (fun _ _ => true)]).1
  = [RDone; RDone; RFound (100%Z, true)].
Proof. split; vm_compute; reflexivity. Qed.

(** C9 on a short run: a [Put], an enumeration, a [Remove] and a [Get]. *)
Example packages_agree_run :
  (run core_step (Core.NewGroupedCache 1 1 None empty_heap)
     [OpPut 1%Z 10%Z 100%Z; OpAll; OpRemove 1%Z 10%Z; OpGet 1%Z 10%Z]).1
  = [RDone; RValue (VSliceMap 3); RFound (100%Z, true); RFound (0%Z, false)].
Proof. vm_compute. reflexivity. Qed.

End GroupedCacheExamples.

(** ** The ban-remove handler *)
Module HandlerClaims.
Import DiscordUser Handlers.

(** C8. The handler serves the GuildBanRemove tag and no other.  On a
    ban-remove payload it does not panic and makes two calls in this order:
    it puts [payload.User] into the users cache under [payload.User.ID],
    then dispatches one [GuildUnbanEvent] whose [GuildID] and [User] are
    those of the payload and whose generic part holds the bot and the
    sequence number it was called with. *)
Theorem ban_remove_handler (bot : positive) (sequenceNumber : Z)
    (payload : GuildBanRemoveGatewayEvent) :
  (forall t, serves t <-> t = GatewayEventTypeGuildBanRemove) /\
  (exists p, New = AnyGuildBanRemove p) /\
  exists cs event,
    HandleGatewayEvent bot sequenceNumber (AnyGuildBanRemove payload) = Some (tt, cs) /\
    cs = [Caches_Users_Put bot (ID (payload_User payload)) (payload_User payload);
          EventManager_Dispatch bot event] /\
    puts cs = [(bot, ID (payload_User payload), payload_User payload)] /\
    dispatched cs = [(bot, event)] /\
    GuildID event = payload_GuildID payload /\
    User_of event = payload_User payload /\
    event_sequenceNumber (GenericEvent_of event) = sequenceNumber /\
    event_bot (GenericEvent_of event) = bot.
Proof.
  split; [done|]. split; [by eexists|].
  eexists _, _. split; [reflexivity|]. by split_and!.
Qed.

(** Any other payload makes the type assertion panic before any call. *)
Lemma ban_remove_handler_other (bot : positive) (sequenceNumber : Z) :
  HandleGatewayEvent bot sequenceNumber AnyOther = None.
Proof. reflexivity. Qed.

End HandlerClaims.

(** ** Mentions *)
Module MentionClaims.
Import Mentions.

(** C10. For every snowflake id, the user, role and channel patterns each
    match what the formatter of that kind writes, the match is the whole
    mention, and group 1 is the id in base ten. *)
Theorem mention_roundtrip (id : N) :
  (MatchString MentionTypeUser (UserMention id) = true /\
   FindStringSubmatch MentionTypeUser (UserMention id)
   = Some [UserMention id; ID_String id]) /\
  (MatchString MentionTypeChannel (ChannelMention id) = true /\
   FindStringSubmatch MentionTypeChannel (ChannelMention id)
   = Some [ChannelMention id; ID_String id]) /\
  (MatchString MentionTypeRole (RoleMention id) = true /\
   FindStringSubmatch MentionTypeRole (RoleMention id)
   = Some [RoleMention id; ID_String id]).
Proof.
  unfold MatchString.
  rewrite MentionsSpec.UserMention_found, MentionsSpec.ChannelMention_found,
    MentionsSpec.RoleMention_found.
  by split_and!.
Qed.

(** The largest snowflake, and a mention inside a message. *)
Example mention_roundtrip_max :
  FindStringSubmatch MentionTypeRole (RoleMention 18446744073709551615)
  = Some ["<@&18446744073709551615>"%string; "18446744073709551615"%string].
Proof. vm_compute. reflexivity. Qed.

Example mention_in_message :
  FindStringSubmatch MentionTypeUser "hi <@!42> and <@7>"
  = Some ["<@!42>"%string; "42"%string].
Proof. vm_compute. reflexivity. Qed.

End MentionClaims.

(** ** Further properties of the grouped cache *)
Module GroupedCacheProperties.
Import Go GoFacts Inv Ops Enum Examples.

Section Properties.
Context {K : Type} `{Countable K} {T : Type} `{!Zero T} `{!RangeOrder K}.
Implicit Types (s : Cache.state K T) (g id : K) (e : T).

Lemma foldl_note {A B : Type} (f : A -> B) (l : list A) (seen : list B) :
  foldl (fun seen x => seen ++ [f x]) seen l = seen ++ (f <$> l).
Proof.
  revert seen. induction l as [|x l IH]; intros seen; cbn [foldl fmap list_fmap].
  - by rewrite app_nil_r.
  - by rewrite IH, <- app_assoc.
Qed.

Lemma ForEach_notes s :
  Cache.ForEach s note_group [] = visits s.2 (Cache.cache s.1).
Proof.
  rewrite (proj2 (EnumSpec.ForEach_spec s)). unfold note_group.
  rewrite (foldl_note (fun ge : K * T => (ge.1, ge.2))). cbn [app].
  induction (visits s.2 (Cache.cache s.1)) as [|[g e] l IH]; [done|].
  cbn. by rewrite IH.
Qed.

Lemma ForEach_noted s :
  Cache.ForEach s note_group [] ≡ₚ entries_in s.2 (Cache.cache s.1) /\
  (forall g e, (g, e) ∈ Cache.ForEach s note_group [] <->
               exists id, Cache.Get s g id = (e, true)) /\
  forall (A : Type) (f : K -> T -> A -> A) (a : A),
    Cache.ForEach s f a
    = foldl (fun a ge => f ge.1 ge.2 a) a (Cache.ForEach s note_group []).
Proof.
  rewrite ForEach_notes. destruct (EnumSpec.ForEach_spec s) as [Hperm Hrun].
  split_and!; [done| |done].
  intros g e. rewrite Hperm. apply EnumSpec.elem_of_entries.
Qed.

Lemma ForEachGroup_noted s g :
  Cache.ForEachGroup s g note []
    ≡ₚ match contents s !! g with Some b => values b | None => [] end /\
  (forall e, e ∈ Cache.ForEachGroup s g note [] <->
             exists id, Cache.Get s g id = (e, true)) /\
  forall (A : Type) (f : T -> A -> A) (a : A),
    Cache.ForEachGroup s g f a = foldl (fun a e => f e a) a (Cache.ForEachGroup s g note []).
Proof.
  destruct (EnumSpec.ForEachGroup_spec s g) as (es & Hperm & Hrun).
  assert (Cache.ForEachGroup s g note [] = es) as ->.
  { rewrite Hrun. unfold note. rewrite (foldl_note (fun e : T => e)). cbn [app].
    apply list_fmap_id. }
  split_and!; [done| |done].
  intros e. rewrite Hperm. setoid_rewrite Contents.Get_contents.
  destruct (contents s !! g) as [b|]; cbn.
  - rewrite EnumSpec.elem_of_values. unfold Cache.found.
    split; intros [id Hid]; exists id.
    + by rewrite Hid.
    + destruct (b !! id); congruence.
  - split; [by intros ?%elem_of_nil|]. intros [id Hid]. unfold Cache.found in Hid. congruence.
Qed.

(** X1. [GroupAll] of a group without a bucket is nil; of a group with one
    it is a slice with the entities of the group, each as often as it is
    stored.  The cache holds afterwards what it held. *)
Theorem GroupAll_lists_group s g :
  match contents s !! g with
  | None => Cache.GroupAll s g = (VNil, s)
  | Some m =>
      exists l, read_slice (Cache.GroupAll s g).2.2 (Cache.GroupAll s g).1 = Some l /\
                l ≡ₚ values m
  end /\
  contents (Cache.GroupAll s g).2 = contents s.
Proof. apply EnumSpec.GroupAll_spec. Qed.

(** X2. [All] returns a map that is never nil, with a key for each group
    that has a bucket and no other; the slice under a key holds the
    entities of that group.  The cache holds afterwards what it held. *)
Theorem All_lists_every_group s :
  exists M : gmap K (list T),
    read_slice_map (Cache.All s).2.2 (Cache.All s).1 = Some M /\
    (forall g,
       match contents s !! g with
       | Some b => exists l, M !! g = Some l /\ l ≡ₚ values b
       | None => M !! g = None
       end) /\
    contents (Cache.All s).2 = contents s.
Proof. apply EnumMaps.All_spec. Qed.

(** X3. [MapAll] of a well-formed cache returns a map of maps equal, read
    through, to what the cache holds, and leaves the cache holding it. *)
Theorem MapAll_maps_contents s :
  wf s ->
  read_group_map (Cache.MapAll s).2.2 (Cache.MapAll s).1 = Some (contents s) /\
  contents (Cache.MapAll s).2 = contents s.
Proof. apply EnumMaps.MapAll_spec. Qed.

(** X4. [MapGroupAll] of a well-formed cache returns the entity map of the
    group, nil for a group without a bucket, and leaves the cache holding
    what it held. *)
Theorem MapGroupAll_maps_group s g :
  wf s ->
  read_entity_map (Cache.MapGroupAll s g).2.2 (Cache.MapGroupAll s g).1 = contents s !! g /\
  contents (Cache.MapGroupAll s g).2 = contents s.
Proof. apply EnumMaps.MapGroupAll_spec. Qed.

(** X5. [FindFirst] is sound and complete: an entity it returns with
    found = true is stored in some group and passes the filter with that
    group; when it reports found = false it returns the zero value and no
    stored entity passes the filter. *)
Theorem FindFirst_finds s (f : K -> T -> bool) :
  (forall e, Cache.FindFirst s f = (e, true) ->
     exists g id, Cache.Get s g id = (e, true) /\ f g e = true) /\
  ((Cache.FindFirst s f).2 = false ->
     Cache.FindFirst s f = (zero, false) /\
     forall g id e, Cache.Get s g id = (e, true) -> f g e = false).
Proof. apply EnumSpec.FindFirst_spec. Qed.

(** X6. [GroupFindFirst] is sound and complete within its group. *)
Theorem GroupFindFirst_finds s g (f : K -> T -> bool) :
  (forall e, Cache.GroupFindFirst s g f = (e, true) ->
     exists id, Cache.Get s g id = (e, true) /\ f g e = true) /\
  ((Cache.GroupFindFirst s g f).2 = false ->
     Cache.GroupFindFirst s g f = (zero, false) /\
     forall id e, Cache.Get s g id = (e, true) -> f g e = false).
Proof. apply EnumSpec.GroupFindFirst_spec. Qed.

(** X7. [FindAll] returns a slice that is never nil and holds exactly the
    stored entities that pass the filter, one per stored id.  The cache
    holds afterwards what it held. *)
Theorem FindAll_finds_all s (f : K -> T -> bool) :
  exists l,
    read_slice (Cache.FindAll s f).2.2 (Cache.FindAll s f).1 = Some l /\
    l ≡ₚ (filter (fun ge => f ge.1 ge.2) (entries_in s.2 (Cache.cache s.1))).*2 /\
    (forall e, e ∈ l <-> exists g id, Cache.Get s g id = (e, true) /\ f g e = true) /\
    contents (Cache.FindAll s f).2 = contents s.
Proof. apply EnumSpec.FindAll_spec. Qed.

(** X8. [GroupFindAll] returns a slice that is never nil, also for a group
    without a bucket; it holds exactly the entities of the group that pass
    the filter, and no more of them than the group stores. *)
Theorem GroupFindAll_finds_all s g (f : K -> T -> bool) :
  exists l,
    read_slice (Cache.GroupFindAll s g f).2.2 (Cache.GroupFindAll s g f).1 = Some l /\
    (forall e, e ∈ l <-> exists id, Cache.Get s g id = (e, true) /\ f g e = true) /\
    length l <= match contents s !! g with Some b => size b | None => 0 end /\
    contents (Cache.GroupFindAll s g f).2 = contents s.
Proof. apply EnumSpec.GroupFindAll_spec. Qed.

(** X9. [ForEach] calls back once per stored id, with the group and the
    entity: the calls that a noting callback sees are the entries of the
    cache, and any callback is run over those calls in order. *)
Theorem ForEach_calls_once s :
  Cache.ForEach s note_group [] ≡ₚ entries_in s.2 (Cache.cache s.1) /\
  (forall g e, (g, e) ∈ Cache.ForEach s note_group [] <->
               exists id, Cache.Get s g id = (e, true)) /\
  forall (A : Type) (f : K -> T -> A -> A) (a : A),
    Cache.ForEach s f a
    = foldl (fun a ge => f ge.1 ge.2 a) a (Cache.ForEach s note_group []).
Proof. apply ForEach_noted. Qed.

(** X10. [ForEachGroup] calls back once per id stored in the group, and
    not at all for a group without a bucket. *)
Theorem ForEachGroup_calls_once s g :
  Cache.ForEachGroup s g note []
    ≡ₚ match contents s !! g with Some b => values b | None => [] end /\
  (forall e, e ∈ Cache.ForEachGroup s g note [] <->
             exists id, Cache.Get s g id = (e, true)) /\
  forall (A : Type) (f : T -> A -> A) (a : A),
    Cache.ForEachGroup s g f a = foldl (fun a e => f e a) a (Cache.ForEachGroup s g note []).
Proof. apply ForEachGroup_noted. Qed.

(** X11. An accepted [Put] into a well-formed cache stores the entity
    under its group and id and changes nothing else the cache holds. *)
Theorem Put_on_contents s g id e :
  wf s -> accepted s.1 e ->
  contents (Cache.Put s g id e) = put_contents g id e (contents s).
Proof. apply Contents.Put_contents. Qed.

(** X12. [Remove] on a well-formed cache deletes the id from its group and
    nothing else; a group it empties keeps its bucket. *)
Theorem Remove_on_contents s g id :
  wf s ->
  contents (Cache.Remove s g id).2 = remove_contents g id (contents s) /\
  (is_Some (contents s !! g) -> is_Some (contents (Cache.Remove s g id).2 !! g)).
Proof.
  intros Hwf. rewrite Contents.Remove_contents by done. split; [done|].
  unfold remove_contents. intros [b Hb]. rewrite lookup_alter_eq, Hb. by eexists.
Qed.

(** X13. [RemoveAll] deletes the bucket of the group and nothing else. *)
Theorem RemoveAll_on_contents s g :
  contents (Cache.RemoveAll s g) = delete g (contents s).
Proof. apply Contents.RemoveAll_contents. Qed.

(** X14. [RemoveIf] on a well-formed cache keeps, in every group, exactly
    the entries the filter does not pick; every group keeps its bucket. *)
Theorem RemoveIf_on_contents s (p : K -> T -> bool) :
  wf s ->
  contents (Cache.RemoveIf s p) = sweep_contents p (contents s) /\
  dom (contents (Cache.RemoveIf s p)) = dom (contents s).
Proof.
  intros Hwf. rewrite Contents.RemoveIf_contents by done. split; [done|].
  unfold sweep_contents. apply set_eq. intros g. rewrite !elem_of_dom, map_lookup_imap.
  destruct (contents s !! g); cbn; split; intros [? ?]; by eauto.
Qed.

(** X15. No method writes the flags, the needed flags or the policy. *)
Theorem settings_never_written s :
  (forall os : list (op K T), config (run cache_step s os).2.1 = config s.1) /\
  (forall p, config (Cache.RemoveIf s p).1 = config s.1) /\
  config (Cache.MapAll s).2.1 = config s.1 /\
  (forall g, config (Cache.MapGroupAll s g).2.1 = config s.1).
Proof. apply Laws.config_never_written. Qed.

(** X16. A cache built without a flag it needs stays empty whatever
    sequence of the ten calls of [op] is made on it: it ends holding
    nothing, and no [Get], [Remove], [FindFirst] or [GroupFindFirst] on the
    way reports an entity. *)
Theorem disabled_cache_holds_nothing fl needed p h (os : list (op K T)) :
  Cache.Missing fl needed = true ->
  let r := run cache_step (Cache.NewGroupedCache fl needed p h) os in
  contents r.2 = ∅ /\
  (forall g id, Cache.Get r.2 g id = (zero, false)) /\
  Forall (fun res => forall x, res <> RFound (x, true)) r.1.
Proof. apply Laws.disabled_cache_stays_empty. Qed.

(** X17. Accepted [Put]s under different keys commute: either order leaves
    the cache holding the same. *)
Theorem Puts_commute s g1 id1 e1 g2 id2 e2 :
  wf s -> accepted s.1 e1 -> accepted s.1 e2 -> (g1, id1) <> (g2, id2) ->
  contents (Cache.Put (Cache.Put s g1 id1 e1) g2 id2 e2) =
  contents (Cache.Put (Cache.Put s g2 id2 e2) g1 id1 e1).
Proof. apply Laws.Put_Put_commute. Qed.

(** X18. The later of two accepted [Put]s under one key wins. *)
Theorem Put_overwrites s g id e1 e2 :
  wf s -> accepted s.1 e1 -> accepted s.1 e2 ->
  contents (Cache.Put (Cache.Put s g id e1) g id e2) = contents (Cache.Put s g id e2).
Proof. apply Laws.Put_Put_overwrite. Qed.

(** X19. [Remove] after an accepted [Put] of a new id returns the entity
    and undoes the [Put], except that a group the [Put] created stays, as
    an empty bucket. *)
Theorem Put_then_Remove_undoes s g id e :
  wf s -> accepted s.1 e ->
  (Cache.Remove (Cache.Put s g id e) g id).1 = (e, true) /\
  (forall b, contents s !! g = Some b -> b !! id = None ->
     contents (Cache.Remove (Cache.Put s g id e) g id).2 = contents s) /\
  (contents s !! g = None ->
     contents (Cache.Remove (Cache.Put s g id e) g id).2 = <[g := ∅]> (contents s)).
Proof. apply Laws.Put_then_Remove. Qed.

(** X20. After a [Remove] that found its entity, [GroupAll] of the group
    lists the entities stored under the other ids; after [RemoveAll] it is
    nil. *)
Theorem GroupAll_after_removing s g id :
  wf s ->
  ((Cache.Remove s g id).1.2 = true ->
   exists l, read_slice (Cache.GroupAll (Cache.Remove s g id).2 g).2.2
                        (Cache.GroupAll (Cache.Remove s g id).2 g).1 = Some l /\
             forall e, e ∈ l <-> exists id', id' <> id /\ Cache.Get s g id' = (e, true)) /\
  Cache.GroupAll (Cache.RemoveAll s g) g = (VNil, Cache.RemoveAll s g).
Proof. apply Laws.GroupAll_after_removal. Qed.

(** X21. After [RemoveIf] with a filter, nothing stored passes it:
    [FindFirst] with the same filter finds nothing and [FindAll] returns an
    empty slice. *)
Theorem RemoveIf_leaves_no_match s (p : K -> T -> bool) :
  wf s ->
  Cache.FindFirst (Cache.RemoveIf s p) p = (zero, false) /\
  read_slice (Cache.FindAll (Cache.RemoveIf s p) p).2.2
             (Cache.FindAll (Cache.RemoveIf s p) p).1 = Some [].
Proof. apply Laws.RemoveIf_then_Find. Qed.

(** X22. [Cache] of package core returns the map the cache works on: read
    after any later calls, it shows what the cache then holds. *)
Theorem Core_Cache_is_live (s : Core.state K T) (os : list (op K T)) (r : positive) :
  Core.cache s.1 = Some r ->
  Core.Cache s = (VGroupMap r, s) /\
  read_group_map (run core_step s os).2.2 (VGroupMap r)
  = Some (core_contents (run core_step s os).2).
Proof. apply Views.Cache_live. Qed.

(** X23. [GroupCache] of package core returns the bucket of the group
    itself: an entity put into the group afterwards shows in the map that
    was returned before. *)
Theorem Core_GroupCache_is_live (s : Core.state K T) g id e (b : positive) :
  index_group s.2 (Core.cache s.1) g = Some b ->
  core_accepted s.1 e ->
  Core.GroupCache s g = (VEntityMap b, s) /\
  read_entity_map (Core.Put s g id e).2 (VEntityMap b)
  = Some (<[id := e]> (entities_at s.2 b)) /\
  core_contents (Core.Put s g id e) !! g = Some (<[id := e]> (entities_at s.2 b)).
Proof. apply Views.GroupCache_live. Qed.

(** X29. [ForEach] and [ForEachGroup] of package core call back as those
    of package cache do: once per stored id, with the group and the entity,
    and within one group once per id stored in it. *)
Theorem Core_ForEach_calls_once (s : Core.state K T) g :
  (Core.ForEach s note_group [] ≡ₚ entries_in s.2 (Core.cache s.1) /\
   (forall g' e, (g', e) ∈ Core.ForEach s note_group [] <->
                 exists id, Core.Get s g' id = (e, true)) /\
   forall (A : Type) (f : K -> T -> A -> A) (a : A),
     Core.ForEach s f a
     = foldl (fun a ge => f ge.1 ge.2 a) a (Core.ForEach s note_group [])) /\
  (Core.ForEachGroup s g note []
     ≡ₚ match core_contents s !! g with Some b => values b | None => [] end /\
   (forall e, e ∈ Core.ForEachGroup s g note [] <->
              exists id, Core.Get s g id = (e, true)) /\
   forall (A : Type) (f : T -> A -> A) (a : A),
     Core.ForEachGroup s g f a
     = foldl (fun a e => f e a) a (Core.ForEachGroup s g note [])).
Proof.
  assert (forall (A : Type) (f : K -> T -> A -> A) (a : A),
            Core.ForEach s f a = Cache.ForEach (of_core_state s) f a) as Hall
    by (by destruct s).
  assert (forall (A : Type) (f : T -> A -> A) (a : A),
            Core.ForEachGroup s g f a = Cache.ForEachGroup (of_core_state s) g f a) as Hgroup
    by (by destruct s).
  assert (forall g' id, Core.Get s g' id = Cache.Get (of_core_state s) g' id) as Hget
    by (intros; apply CoreSpec.Get_eq).
  destruct (ForEach_noted (of_core_state s)) as (Hperm & Hin & Hrun).
  destruct (ForEachGroup_noted (of_core_state s) g) as (Hperm' & Hin' & Hrun').
  split; split_and!.
  - by rewrite Hall.
  - intros g' e. rewrite Hall. setoid_rewrite Hget. apply Hin.
  - intros A f a. rewrite !Hall. apply Hrun.
  - by rewrite Hgroup.
  - intros e. rewrite Hgroup. setoid_rewrite Hget. apply Hin'.
  - intros A f a. rewrite !Hgroup. apply Hrun'.
Qed.

(** X30. What the constructor and the methods keep true of a cache: in
    every state they produce, the maps the cache refers to are allocated
    and no two groups share one entity map. *)
Theorem reachable_states_well_formed s : reachable s -> wf s.
Proof. apply Copies.reachable_wf. Qed.

End Properties.
End GroupedCacheProperties.

(** ** The further properties on small caches *)
Module GroupedCachePropertyExamples.
Import Go GoFacts Inv Ops Enum Examples GroupedCacheProperties.

Lemma accepted_cache_two (e : Z) : (0 < e)%Z -> accepted cache_two.1 e.
Proof.
  intros He. split; [reflexivity|]. intros p Hp. vm_compute in Hp.
  injection Hp as <-. by destruct e.
Defined.

Lemma accepted_core_two (e : Z) : (0 < e)%Z -> core_accepted core_two.1 e.
Proof.
  intros He. split; [reflexivity|]. intros p Hp. vm_compute in Hp.
  injection Hp as <-. by destruct e.
Defined.

(** X3 on the cache with two groups. *)
Lemma MapAll_maps_contents_witness :
  wf cache_two /\
  read_group_map (Cache.MapAll cache_two).2.2 (Cache.MapAll cache_two).1
  = Some (contents cache_two).
Proof.
  split; [exact GroupedCacheExamples.wf_cache_two|].
  apply (proj1 (MapAll_maps_contents cache_two GroupedCacheExamples.wf_cache_two)).
Defined.

(** X4 at group 1 of the cache with two groups. *)
Lemma MapGroupAll_maps_group_witness :
  wf cache_two /\
  read_entity_map (Cache.MapGroupAll cache_two 1%Z).2.2 (Cache.MapGroupAll cache_two 1%Z).1
  = contents cache_two !! 1%Z.
Proof.
  split; [exact GroupedCacheExamples.wf_cache_two|].
  apply (proj1 (MapGroupAll_maps_group cache_two 1%Z GroupedCacheExamples.wf_cache_two)).
Defined.

(** X5: the entity above 150 is found, and none above 500. *)
Lemma FindFirst_finds_witness :
  (Cache.FindFirst cache_two (fun _ e => (150 <? e)%Z) = (200%Z, true) /\
   exists g id, Cache.Get cache_two g id = (200%Z, true) /\ (150 <? 200)%Z = true) /\
  ((Cache.FindFirst cache_two (fun _ e => (500 <? e)%Z)).2 = false /\
   Cache.FindFirst cache_two (fun _ e => (500 <? e)%Z) = (0%Z, false)).
Proof.
  assert (Cache.FindFirst cache_two (fun _ e => (150 <? e)%Z) = (200%Z, true)) as H1
    by (vm_compute; reflexivity).
  assert ((Cache.FindFirst cache_two (fun _ e => (500 <? e)%Z)).2 = false) as H2
    by (vm_compute; reflexivity).
  split; (split; [assumption|]).
  - apply (proj1 (FindFirst_finds cache_two (fun _ e => (150 <? e)%Z)) 200%Z H1).
  - apply (proj1 (proj2 (FindFirst_finds cache_two (fun _ e => (500 <? e)%Z)) H2)).
Defined.

(** X6 in group 2. *)
Lemma GroupFindFirst_finds_witness :
  (Cache.GroupFindFirst cache_two 2%Z (fun _ e => (150 <? e)%Z) = (200%Z, true) /\
   exists id, Cache.Get cache_two 2%Z id = (200%Z, true) /\ (150 <? 200)%Z = true) /\
  ((Cache.GroupFindFirst cache_two 1%Z (fun _ e => (150 <? e)%Z)).2 = false /\
   Cache.GroupFindFirst cache_two 1%Z (fun _ e => (150 <? e)%Z) = (0%Z, false)).
Proof.
  assert (Cache.GroupFindFirst cache_two 2%Z (fun _ e => (150 <? e)%Z) = (200%Z, true)) as H1
    by (vm_compute; reflexivity).
  assert ((Cache.GroupFindFirst cache_two 1%Z (fun _ e => (150 <? e)%Z)).2 = false) as H2
    by (vm_compute; reflexivity).
  split; (split; [assumption|]).
  - apply (proj1 (GroupFindFirst_finds cache_two 2%Z (fun _ e => (150 <? e)%Z)) 200%Z H1).
  - apply (proj1 (proj2 (GroupFindFirst_finds cache_two 1%Z (fun _ e => (150 <? e)%Z)) H2)).
Defined.

(** X11: a third entity into group 1. *)
Lemma Put_on_contents_witness :
  wf cache_two /\ accepted cache_two.1 300%Z /\
  contents (Cache.Put cache_two 1%Z 11%Z 300%Z)
  = put_contents 1%Z 11%Z 300%Z (contents cache_two).
Proof.
  assert (accepted cache_two.1 300%Z) as Ha by (apply accepted_cache_two; lia).
  split; [exact GroupedCacheExamples.wf_cache_two|]. split; [exact Ha|].
  apply (Put_on_contents cache_two 1%Z 11%Z 300%Z GroupedCacheExamples.wf_cache_two Ha).
Defined.

(** X12: removing the one entity of group 1 leaves the group, empty. *)
Lemma Remove_on_contents_witness :
  wf cache_two /\
  contents (Cache.Remove cache_two 1%Z 10%Z).2 = remove_contents 1%Z 10%Z (contents cache_two).
Proof.
  split; [exact GroupedCacheExamples.wf_cache_two|].
  apply (proj1 (Remove_on_contents cache_two 1%Z 10%Z GroupedCacheExamples.wf_cache_two)).
Defined.

(** X14: sweeping the entities below 150. *)
Lemma RemoveIf_on_contents_witness :
  wf cache_two /\
  contents (Cache.RemoveIf cache_two (fun _ e => (e <? 150)%Z))
  = sweep_contents (fun _ e => (e <? 150)%Z) (contents cache_two).
Proof.
  split; [exact GroupedCacheExamples.wf_cache_two|].
  apply (proj1 (RemoveIf_on_contents cache_two (fun _ e => (e <? 150)%Z)
                  GroupedCacheExamples.wf_cache_two)).
Defined.

(** X16: a cache that needs flag 1 and has no flag, after a [Put] and a
    [Get]. *)
Lemma disabled_cache_holds_nothing_witness :
  Cache.Missing 0 1 = true /\
  contents (run cache_step (Cache.NewGroupedCache 0 1 None empty_heap)
              [OpPut 1%Z 10%Z 100%Z; OpGet 1%Z 10%Z]).2 = (∅ : gmap Z (gmap Z Z)).
Proof.
  assert (Cache.Missing 0 1 = true) as Hm by reflexivity.
  split; [exact Hm|].
  apply (proj1 (disabled_cache_holds_nothing (K:=Z) (T:=Z) 0 1 None empty_heap
                  [OpPut 1%Z 10%Z 100%Z; OpGet 1%Z 10%Z] Hm)).
Defined.

(** X17: two new entities, one per group, in either order. *)
Lemma Puts_commute_witness :
  wf cache_two /\ accepted cache_two.1 300%Z /\ accepted cache_two.1 400%Z /\
  (1%Z, 11%Z) <> (2%Z, 21%Z) /\
  contents (Cache.Put (Cache.Put cache_two 1%Z 11%Z 300%Z) 2%Z 21%Z 400%Z) =
  contents (Cache.Put (Cache.Put cache_two 2%Z 21%Z 400%Z) 1%Z 11%Z 300%Z).
Proof.
  assert (accepted cache_two.1 300%Z) as H3 by (apply accepted_cache_two; lia).
  assert (accepted cache_two.1 400%Z) as H4 by (apply accepted_cache_two; lia).
  assert ((1%Z, 11%Z) <> (2%Z, 21%Z)) as Hne by congruence.
  split; [exact GroupedCacheExamples.wf_cache_two|]. split; [exact H3|].
  split; [exact H4|]. split; [exact Hne|].
  apply (Puts_commute cache_two 1%Z 11%Z 300%Z 2%Z 21%Z 400%Z
           GroupedCacheExamples.wf_cache_two H3 H4 Hne).
Defined.

(** X18: 400 over 300 under one key. *)
Lemma Put_overwrites_witness :
  wf cache_two /\ accepted cache_two.1 300%Z /\ accepted cache_two.1 400%Z /\
  contents (Cache.Put (Cache.Put cache_two 1%Z 11%Z 300%Z) 1%Z 11%Z 400%Z)
  = contents (Cache.Put cache_two 1%Z 11%Z 400%Z).
Proof.
  assert (accepted cache_two.1 300%Z) as H3 by (apply accepted_cache_two; lia).
  assert (accepted cache_two.1 400%Z) as H4 by (apply accepted_cache_two; lia).
  split; [exact GroupedCacheExamples.wf_cache_two|]. split; [exact H3|].
  split; [exact H4|].
  apply (Put_overwrites cache_two 1%Z 11%Z 300%Z 400%Z
           GroupedCacheExamples.wf_cache_two H3 H4).
Defined.

(** X19: a new entity into group 1 and out again. *)
Lemma Put_then_Remove_undoes_witness :
  wf cache_two /\ accepted cache_two.1 300%Z /\
  (Cache.Remove (Cache.Put cache_two 1%Z 11%Z 300%Z) 1%Z 11%Z).1 = (300%Z, true).
Proof.
  assert (accepted cache_two.1 300%Z) as Ha by (apply accepted_cache_two; lia).
  split; [exact GroupedCacheExamples.wf_cache_two|]. split; [exact Ha|].
  apply (proj1 (Put_then_Remove_undoes cache_two 1%Z 11%Z 300%Z
                  GroupedCacheExamples.wf_cache_two Ha)).
Defined.

(** X20: group 1 after [RemoveAll]. *)
Lemma GroupAll_after_removing_witness :
  wf cache_two /\
  Cache.GroupAll (Cache.RemoveAll cache_two 1%Z) 1%Z = (VNil, Cache.RemoveAll cache_two 1%Z).
Proof.
  split; [exact GroupedCacheExamples.wf_cache_two|].
  apply (proj2 (GroupAll_after_removing cache_two 1%Z 10%Z GroupedCacheExamples.wf_cache_two)).
Defined.

(** X21: after sweeping the entities below 150, none is below 150. *)
Lemma RemoveIf_leaves_no_match_witness :
  wf cache_two /\
  Cache.FindFirst (Cache.RemoveIf cache_two (fun _ e => (e <? 150)%Z))
    (fun _ e => (e <? 150)%Z) = (0%Z, false).
Proof.
  split; [exact GroupedCacheExamples.wf_cache_two|].
  apply (proj1 (RemoveIf_leaves_no_match cache_two (fun _ e => (e <? 150)%Z)
                  GroupedCacheExamples.wf_cache_two)).
Defined.

(** X22: the map [Cache] returned, read after a later [Put]. *)
Lemma Core_Cache_is_live_witness :
  Core.cache core_two.1 = Some 1%positive /\
  read_group_map (run core_step core_two [OpPut 3%Z 30%Z 300%Z]).2.2 (VGroupMap 1%positive)
  = Some (core_contents (run core_step core_two [OpPut 3%Z 30%Z 300%Z]).2).
Proof.
  assert (Core.cache core_two.1 = Some 1%positive) as Hr by (vm_compute; reflexivity).
  split; [exact Hr|].
  apply (proj2 (Core_Cache_is_live core_two [OpPut 3%Z 30%Z 300%Z] 1%positive Hr)).
Defined.

(** X23: the bucket of group 1, read after a later [Put] into the group. *)
Lemma Core_GroupCache_is_live_witness :
  index_group core_two.2 (Core.cache core_two.1) 1%Z = Some 2%positive /\
  core_accepted core_two.1 300%Z /\
  read_entity_map (Core.Put core_two 1%Z 11%Z 300%Z).2 (VEntityMap 2%positive)
  = Some (<[11%Z := 300%Z]> (entities_at core_two.2 2%positive)).
Proof.
  assert (index_group core_two.2 (Core.cache core_two.1) 1%Z = Some 2%positive) as Hb
    by (vm_compute; reflexivity).
  assert (core_accepted core_two.1 300%Z) as Ha by (apply accepted_core_two; lia).
  split; [exact Hb|]. split; [exact Ha|].
  apply (proj1 (proj2 (Core_GroupCache_is_live core_two 1%Z 11%Z 300%Z 2%positive Hb Ha))).
Defined.

(** X30: the cache with two groups, after a sweep and an enumeration. *)
Lemma reachable_states_well_formed_witness :
  reachable (Cache.All (Cache.RemoveIf cache_two (fun _ e => (e <? 150)%Z))).2 /\
  wf (Cache.All (Cache.RemoveIf cache_two (fun _ e => (e <? 150)%Z))).2.
Proof.
  assert (reachable (Cache.All (Cache.RemoveIf cache_two (fun _ e => (e <? 150)%Z))).2) as Hr.
  { apply reachable_All, reachable_RemoveIf.
    apply (reachable_Put (Cache.Put cache_on 1%Z 10%Z 100%Z) 2%Z 20%Z 200%Z).
    apply (reachable_Put cache_on 1%Z 10%Z 100%Z).
    apply (reachable_New 1 1 (Some (fun e => (0 <? e)%Z)) empty_heap). }
  split; [exact Hr|].
  apply (reachable_states_well_formed _ Hr).
Defined.

End GroupedCachePropertyExamples.

(** ** Further properties of the mentions *)
Module MentionProperties.
Import Mentions Patterns.

Local Open Scope string_scope.

(** X24. Both emoji formatters are found by the emoji pattern, for a name
    made of word characters: the match is the whole mention, group 1 the
    name, group 2 the id in base ten. *)
Theorem emoji_mention_roundtrip (id : N) (name : string) :
  name <> EmptyString -> all_atoms AWord name = true ->
  FindStringSubmatch MentionTypeEmoji (EmojiMention id name)
  = Some [EmojiMention id name; name; ID_String id] /\
  FindStringSubmatch MentionTypeEmoji (AnimatedEmojiMention id name)
  = Some [AnimatedEmojiMention id name; name; ID_String id].
Proof. apply PatternsSpec.emoji_roundtrip. Qed.

Lemma emoji_mention_roundtrip_witness :
  "party_blob" <> EmptyString /\ all_atoms AWord "party_blob" = true /\
  FindStringSubmatch MentionTypeEmoji (EmojiMention 42 "party_blob")
  = Some [EmojiMention 42 "party_blob"; "party_blob"; ID_String 42].
Proof.
  assert ("party_blob" <> EmptyString) as Hne by discriminate.
  assert (all_atoms AWord "party_blob" = true) as Hw by reflexivity.
  split; [exact Hne|]. split; [exact Hw|].
  apply (proj1 (emoji_mention_roundtrip 42 "party_blob" Hne Hw)).
Defined.

(** X25. [TimestampMention] against the timestamp pattern: for a number of
    magnitude below 10^17 the mention is found, whole, with the printed
    number (sign included) as the time and no style; from 10^17 on, where
    the number prints with more than the 17 digits the pattern allows, it
    is not found at all. *)
Theorem timestamp_mention_roundtrip (ts : Z) :
  ((Z.abs ts < 10 ^ 17)%Z ->
   FindStringSubmatch MentionTypeTimestamp (TimestampMention ts)
   = Some [TimestampMention ts; Itoa ts; EmptyString]) /\
  ((10 ^ 17 <= Z.abs ts)%Z ->
   FindStringSubmatch MentionTypeTimestamp (TimestampMention ts) = None).
Proof.
  destruct (PatternsSpec.TimestampMention_digits ts) as [Hshort Hlong].
  pose proof (PatternsSpec.timestamp_digits ts) as Hd.
  split; intros Hts.
  - apply Hshort, Hd, Hts.
  - apply Hlong. apply Nat.nle_gt. intros Hlen%Hd. lia.
Qed.

Lemma timestamp_mention_roundtrip_witness :
  ((Z.abs (-1700000000) < 10 ^ 17)%Z /\
   FindStringSubmatch MentionTypeTimestamp (TimestampMention (-1700000000))
   = Some [TimestampMention (-1700000000); Itoa (-1700000000); EmptyString]) /\
  ((10 ^ 17 <= Z.abs 9223372036854775807)%Z /\
   FindStringSubmatch MentionTypeTimestamp (TimestampMention 9223372036854775807) = None).
Proof.
  assert (Z.abs (-1700000000) < 10 ^ 17)%Z as H1 by reflexivity.
  assert (10 ^ 17 <= Z.abs 9223372036854775807)%Z as H2 by discriminate.
  split; (split; [assumption|]).
  - apply (proj1 (timestamp_mention_roundtrip (-1700000000)) H1).
  - apply (proj2 (timestamp_mention_roundtrip 9223372036854775807) H2).
Defined.

(** X26. [FormattedTimestampMention] with one of the seven style letters,
    for a number of magnitude below 10^17: the mention is found, whole,
    with the printed number as the time and the letter as the style. *)
Theorem formatted_timestamp_mention_roundtrip (ts : Z) (style : ascii) :
  (Z.abs ts < 10 ^ 17)%Z ->
  style ∈ ["t"; "T"; "d"; "D"; "f"; "F"; "R"]%char ->
  FindStringSubmatch MentionTypeTimestamp
    (FormattedTimestampMention ts (String style EmptyString))
  = Some [FormattedTimestampMention ts (String style EmptyString); Itoa ts;
          String style EmptyString].
Proof.
  intros Hts Hstyle. apply PatternsSpec.FormattedTimestampMention_digits; [|done].
  by apply PatternsSpec.timestamp_digits.
Qed.

Lemma formatted_timestamp_mention_roundtrip_witness :
  (Z.abs 1700000000 < 10 ^ 17)%Z /\
  "R"%char ∈ ["t"; "T"; "d"; "D"; "f"; "F"; "R"]%char /\
  FindStringSubmatch MentionTypeTimestamp (FormattedTimestampMention 1700000000 "R")
  = Some [FormattedTimestampMention 1700000000 "R"; Itoa 1700000000; "R"].
Proof.
  assert (Z.abs 1700000000 < 10 ^ 17)%Z as H1 by reflexivity.
  assert ("R"%char ∈ ["t"; "T"; "d"; "D"; "f"; "F"; "R"]%char) as H2
    by (apply list_elem_of_In; cbn; tauto).
  split; [exact H1|]. split; [exact H2|].
  apply (formatted_timestamp_mention_roundtrip 1700000000 "R"%char H1 H2).
Defined.

(** X27. The user, role and channel mentions are told apart: what the
    formatter of one kind writes holds no match of the pattern of either
    other kind. *)
Theorem mention_kinds_told_apart (id : N) :
  (Mentions.FindStringSubmatch MentionTypeRole (UserMention id) = None /\
   Mentions.FindStringSubmatch MentionTypeChannel (UserMention id) = None) /\
  (Mentions.FindStringSubmatch MentionTypeUser (RoleMention id) = None /\
   Mentions.FindStringSubmatch MentionTypeChannel (RoleMention id) = None) /\
  (Mentions.FindStringSubmatch MentionTypeUser (ChannelMention id) = None /\
   Mentions.FindStringSubmatch MentionTypeRole (ChannelMention id) = None).
Proof.
  split_and!; first [apply MentionKinds.UserMention_not_other
                    |apply MentionKinds.RoleMention_not_other
                    |apply MentionKinds.ChannelMention_not_other].
Qed.

End MentionProperties.

(** ** The options of a voice connection *)
Module VoiceProperties.
Import Voice.

Section Options.
Context {log_Logger GatewayCreateFunc_type GatewayConfigOpt UDPConnCreateFunc_type
         UDPConnConfigOpt : Type}.
Abbreviation Config :=
  (ConnectionConfig log_Logger GatewayCreateFunc_type GatewayConfigOpt
     UDPConnCreateFunc_type UDPConnConfigOpt) (only parsing).
Abbreviation Opt :=
  (ConnectionConfigOpt log_Logger GatewayCreateFunc_type GatewayConfigOpt
     UDPConnCreateFunc_type UDPConnConfigOpt) (only parsing).

Lemma Apply_app (c : Config) (opts1 opts2 : list Opt) :
  Apply c (opts1 ++ opts2) = Apply (Apply c opts1) opts2.
Proof. apply foldl_app. Qed.

(** X28. Logger options change the logger only, and the last one wins:
    applying a list of them to a configuration leaves the two create
    functions and the two option lists as they were and sets the logger to
    the last one given, or leaves it when the list is empty; and a logger
    option at the end of any list of options decides the logger. *)
Theorem logger_options (c : Config) :
  (forall loggers : list log_Logger,
     Apply c (WithConnectionLogger <$> loggers)
     = {| Logger := default (Logger c) (last loggers);
          GatewayCreateFunc := GatewayCreateFunc c;
          GatewayConfigOpts := GatewayConfigOpts c;
          UDPConnCreateFunc := UDPConnCreateFunc c;
          UDPConnConfigOpts := UDPConnConfigOpts c |}) /\
  (forall (opts : list Opt) (logger : log_Logger),
     Logger (Apply c (opts ++ [WithConnectionLogger logger])) = logger /\
     GatewayCreateFunc (Apply c (opts ++ [WithConnectionLogger logger]))
     = GatewayCreateFunc (Apply c opts) /\
     GatewayConfigOpts (Apply c (opts ++ [WithConnectionLogger logger]))
     = GatewayConfigOpts (Apply c opts) /\
     UDPConnCreateFunc (Apply c (opts ++ [WithConnectionLogger logger]))
     = UDPConnCreateFunc (Apply c opts) /\
     UDPConnConfigOpts (Apply c (opts ++ [WithConnectionLogger logger]))
     = UDPConnConfigOpts (Apply c opts)).
Proof.
  split.
  - intros loggers. revert c.
    induction loggers as [|l loggers IH]; intros c; [destruct c; reflexivity|].
    cbn [fmap list_fmap]. change (Apply c (?o :: ?os)) with (Apply (o c) os).
    rewrite IH. cbn [WithConnectionLogger Logger GatewayCreateFunc GatewayConfigOpts
                     UDPConnCreateFunc UDPConnConfigOpts].
    f_equal. rewrite last_cons. by destruct (last loggers).
  - intros opts logger. by rewrite Apply_app.
Qed.

End Options.
End VoiceProperties.
